(** * Akita: stores, transactions, entity stores and entity plugins

    A shallow embedding of
      - transaction.ts: the transaction manager and [applyTransaction],
      - store.ts: the class [Store],
      - entityStore.ts: the class [EntityStore],
      - plugins/entityCollectionPlugin.ts: the class [EntityCollectionPlugin],
      - plugins/stateHistory/entityStateHistoryPlugin.ts: the class
        [EntityStateHistoryPlugin].

    JavaScript objects live in a heap of store objects addressed by index;
    the module-level [transactionManager] is part of the world.  RxJS
    subjects are modelled by what they do synchronously: a [Subject] keeps
    its observers and whether it is stopped, a [BehaviorSubject] keeps its
    current value and the values passed to [next]. *)

From stdpp Require Import gmap strings list fin_maps pretty.
From Stdlib Require Import ZArith Lia.

Open Scope Z_scope.

(** ** JavaScript completions *)

Inductive Exn : Type :=
  | TypeError
  | Thrown (payload : nat).

Inductive Result (T : Type) : Type :=
  | Ok (v : T)
  | Err (e : Exn).
Arguments Ok {T} v.
Arguments Err {T} e.

(** ** transaction.ts *)

(** An RxJS [Subject] whose observers are the [watchTransaction]
    subscriptions of stores; an observer is the index of its store. *)
Record Subject : Type := mkSubject {
  observers : list nat;
  isStopped : bool
}.

Record TransactionManager : Type := mkTransactionManager {
  activeTransactions : Z;
  batchTransaction : option Subject
}.

(** [BehaviorSubject]: the current value and the values passed to [next],
    oldest first.  Each entry of [bs_emitted] is one notification delivered
    to the subscribers of the subject. *)
Record BehaviorSubject (State : Type) : Type := mkBehaviorSubject {
  bs_value : State;
  bs_emitted : list State
}.
Arguments mkBehaviorSubject {State} _ _.
Arguments bs_value {State} _.
Arguments bs_emitted {State} _.

(** ** store.ts: the fields of a [Store] object.  [ext] holds the fields a
    subclass adds. *)
Record Store (State X : Type) : Type := mkStore {
  storeValue : State;
  store : option (BehaviorSubject State);
  inTransaction : bool;
  cache_active : bool;
  ext : X
}.
Arguments mkStore {State X} _ _ _ _ _.
Arguments storeValue {State X} _.
Arguments store {State X} _.
Arguments inTransaction {State X} _.
Arguments cache_active {State X} _.
Arguments ext {State X} _.

(** The world: the module state of transaction.ts and the store objects. *)
Record World (State X : Type) : Type := mkWorld {
  transactionManager : TransactionManager;
  transactionInProcess : bool;
  transactionFinished : nat;
  heap : list (Store State X)
}.
Arguments mkWorld {State X} _ _ _ _.
Arguments transactionManager {State X} _.
Arguments transactionInProcess {State X} _.
Arguments transactionFinished {State X} _.
Arguments heap {State X} _.

Section StoreAndTransaction.
Context {State X : Type}.

Abbreviation World := (World State X).
Abbreviation Store := (Store State X).

Definition depth (w : World) : Z := activeTransactions (transactionManager w).
Definition batch (w : World) : option Subject := batchTransaction (transactionManager w).

Definition set_manager (m : TransactionManager) (w : World) : World :=
  mkWorld m (transactionInProcess w) (transactionFinished w) (heap w).

Definition set_heap (h : list Store) (w : World) : World :=
  mkWorld (transactionManager w) (transactionInProcess w) (transactionFinished w) h.

Definition set_object (self : nat) (st : Store) (w : World) : World :=
  set_heap (<[self := st]> (heap w)) w.

Definition set_storeValue (v : State) (st : Store) : Store :=
  mkStore v (store st) (inTransaction st) (cache_active st) (ext st).

Definition set_store (b : option (BehaviorSubject State)) (st : Store) : Store :=
  mkStore (storeValue st) b (inTransaction st) (cache_active st) (ext st).

Definition set_inTransaction (b : bool) (st : Store) : Store :=
  mkStore (storeValue st) (store st) b (cache_active st) (ext st).

Definition set_cache_active (b : bool) (st : Store) : Store :=
  mkStore (storeValue st) (store st) (inTransaction st) b (ext st).

Definition set_ext (x : X) (st : Store) : Store :=
  mkStore (storeValue st) (store st) (inTransaction st) (cache_active st) x.

(** [isTransactionInProcess()] *)
Definition isTransactionInProcess (w : World) : bool := 0 <? depth w.

(** [startBatch()] *)
Definition startBatch (w : World) : World :=
  let m := transactionManager w in
  let b := if isTransactionInProcess w then batchTransaction m
           else Some (mkSubject [] false) in
  mkWorld (mkTransactionManager (activeTransactions m + 1) b)
          true (transactionFinished w) (heap w).

(** [BehaviorSubject.next(state)] on the store's subject. *)
Definition bs_next (v : State) (b : BehaviorSubject State) : BehaviorSubject State :=
  mkBehaviorSubject v (bs_emitted b ++ [v]).

(** [Store.dispatch(state)]: [this.store.next(state)].  The root
    dispatcher only feeds the developer tools.  [dispatch] is called only
    once the subject exists. *)
Definition dispatch (self : nat) (state : State) (w : World) : World :=
  match heap w !! self with
  | Some st => set_object self (set_store (bs_next state <$> store st) st) w
  | None => w
  end.

(** The callback [watchTransaction] subscribes to [commit()]:
    [this.inTransaction = false; this.dispatch(this._value())]. *)
Definition commit_callback (self : nat) (w : World) : World :=
  match heap w !! self with
  | Some st =>
      let w1 := set_object self (set_inTransaction false st) w in
      dispatch self (storeValue st) w1
  | None => w
  end.

(** [Subject.next(true)]: every observer is called, in subscription
    order; a stopped subject calls nobody. *)
Definition Subject_next (sub : Subject) (w : World) : World :=
  if isStopped sub then w
  else foldl (fun w' self => commit_callback self w') w (observers sub).

(** [Subject.complete()] *)
Definition Subject_complete (sub : Subject) : Subject := mkSubject [] true.

(** [endBatch()].  [batchTransaction.next] on [null] raises a TypeError,
    after the counter was decremented; [complete] is called on the subject
    the manager holds once [next] has returned. *)
Definition endBatch (w : World) : Result unit * World :=
  let m := transactionManager w in
  let n := activeTransactions m - 1 in
  let w1 := set_manager (mkTransactionManager n (batchTransaction m)) w in
  if n =? 0 then
    match batchTransaction m with
    | None => (Err TypeError, w1)
    | Some sub =>
        let w2 := Subject_next sub w1 in
        let m2 := transactionManager w2 in
        match batchTransaction m2 with
        | None => (Err TypeError, w2)
        | Some sub2 =>
            (Ok tt,
             mkWorld
               (mkTransactionManager (activeTransactions m2) (Some (Subject_complete sub2)))
               false (Datatypes.S (transactionFinished w2)) (heap w2))
        end
    end
  else (Ok tt, w1).

(** [applyTransaction(action)]: [startBatch(); try { return action() }
    finally { endBatch() }].  An exception raised by the [finally] block
    replaces the completion of the [try] block. *)
Definition applyTransaction {T : Type} (action : World → Result T * World)
    (w : World) : Result T * World :=
  let w1 := startBatch w in
  let '(r, w2) := action w1 in
  match endBatch w2 with
  | (Err e, w3) => (Err e, w3)
  | (Ok _, w3) => (r, w3)
  end.

(** What [commit()] returns: the batch subject as an observable, or
    [of(true)]. *)
Inductive CommitObservable : Type :=
  | BatchObservable (sub : Subject)
  | OfTrue.

(** [commit()] *)
Definition commit (w : World) : CommitObservable :=
  match batchTransaction (transactionManager w) with
  | Some sub => BatchObservable sub
  | None => OfTrue
  end.

(** [Store.watchTransaction()]: subscribe to [commit()].  [of(true)] calls
    the subscriber at once; subscribing to a stopped subject calls
    nothing. *)
Definition watchTransaction (self : nat) (w : World) : World :=
  match commit w with
  | BatchObservable sub =>
      if isStopped sub then w
      else set_manager
             (mkTransactionManager (activeTransactions (transactionManager w))
                (Some (mkSubject (observers sub ++ [self]) false))) w
  | OfTrue => commit_callback self w
  end.

(** [Store.handleTransaction()] *)
Definition handleTransaction (self : nat) (w : World) : World :=
  match heap w !! self with
  | Some st =>
      if inTransaction st then w
      else
        let w1 := watchTransaction self w in
        match heap w1 !! self with
        | Some st1 => set_object self (set_inTransaction true st1) w1
        | None => w1
        end
  | None => w
  end.

(** [Store._setState(newStateFn)].  [deepFreeze] returns its argument. *)
Definition _setState (self : nat) (newStateFn : State → State) (w : World) : World :=
  match heap w !! self with
  | Some st =>
      let v := newStateFn (storeValue st) in
      let st1 := set_storeValue v st in
      match store st with
      | None => set_object self (set_store (Some (mkBehaviorSubject v [])) st1) w
      | Some _ =>
          let w1 := set_object self st1 w in
          if isTransactionInProcess w1 then handleTransaction self w1
          else dispatch self v w1
      end
  | None => w
  end.

(** [Store.setHasCache(hasCache)] *)
Definition setHasCache (self : nat) (hasCache : bool) (w : World) : World :=
  match heap w !! self with
  | Some st =>
      if bool_decide (hasCache ≠ cache_active st)
      then set_object self (set_cache_active hasCache st) w
      else w
  | None => w
  end.

(** [new Store(initialState)]: the object is allocated and [onInit] runs
    [_setState(() => initialState)], which creates the subject. *)
Definition Store_new (initialState : State) (x : X) (w : World) : nat * World :=
  let self := length (heap w) in
  let w1 := set_heap (heap w ++ [mkStore initialState None false false x]) w in
  (self, _setState self (fun _ => initialState) w1).

(** ** Client programs: what a caller does with stores and transactions. *)
Inductive Program : Type :=
  | Skip
  | Seq (c1 c2 : Program)
  | SetState (self : nat) (newStateFn : State → State)
  | Transaction (body : Program)
  | Throw (e : Exn)
  | TryCatch (body handler : Program).

Fixpoint exec (c : Program) (w : World) : Result unit * World :=
  match c with
  | Skip => (Ok tt, w)
  | Seq c1 c2 =>
      match exec c1 w with
      | (Ok _, w1) => exec c2 w1
      | (Err e, w1) => (Err e, w1)
      end
  | SetState self f => (Ok tt, _setState self f w)
  | Transaction body => applyTransaction (exec body) w
  | Throw e => (Err e, w)
  | TryCatch body handler =>
      match exec body w with
      | (Ok _, w1) => (Ok tt, w1)
      | (Err _, w1) => exec handler w1
      end
  end.

(** No [throw] and no [try]: every call of the program is reached. *)
Fixpoint straight (c : Program) : bool :=
  match c with
  | Skip => true
  | Seq c1 c2 => straight c1 && straight c2
  | SetState _ _ => true
  | Transaction body => straight body
  | Throw _ => false
  | TryCatch _ _ => false
  end.

(** Number of [_setState] calls on [self] in a straight program. *)
Fixpoint mutations (self : nat) (c : Program) : nat :=
  match c with
  | Skip => 0%nat
  | Seq c1 c2 => (mutations self c1 + mutations self c2)%nat
  | SetState i _ => if decide (i = self) then 1%nat else 0%nat
  | Transaction body => mutations self body
  | Throw _ => 0%nat
  | TryCatch body handler => (mutations self body + mutations self handler)%nat
  end.

(** The cumulative effect of the mutations of [self], in program order. *)
Fixpoint effect (self : nat) (c : Program) (v : State) : State :=
  match c with
  | Skip => v
  | Seq c1 c2 => effect self c2 (effect self c1 v)
  | SetState i f => if decide (i = self) then f v else v
  | Transaction body => effect self body v
  | Throw _ => v
  | TryCatch body handler => effect self handler (effect self body v)
  end.

End StoreAndTransaction.

(** ** JavaScript values, identifiers and entities *)

(** Primitive values.  Numbers are the integers. *)
Inductive Value : Type :=
  | VUndefined
  | VNull
  | VBool (b : bool)
  | VNum (n : Z)
  | VStr (s : string).

Global Instance Value_eq_dec : EqDecision Value.
Proof. solve_decision. Defined.

(** [ID = number | string]; at run time an id is any value an entity holds
    under its id key. *)
Abbreviation ID := Value.

(** The ids of the declared type [ID]. *)
Definition is_id (v : Value) : bool :=
  match v with
  | VNum _ | VStr _ => true
  | _ => false
  end.

(** The property key a value is converted to when it indexes an object:
    [entities[1]] and [entities['1']] are the same property. *)
Definition propKey (v : Value) : string :=
  match v with
  | VUndefined => "undefined"
  | VNull => "null"
  | VBool true => "true"
  | VBool false => "false"
  | VNum n => pretty n
  | VStr s => s
  end.

(** [!!v] *)
Definition truthy (v : Value) : bool :=
  match v with
  | VUndefined | VNull => false
  | VBool b => b
  | VNum n => negb (n =? 0)
  | VStr s => negb (bool_decide (s = ""))
  end.

(** An entity is an object with primitive fields. *)
Abbreviation Entity := (gmap string Value).

(** [entity[key]] *)
Definition getField (key : string) (e : Entity) : Value :=
  default VUndefined (e !! key).

(** [{ ...a, ...b }] *)
Definition spread (a b : Entity) : Entity := b ∪ a.

(** [value | value[]] *)
Inductive OneOrMany (A : Type) : Type :=
  | One (x : A)
  | Many (l : list A).
Arguments One {A} x.
Arguments Many {A} l.

(** [active]: one id (or [null]) or a sequence of ids. *)
Inductive Active : Type :=
  | ActiveOne (id : ID)
  | ActiveMany (l : list ID).

Record EntityState : Type := mkEntityState {
  ids : list ID;
  entities : gmap string Entity;
  active : Active;
  loading : Value;
  error : Value
}.

Definition set_loading (v : Value) (s : EntityState) : EntityState :=
  mkEntityState (ids s) (entities s) (active s) v (error s).

Inductive EntityActions : Type :=
  | ActSet
  | ActAdd
  | ActUpdate
  | ActRemove.

(** [{ type, ids }]; [ea_ids] is [None] for [ids: null]. *)
Record EntityAction : Type := mkEntityAction {
  ea_type : EntityActions;
  ea_ids : option (list ID)
}.

(** The fields and overridable hooks [EntityStore] adds to [Store]:
    the resolved [idKey], the overrides of [akitaPreAddEntity] and
    [akitaPreUpdateEntity] ([None]: the method of [EntityStore.prototype]),
    and the values passed to [updatedEntityIds.next] and
    [entityActions.next].  No UI store is attached and no cache ttl is
    configured. *)
Record EntityStoreFields : Type := mkEntityStoreFields {
  idKey : string;
  preAddOverride : option (Entity → Entity);
  preUpdateOverride : option (Entity → Entity → Entity);
  updatedEntityIds : list (list ID);
  entityActions : list EntityAction
}.

(** Modelled from the spec: the constant [DEFAULT_ID_KEY] (defaultIDKey.ts),
    the default of the configurable key name, [id]. *)
Definition DEFAULT_ID_KEY : string := "id".

(** [akitaPreAddEntity(newEntity)]: the base method returns its argument. *)
Definition akitaPreAddEntity (x : EntityStoreFields) : Entity → Entity :=
  default (fun newEntity => newEntity) (preAddOverride x).

(** [akitaPreUpdateEntity(_, nextEntity)]: the base method returns
    [nextEntity]. *)
Definition akitaPreUpdateEntity (x : EntityStoreFields) : Entity → Entity → Entity :=
  default (fun _ nextEntity => nextEntity) (preUpdateOverride x).

(** *** Helpers of the repository used by [EntityStore] *)

Class Nilable (A : Type) := isNil : A → bool.

(** Modelled from the spec: [isNil] (isNil.ts), "absent (null/undefined)". *)
Global Instance Value_Nilable : Nilable Value := fun v =>
  match v with
  | VUndefined | VNull => true
  | _ => false
  end.

(** An object is neither [null] nor [undefined]. *)
Global Instance Entity_Nilable : Nilable Entity := fun _ => false.

(** Modelled from the spec: [coerceArray] (coerceArray.ts), "normalizes the
    input to a sequence (single entity → singleton sequence)"; an absent
    value gives the empty sequence. *)
Definition coerceArray {A : Type} `{Nilable A} (value : OneOrMany A) : list A :=
  match value with
  | One x => if isNil x then [] else [x]
  | Many l => l
  end.

(** Modelled from the spec: [isEmpty] (isEmpty.ts), "an empty input
    sequence"; [null] is not empty ("target absent → remove all"). *)
Definition isEmpty {A : Type} (arr : option (list A)) : bool :=
  match arr with
  | Some [] => true
  | _ => false
  end.

(** Modelled from the spec: [hasEntity] (hasEntity.ts), whether the id
    "exists" in the [entities] mapping. *)
Definition hasEntity (es : gmap string Entity) (id : ID) : bool :=
  bool_decide (is_Some (es !! propKey id)).

(** [arr.indexOf(x) > -1], [arr.includes(x)] *)
Definition includes (arr : list ID) (x : ID) : bool := bool_decide (x ∈ arr).

(** [Partial<E> | UpdateStateCallback<E>] *)
Inductive NewState : Type :=
  | Patch (p : Entity)
  | Fn (f : Entity → Entity).

(** The first argument of [update] and [remove]: absent ([undefined] or
    [null]), an id or ids, or a predicate.  The predicate is applied to
    [this.entities[id]], which is [None] when the property is missing. *)
Inductive Target : Type :=
  | TNil
  | TIds (v : OneOrMany ID)
  | TFn (predicate : option Entity → bool).

Definition Target_isNil (t : Target) : bool :=
  match t with
  | TNil => true
  | TIds (One v) => isNil v
  | _ => false
  end.

(** Modelled from the spec: [isDefined] (isDefined.ts), the target is not
    absent. *)
Definition isDefined (t : Target) : bool := negb (Target_isNil t).

(** [{ prepend?, loading? }] *)
Record AddEntitiesOptions : Type := mkAddEntitiesOptions {
  opt_prepend : Value;
  opt_loading : Value
}.

(** [{ newState, newIds }] *)
Record AddEntitiesResult : Type := mkAddEntitiesResult {
  newState : EntityState;
  newIds : list ID
}.

(** Modelled from the spec: [addEntities] (addEntities.ts), "this base
    operation does not dedupe — each new record is appended/prepended and
    its id inserted into [ids], even if it overwrites an existing mapping
    entry via the hook transform"; the result is [null] when nothing was
    added. *)
Definition addEntities (state : EntityState) (preAddEntity : Entity → Entity)
    (es : list Entity) (key : string) (options : AddEntitiesOptions)
    : option AddEntitiesResult :=
  let step (acc : gmap string Entity * list ID) (entity : Entity) :=
    let current := preAddEntity entity in
    let entityId := getField key current in
    (<[propKey entityId := current]> acc.1,
     if truthy (opt_prepend options) then entityId :: acc.2 else acc.2 ++ [entityId]) in
  let '(newEntities, added) := foldl step (entities state, []) es in
  match es with
  | [] => None
  | _ =>
      Some (mkAddEntitiesResult
              (mkEntityState
                 (if truthy (opt_prepend options) then added ++ ids state
                  else ids state ++ added)
                 newEntities (active state) (loading state) (error state))
              added)
  end.

(** Modelled from the spec: [updateEntities] (updateEntities.ts), "[patch]
    is either a partial-field object merged onto each selected entity, or a
    function computing the next entity from the previous"; "a pre-update
    hook may transform (previous, next) into the entity actually stored".
    An id without an entity is skipped. *)
Definition updateEntities (key : string) (l : list ID)
    (preUpdateEntity : Entity → Entity → Entity) (state : EntityState)
    (newStateOrFn : NewState) : EntityState :=
  let step (acc : gmap string Entity) (id : ID) :=
    match entities state !! propKey id with
    | Some oldEntity =>
        let change := match newStateOrFn with
                      | Patch p => p
                      | Fn f => f oldEntity
                      end in
        <[propKey id := preUpdateEntity oldEntity (spread oldEntity change)]> acc
    | None => acc
    end in
  mkEntityState (ids state) (foldl step (entities state) l)
                (active state) (loading state) (error state).

(** Modelled from the spec: [removeEntities] (removeEntities.ts), "target
    absent → remove all (resets [ids] to empty, [entities] to empty)";
    otherwise "removal of an id must delete it from [entities] and from
    [ids]; removal does not currently guarantee pruning of [active]". *)
Definition removeEntities (state : EntityState) (l : option (list ID)) : EntityState :=
  match l with
  | None => mkEntityState [] ∅ (active state) (loading state) (error state)
  | Some l =>
      mkEntityState
        (List.filter (fun current => negb (includes l current)) (ids state))
        (foldl (fun acc id => delete (propKey id) acc) (entities state) l)
        (active state) (loading state) (error state)
  end.

(** The argument of [set]: an array of entities or a normalized
    [{ ids, entities }] pair. *)
Inductive SetEntities : Type :=
  | SetArray (l : list Entity)
  | SetNormalized (l : list ID) (es : gmap string Entity).

(** Modelled from the spec: [setEntities] (setEntities.ts), "computes a
    fresh [ids] sequence (preserving input order for sequence/array input)
    and a fresh [entities] mapping.  A per-entity hook may transform each
    entity before insertion; if no hook is configured, insertion is a
    direct structural copy". *)
Definition setEntities (state : EntityState) (src : SetEntities) (key : string)
    (preAddEntity : Entity → Entity) (isNativePreAdd : bool) : EntityState :=
  match src with
  | SetArray l =>
      let l' := if isNativePreAdd then l else map preAddEntity l in
      mkEntityState
        (map (getField key) l')
        (foldl (fun acc e => <[propKey (getField key e) := e]> acc) ∅ l')
        (active state) (loading state) (error state)
  | SetNormalized l es =>
      mkEntityState l es (active state) (loading state) (error state)
  end.

(** ** entityStore.ts: the methods of [EntityStore] *)

Abbreviation EStore := (Store EntityState EntityStoreFields).
Abbreviation EWorld := (World EntityState EntityStoreFields).

Module EntityStore.

(** [this.entityActions.next(action)] *)
Definition entityActions_next (self : nat) (a : EntityAction) (w : EWorld) : EWorld :=
  match heap w !! self with
  | Some st =>
      let x := ext st in
      set_object self
        (set_ext (mkEntityStoreFields (idKey x) (preAddOverride x) (preUpdateOverride x)
                    (updatedEntityIds x) (entityActions x ++ [a])) st) w
  | None => w
  end.

(** [this.updatedEntityIds.next(ids)] *)
Definition updatedEntityIds_next (self : nat) (l : list ID) (w : EWorld) : EWorld :=
  match heap w !! self with
  | Some st =>
      let x := ext st in
      set_object self
        (set_ext (mkEntityStoreFields (idKey x) (preAddOverride x) (preUpdateOverride x)
                    (updatedEntityIds x ++ [l]) (entityActions x)) st) w
  | None => w
  end.

(** [updateCache()], without a configured ttl. *)
Definition updateCache (self : nat) (w : EWorld) : EWorld := setHasCache self true w.

(** [set(entities)] *)
Definition set (self : nat) (src : option SetEntities) (w : EWorld) : EWorld :=
  match src, heap w !! self with
  | Some src, Some st =>
      let x := ext st in
      let isNativePreAdd := bool_decide (preAddOverride x = None) in
      let w1 := _setState self
                  (fun state => setEntities state src (idKey x) (akitaPreAddEntity x)
                                  isNativePreAdd) w in
      let w2 := updateCache self w1 in
      match heap w2 !! self with
      | Some st2 => entityActions_next self (mkEntityAction ActSet (Some (ids (storeValue st2)))) w2
      | None => w2
      end
  | _, _ => w
  end.

(** [add(entities, options = { loading: false })] *)
Definition add (self : nat) (es : OneOrMany Entity) (options : option AddEntitiesOptions)
    (w : EWorld) : EWorld :=
  let options := default (mkAddEntitiesOptions VUndefined (VBool false)) options in
  let collection := coerceArray es in
  if isEmpty (Some collection) then w
  else
    match heap w !! self with
    | Some st =>
        let x := ext st in
        match addEntities (storeValue st) (akitaPreAddEntity x) collection (idKey x) options with
        | Some data =>
            let w1 := _setState self
                        (fun _ => set_loading (opt_loading options) (newState data)) w in
            entityActions_next self (mkEntityAction ActAdd (Some (newIds data))) w1
        | None => w
        end
    | None => w
    end.

(** The ids [update] resolves from its first argument. *)
Definition update_ids (s : EntityState) (idsOrFn : Target) : list ID :=
  match idsOrFn with
  | TFn predicate => List.filter (fun id => predicate (entities s !! propKey id)) (ids s)
  | TNil => ids s
  | TIds v => if Target_isNil idsOrFn then ids s else coerceArray v
  end.

(** [update(idsOrFn, newStateOrFn)] with [newStateOrFn] given: the entity
    path. *)
Definition update (self : nat) (idsOrFn : Target) (newStateOrFn : NewState)
    (w : EWorld) : EWorld :=
  match heap w !! self with
  | Some st =>
      let x := ext st in
      let l := update_ids (storeValue st) idsOrFn in
      if isEmpty (Some l) then w
      else
        let w1 := _setState self
                    (fun state => updateEntities (idKey x) l (akitaPreUpdateEntity x)
                                    state newStateOrFn) w in
        let w2 := updatedEntityIds_next self l w1 in
        entityActions_next self (mkEntityAction ActUpdate (Some l)) w2
  | None => w
  end.

(** [{ baseClass? }]: the constructor applied to a new entity. *)
Record UpsertOptions : Type := mkUpsertOptions {
  baseClass : option (Entity → Entity)
}.

(** The entities [upsert] builds for the ids that do not exist. *)
Definition upsert_newEntities (key : string) (es : gmap string Entity)
    (toArray : list ID) (newStateOrFn : NewState) (options : UpsertOptions) : list Entity :=
  map (fun id =>
         let entity := match newStateOrFn with
                       | Fn f => f ∅
                       | Patch p => p
                       end in
         let withId := <[key := id]> entity in
         match baseClass options with
         | Some construct => construct withId
         | None => withId
         end)
      (List.filter (fun id => bool_decide (hasEntity es id = false)) toArray).

(** The body of [upsert]. *)
Definition upsert_body (self : nat) (l : OneOrMany ID) (newStateOrFn : NewState)
    (options : UpsertOptions) (w : EWorld) : Result unit * EWorld :=
  match heap w !! self with
  | Some st =>
      let s := storeValue st in
      let toArray := coerceArray l in
      let updateIds := List.filter (fun id => bool_decide (hasEntity (entities s) id = true))
                         toArray in
      let newEntities := upsert_newEntities (idKey (ext st)) (entities s) toArray
                           newStateOrFn options in
      let w1 := update self (TIds (Many updateIds)) newStateOrFn w in
      let w2 := add self (Many newEntities) None w1 in
      (Ok tt, w2)
  | None => (Ok tt, w)
  end.

(** [@transaction() upsert(ids, newState, options = {})] *)
Definition upsert (self : nat) (l : OneOrMany ID) (newStateOrFn : NewState)
    (options : UpsertOptions) (w : EWorld) : Result unit * EWorld :=
  applyTransaction (upsert_body self l newStateOrFn options) w.

(** [{ baseClass?, loading? }] *)
Record UpsertManyOptions : Type := mkUpsertManyOptions {
  um_baseClass : option (Entity → Entity);
  um_loading : Value
}.

(** The accumulators of the loop of [upsertMany]. *)
Record UpsertManyAcc : Type := mkUpsertManyAcc {
  addedIds : list ID;
  updatedIds : list ID;
  updatedEntities : gmap string Entity
}.

Definition upsertMany_step (key : string) (current : gmap string Entity)
    (options : UpsertManyOptions) (acc : UpsertManyAcc) (entity : Entity) : UpsertManyAcc :=
  let id := getField key entity in
  if hasEntity current id then
    mkUpsertManyAcc (addedIds acc) (updatedIds acc ++ [id])
      (<[propKey id := spread (default ∅ (current !! propKey id)) entity]>
         (updatedEntities acc))
  else
    let newEntity := match um_baseClass options with
                     | Some construct => construct entity
                     | None => entity
                     end in
    mkUpsertManyAcc (addedIds acc ++ [id]) (updatedIds acc)
      (<[propKey id := newEntity]> (updatedEntities acc)).

(** [upsertMany(entities, options = {})] *)
Definition upsertMany (self : nat) (es : list Entity) (options : option UpsertManyOptions)
    (w : EWorld) : EWorld :=
  let options := default (mkUpsertManyOptions None VUndefined) options in
  match heap w !! self with
  | Some st =>
      let x := ext st in
      let acc := foldl (upsertMany_step (idKey x) (entities (storeValue st)) options)
                   (mkUpsertManyAcc [] [] ∅) es in
      let w1 := _setState self
                  (fun state =>
                     mkEntityState
                       (if isEmpty (Some (addedIds acc)) then ids state
                        else ids state ++ addedIds acc)
                       (updatedEntities acc ∪ entities state)
                       (active state)
                       (VBool (truthy (um_loading options)))
                       (error state)) w in
      let w2 := if isEmpty (Some (updatedIds acc)) then w1
                else entityActions_next self (mkEntityAction ActUpdate (Some (updatedIds acc)))
                       (updatedEntityIds_next self (updatedIds acc) w1) in
      if isEmpty (Some (addedIds acc)) then w2
      else entityActions_next self (mkEntityAction ActAdd (Some (addedIds acc))) w2
  | None => w
  end.

(** The ids [remove] resolves from its argument; [None] is [null], which
    means all. *)
Definition remove_ids (s : EntityState) (idsOrFn : Target) : option (list ID) :=
  match idsOrFn with
  | TFn predicate =>
      Some (List.filter (fun entityId => predicate (entities s !! propKey entityId)) (ids s))
  | TIds v => if isDefined idsOrFn then Some (coerceArray v) else None
  | TNil => None
  end.

(** [remove(idsOrFn?)] *)
Definition remove (self : nat) (idsOrFn : Target) (w : EWorld) : EWorld :=
  match heap w !! self with
  | Some st =>
      let s := storeValue st in
      if isEmpty (Some (ids s)) then w
      else
        let l := remove_ids s idsOrFn in
        if isEmpty l then w
        else
          let w1 := _setState self (fun state => removeEntities state l) w in
          let w2 := match l with
                    | None => setHasCache self false w1
                    | Some _ => w1
                    end in
          entityActions_next self (mkEntityAction ActRemove l) w2
  | None => w
  end.

End EntityStore.

(** The configuration of an entity store: its id key and its hooks. *)
Definition same_config (x x' : EntityStoreFields) : Prop :=
  idKey x' = idKey x ∧ preAddOverride x' = preAddOverride x ∧
  preUpdateOverride x' = preUpdateOverride x.

(** In [w'] the object [self], which was [st], has the state [v] and the
    cache flag [c], and is configured as before. *)
Definition object_is (self : nat) (w' : EWorld) (st : EStore) (v : EntityState)
    (c : bool) : Prop :=
  ∃ st', heap w' !! self = Some st' ∧ storeValue st' = v ∧ cache_active st' = c ∧
         same_config (ext st) (ext st').

(** *** The state each method leaves in its store: the reducer it gives to
    [_setState], guarded as the method guards it. *)

Definition set_value (x : EntityStoreFields) (v : EntityState) (src : option SetEntities)
    : EntityState :=
  match src with
  | Some src =>
      setEntities v src (idKey x) (akitaPreAddEntity x) (bool_decide (preAddOverride x = None))
  | None => v
  end.

Definition add_value (x : EntityStoreFields) (v : EntityState) (es : OneOrMany Entity)
    (options : option AddEntitiesOptions) : EntityState :=
  let opts := default (mkAddEntitiesOptions VUndefined (VBool false)) options in
  let collection := coerceArray es in
  if isEmpty (Some collection) then v
  else
    match addEntities v (akitaPreAddEntity x) collection (idKey x) opts with
    | Some data => set_loading (opt_loading opts) (newState data)
    | None => v
    end.

Definition update_value (x : EntityStoreFields) (v : EntityState) (idsOrFn : Target)
    (newStateOrFn : NewState) : EntityState :=
  let l := EntityStore.update_ids v idsOrFn in
  if isEmpty (Some l) then v
  else updateEntities (idKey x) l (akitaPreUpdateEntity x) v newStateOrFn.

Definition upsert_value (x : EntityStoreFields) (v : EntityState) (l : OneOrMany ID)
    (newStateOrFn : NewState) (options : EntityStore.UpsertOptions) : EntityState :=
  let toArray := coerceArray l in
  let updateIds := List.filter (fun id => bool_decide (hasEntity (entities v) id = true))
                     toArray in
  let newEntities := EntityStore.upsert_newEntities (idKey x) (entities v) toArray
                       newStateOrFn options in
  add_value x (update_value x v (TIds (Many updateIds)) newStateOrFn)
    (Many newEntities) None.

Definition upsertMany_value (x : EntityStoreFields) (v : EntityState) (es : list Entity)
    (options : option EntityStore.UpsertManyOptions) : EntityState :=
  let opts := default (EntityStore.mkUpsertManyOptions None VUndefined) options in
  let acc := foldl (EntityStore.upsertMany_step (idKey x) (entities v) opts)
               (EntityStore.mkUpsertManyAcc [] [] ∅) es in
  mkEntityState
    (if isEmpty (Some (EntityStore.addedIds acc)) then ids v
     else ids v ++ EntityStore.addedIds acc)
    (EntityStore.updatedEntities acc ∪ entities v)
    (active v)
    (VBool (truthy (EntityStore.um_loading opts)))
    (error v).

(** ** plugins/entityCollectionPlugin.ts *)

(** What a reconciliation does, in order: the callbacks of [RebaseActions]
    it calls, the satellites it instantiates and the calls of [destroy]. *)
Inductive PluginEvent : Type :=
  | EvBeforeAdd (id : ID)
  | EvInstantiate (id : ID)
  | EvAfterAdd (id : ID)
  | EvBeforeRemove (id : ID)
  | EvDestroy (id : ID).

(** [RebaseActions]: which of the callbacks are functions. *)
Record RebaseActions : Type := mkRebaseActions {
  beforeRemove : bool;
  beforeAdd : bool;
  afterAdd : bool
}.

(** [actions = {}] *)
Definition noActions : RebaseActions := mkRebaseActions false false false.

(** The plugin object: the [Map] of satellites in insertion order, the
    [entityIds] given to the constructor ([None]: [undefined], all ids) and
    the events so far. *)
Record EntityCollectionPlugin (P : Type) : Type := mkPlugin {
  plugin_entities : list (ID * P);
  entityIds : option (OneOrMany ID);
  plugin_events : list PluginEvent
}.
Arguments mkPlugin {P} _ _ _.
Arguments plugin_entities {P} _.
Arguments entityIds {P} _.
Arguments plugin_events {P} _.

Section EntityCollectionPlugin.
Context {P : Type}.

(** [toBoolean] (toBoolean.ts) applied to an array; [toBoolean(undefined)]
    is false. *)
Variable toBoolean : list ID → bool.

(** [instantiatePlugin(id)], supplied by the concrete plugin. *)
Variable instantiatePlugin : ID → P.

Abbreviation Plugin := (EntityCollectionPlugin P).

(** [Map.prototype.get] *)
Definition Map_get (id : ID) (m : list (ID * P)) : option P :=
  snd <$> List.find (fun kv => bool_decide (kv.1 = id)) m.

(** [Map.prototype.has] *)
Definition Map_has (id : ID) (m : list (ID * P)) : bool :=
  bool_decide (id ∈ map fst m).

(** [Map.prototype.set]: an existing key keeps its place. *)
Definition Map_set (id : ID) (v : P) (m : list (ID * P)) : list (ID * P) :=
  if Map_has id m
  then map (fun kv => if bool_decide (kv.1 = id) then (id, v) else kv) m
  else m ++ [(id, v)].

(** [Map.prototype.delete] *)
Definition Map_delete (id : ID) (m : list (ID * P)) : list (ID * P) :=
  List.filter (fun kv => negb (bool_decide (kv.1 = id))) m.

Definition set_entities (m : list (ID * P)) (p : Plugin) : Plugin :=
  mkPlugin m (entityIds p) (plugin_events p).

Definition emit (e : PluginEvent) (p : Plugin) : Plugin :=
  mkPlugin (plugin_entities p) (entityIds p) (plugin_events p ++ [e]).

(** [getEntity(id)] *)
Definition getEntity (id : ID) (p : Plugin) : option P := Map_get id (plugin_entities p).

(** [hasEntity(id)] *)
Definition plugin_hasEntity (id : ID) (p : Plugin) : bool := Map_has id (plugin_entities p).

(** [destroy(id)] is abstract; [EntityStateHistoryPlugin.destroy] calls the
    [destroy] of the satellite and leaves the mapping alone. *)
Definition destroy (id : ID) (p : Plugin) : Plugin := emit (EvDestroy id) p.

(** [removeEntity(id)] *)
Definition removeEntity (id : ID) (p : Plugin) : Plugin :=
  let p1 := destroy id p in
  set_entities (Map_delete id (plugin_entities p1)) p1.

(** [createEntity(id, plugin)] *)
Definition createEntity (id : ID) (plugin : P) (p : Plugin) : Plugin :=
  set_entities (Map_set id plugin (plugin_entities p)) p.

(** [getIds()]; [queryIds] is [this.query.getValue().ids]. *)
Definition getIds (queryIds : list ID) (p : Plugin) : list ID :=
  match entityIds p with
  | None => queryIds
  | Some v => coerceArray v
  end.

(** [resolvedIds(ids?)] *)
Definition resolvedIds (l : option (OneOrMany ID)) (queryIds : list ID) (p : Plugin) : list ID :=
  match l with
  | None => getIds queryIds p
  | Some v => coerceArray v
  end.

(** The body of the two [if (... this.hasEntity(entityId) === false)]
    branches of [rebase]. *)
Definition rebase_add (actions : RebaseActions) (entityId : ID) (p : Plugin) : Plugin :=
  let p1 := if beforeAdd actions then emit (EvBeforeAdd entityId) p else p in
  let plugin := instantiatePlugin entityId in
  let p2 := set_entities (Map_set entityId plugin (plugin_entities p1))
              (emit (EvInstantiate entityId) p1) in
  if afterAdd actions then emit (EvAfterAdd entityId) p2 else p2.

(** The body of the callbacks [rebase] gives to [this.entities.forEach];
    each call deletes at most the entry it is called on. *)
Definition rebase_remove (actions : RebaseActions) (entityId : ID) (p : Plugin) : Plugin :=
  let p1 := if beforeRemove actions then emit (EvBeforeRemove entityId) p else p in
  removeEntity entityId p1.

(** [this.entities.forEach(cb)] *)
Definition forEach (cb : ID → Plugin → Plugin) (p : Plugin) : Plugin :=
  foldl (fun p' kv => if plugin_hasEntity kv.1 p' then cb kv.1 p' else p') p (plugin_entities p).

(** The [else] branch of [rebase]: seed. *)
Definition rebase_seed (queryIds : list ID) (p : Plugin) : Plugin :=
  foldl (fun p' id =>
           if plugin_hasEntity id p' then p'
           else createEntity id (instantiatePlugin id) (emit (EvInstantiate id) p'))
        p (getIds queryIds p).

(** [rebase(ids, actions = {})] *)
Definition rebase (l : option (list ID)) (actions : RebaseActions) (queryIds : list ID)
    (p : Plugin) : Plugin :=
  match l with
  | Some l =>
      if toBoolean l then
        match entityIds p with
        | None =>
            let p1 := foldl (fun p' entityId =>
                               if bool_decide (plugin_hasEntity entityId p' = false)
                               then rebase_add actions entityId p' else p') p l in
            forEach (fun entityId p' =>
                       if negb (includes l entityId) then rebase_remove actions entityId p'
                       else p') p1
        | Some v =>
            foldl (fun p' entityId =>
                     if includes l entityId && bool_decide (plugin_hasEntity entityId p' = false)
                     then rebase_add actions entityId p'
                     else
                       forEach (fun entityId' p'' =>
                                  if negb (includes l entityId')
                                     && bool_decide (plugin_hasEntity entityId' p'' = true)
                                  then rebase_remove actions entityId' p'' else p'') p')
                  p (coerceArray v)
        end
      else rebase_seed queryIds p
  | None => rebase_seed queryIds p
  end.

(** [activate(ids?)] *)
Definition activate (l : option (list ID)) (queryIds : list ID) (p : Plugin) : Plugin :=
  rebase l noActions queryIds p.

(** [forEachId(ids, cb)]: the satellites [cb] is called on, in order. *)
Definition forEachId (l : option (OneOrMany ID)) (queryIds : list ID) (p : Plugin) : list P :=
  omap (fun id => if plugin_hasEntity id p then getEntity id p else None)
       (resolvedIds l queryIds p).

(** The constructor of [EntityStateHistoryPlugin]: [super(query,
    params.entityIds); this.activate()]. *)
Definition EntityStateHistoryPlugin_new (params_entityIds : option (OneOrMany ID))
    (queryIds : list ID) : Plugin :=
  activate None queryIds (mkPlugin [] params_entityIds []).

(** The subscription of the constructor: each later value [l] of
    [state.ids] calls [this.activate(l)]. *)
Definition on_ids (p : Plugin) (l : list ID) : Plugin := activate (Some l) l p.

End EntityCollectionPlugin.

(** ** plugins/stateHistory *)

(** Modelled from the spec: the satellite [StateHistoryPlugin]
    (stateHistoryPlugin.ts): "[past] (bounded sequence, most-recent last),
    [present] (current snapshot), [future]"; "[hasPast] = [past]
    non-empty", "[hasFuture] = [future] non-empty". *)
Record StateHistoryPlugin : Type := mkStateHistoryPlugin {
  past : list Entity;
  present : option Entity;
  future : list Entity
}.

Definition hasPast (s : StateHistoryPlugin) : bool := negb (bool_decide (past s = [])).
Definition hasFuture (s : StateHistoryPlugin) : bool := negb (bool_decide (future s = [])).

Module EntityStateHistoryPlugin.

(** [hasPast(id)]: a method without a [return] on a path returns
    [undefined]. *)
Definition hasPast (id : ID) (p : EntityCollectionPlugin StateHistoryPlugin) : Value :=
  if plugin_hasEntity id p then
    match getEntity id p with
    | Some s => VBool (hasPast s)
    | None => VUndefined
    end
  else VUndefined.

(** [hasFuture(id)] *)
Definition hasFuture (id : ID) (p : EntityCollectionPlugin StateHistoryPlugin) : Value :=
  if plugin_hasEntity id p then
    match getEntity id p with
    | Some s => VBool (hasFuture s)
    | None => VUndefined
    end
  else VUndefined.

End EntityStateHistoryPlugin.

(** The keys of the [Map] of satellites. *)
Definition plugin_keys {P : Type} (p : EntityCollectionPlugin P) : list ID :=
  map fst (plugin_entities p).

(** A [changedIds] that sends [rebase] to its [else] branch: [undefined],
    or an array [toBoolean] rejects. *)
Definition falsy (toBoolean : list ID → bool) (l : option (list ID)) : bool :=
  match l with
  | None => true
  | Some l' => negb (toBoolean l')
  end.

(** Modelled from the spec: [toBoolean] (toBoolean.ts) on arrays, "an
    empty/falsy value" is rejected. *)
Definition toBoolean_spec (l : list ID) : bool := negb (bool_decide (l = [])).

(** ** The plugin and its collection *)

(** The operations on the collection a plugin follows. *)
Inductive CollectionOp : Type :=
  | OpSet (src : option SetEntities)
  | OpAdd (es : OneOrMany Entity) (options : option AddEntitiesOptions)
  | OpRemove (idsOrFn : Target).

Definition run_op (self : nat) (op : CollectionOp) (w : EWorld) : EWorld :=
  match op with
  | OpSet src => EntityStore.set self src w
  | OpAdd es options => EntityStore.add self es options w
  | OpRemove idsOrFn => EntityStore.remove self idsOrFn w
  end.

Definition run_ops (self : nat) (ops : list CollectionOp) (w : EWorld) : EWorld :=
  foldl (fun w' op => run_op self op w') w ops.

(** [selectIds().pipe(skip(1))]: of the id lists the store emits, the
    subscriber of the constructor receives those [distinctUntilChanged]
    lets through.  [distinctUntilChanged] compares arrays by reference: an
    emitted array that is dropped is the array seen last, and an array
    with other contents is always delivered.  [delivered seen emitted ds]
    holds when [ds] can be what the subscriber receives of [emitted],
    [seen] being the array [distinctUntilChanged] saw last. *)
Inductive delivered : list ID → list (list ID) → list (list ID) → Prop :=
  | delivered_nil seen : delivered seen [] []
  | delivered_next seen l emitted ds :
      delivered l emitted ds → delivered seen (l :: emitted) (l :: ds)
  | delivered_same seen emitted ds :
      delivered seen emitted ds → delivered seen (seen :: emitted) ds.

(** ** Sample objects *)

Definition sample_entity : Entity := {[ "id" := VNum 1; "title" := VStr "a" ]}.

Definition sample_state : EntityState :=
  mkEntityState [VNum 1] {[ "1" := sample_entity ]} (ActiveOne (VNum 1)) (VBool true) VNull.

Definition sample_store : EStore :=
  mkStore sample_state (Some (mkBehaviorSubject sample_state [])) false true
    (mkEntityStoreFields DEFAULT_ID_KEY None None [] []).

Definition sample_world : EWorld :=
  mkWorld (mkTransactionManager 0 None) false 0%nat [sample_store].

(** ** Well-formed worlds *)

Section Invariants.
Context {State X : Type}.

(** No transaction is in process and no store waits for one. *)
Definition quiescent (w : World State X) : bool :=
  (depth w =? 0) && forallb (fun st => negb (inTransaction st)) (heap w).

(** A transaction is in process: the batch subject is open and its
    observers are the stores that wait for it, each once. *)
Definition batch_open (w : World State X) : Prop :=
  0 < depth w ∧
  ∃ sub, batch w = Some sub ∧ isStopped sub = false ∧ NoDup (observers sub) ∧
         ∀ i, i ∈ observers sub ↔ ∃ st, heap w !! i = Some st ∧ inTransaction st = true.

(** What a store object keeps while a transaction is in process: its
    subject (nothing is emitted), its cache flag and subclass fields, and
    its place among the waiting stores. *)
Definition deferred (st st' : Store State X) : Prop :=
  (∀ b, store st = Some b → store st' = Some b) ∧
  (inTransaction st = true → inTransaction st' = true) ∧
  cache_active st' = cache_active st ∧ ext st' = ext st.

(** What the callback of [watchTransaction] makes of a waiting store. *)
Definition released (st : Store State X) : Store State X :=
  mkStore (storeValue st) (bs_next (storeValue st) <$> store st) false
          (cache_active st) (ext st).

(** A store object whose state, cache flag and subclass fields are the
    same. *)
Definition untouched (st st' : Store State X) : Prop :=
  storeValue st' = storeValue st ∧ cache_active st' = cache_active st ∧ ext st' = ext st.

(** Every object of [w] is still there in [w'], untouched. *)
Definition same_objects (w w' : World State X) : Prop :=
  ∀ i st, heap w !! i = Some st → ∃ st', heap w' !! i = Some st' ∧ untouched st st'.

(** No transaction is in process and the subject of the constructed
    store [self] holds the state [v] of the store, having emitted [log]. *)
Definition synced (self : nat) (w : World State X) (v : State) (log : list State) : Prop :=
  depth w = 0 ∧
  ∃ st, heap w !! self = Some st ∧ storeValue st = v ∧
        store st = Some (mkBehaviorSubject v log).

End Invariants.

(** ** More of [Store] and [EntityStore] *)

(** [{ ...state, active }] *)
Definition set_active (a : Active) (s : EntityState) : EntityState :=
  mkEntityState (ids s) (entities s) a (loading s) (error s).

(** [{ ...state, error }] *)
Definition set_error (v : Value) (s : EntityState) : EntityState :=
  mkEntityState (ids s) (entities s) (active s) (loading s) v.

(** [Store.setLoading(loading = false)], on a store whose state has the
    field [loading]: the state is written only when the value differs. *)
Definition setLoading (self : nat) (arg : Value) (w : EWorld) : EWorld :=
  let l := match arg with
           | VUndefined => VBool false
           | _ => arg
           end in
  match heap w !! self with
  | Some st =>
      if bool_decide (l ≠ loading (storeValue st))
      then _setState self (fun state => set_loading l state) w
      else w
  | None => w
  end.

(** [Store.setError(error)] *)
Definition setError (self : nat) (err : Value) (w : EWorld) : EWorld :=
  match heap w !! self with
  | Some st =>
      if bool_decide (err ≠ error (storeValue st))
      then _setState self (fun state => set_error err state) w
      else w
  | None => w
  end.

(** [Array.from(new Set(arr))]: the first occurrence of each value, in
    order. *)
Definition uniques (arr : list ID) : list ID :=
  foldl (fun acc x => if includes acc x then acc else acc ++ [x]) [] arr.

(** [s.indexOf(x) > -1] and [s.includes(x)] on a string: [x] is converted
    to a string and searched for. *)
Definition string_has (s : string) (x : Value) : bool :=
  bool_decide (is_Some (String.index 0 (propKey x) s)).

(** [[...s]] on a string of ASCII characters. *)
Definition string_chars (s : string) : list Value :=
  map (fun c => VStr (String c EmptyString)) (String.list_ascii_of_string s).

(** [this.active.indexOf(id) > -1] and [this.active.includes(id)].  An
    array and a string have the two methods; [null], [undefined], a number
    and a boolean do not, and the call raises a TypeError. *)
Definition active_has (a : Active) (id : ID) : Result bool :=
  match a with
  | ActiveMany l => Ok (includes l id)
  | ActiveOne (VStr s) => Ok (string_has s id)
  | ActiveOne _ => Err TypeError
  end.

(** [[...state.active]] *)
Definition active_spread (a : Active) : Result (list ID) :=
  match a with
  | ActiveMany l => Ok l
  | ActiveOne (VStr s) => Ok (string_chars s)
  | ActiveOne _ => Err TypeError
  end.

(** [state.active.filter(cb)]: only an array has [filter]. *)
Definition active_filter (cb : ID → bool) (a : Active) : Result (list ID) :=
  match a with
  | ActiveMany l => Ok (List.filter cb l)
  | ActiveOne _ => Err TypeError
  end.

(** [arr.every(cb)] with a callback that may throw. *)
Fixpoint every_r (cb : ID → Result bool) (arr : list ID) : Result bool :=
  match arr with
  | [] => Ok true
  | x :: arr' =>
      match cb x with
      | Err e => Err e
      | Ok false => Ok false
      | Ok true => every_r cb arr'
      end
  end.

(** [arr.some(cb)] with a callback that may throw. *)
Fixpoint some_r (cb : ID → Result bool) (arr : list ID) : Result bool :=
  match arr with
  | [] => Ok false
  | x :: arr' =>
      match cb x with
      | Err e => Err e
      | Ok true => Ok true
      | Ok false => some_r cb arr'
      end
  end.

(** [arr.filter(cb)] with a callback that may throw. *)
Fixpoint filter_r (cb : ID → Result bool) (arr : list ID) : Result (list ID) :=
  match arr with
  | [] => Ok []
  | x :: arr' =>
      match cb x with
      | Err e => Err e
      | Ok keep =>
          match filter_r cb arr' with
          | Err e => Err e
          | Ok rest => Ok (if keep then x :: rest else rest)
          end
      end
  end.

Module EntityStoreActive.

(** [updateActive(newStateOrCallback)] *)
Definition updateActive (self : nat) (newStateOrFn : NewState) (w : EWorld) : EWorld :=
  match heap w !! self with
  | Some st =>
      let l := match active (storeValue st) with
               | ActiveOne v => coerceArray (One v)
               | ActiveMany l => coerceArray (Many l)
               end in
      EntityStore.update self (TIds (Many l)) newStateOrFn w
  | None => w
  end.

(** [addActive(ids)].  An exception of the reducer is raised before the
    state is assigned. *)
Definition addActive (self : nat) (l : OneOrMany ID) (w : EWorld) : Result unit * EWorld :=
  let toArray := coerceArray l in
  if isEmpty (Some toArray) then (Ok tt, w)
  else
    match heap w !! self with
    | Some st =>
        match every_r (active_has (active (storeValue st))) toArray with
        | Err e => (Err e, w)
        | Ok true => (Ok tt, w)
        | Ok false =>
            match active_spread (active (storeValue st)) with
            | Err e => (Err e, w)
            | Ok _ =>
                (Ok tt,
                 _setState self
                   (fun state =>
                      match active_spread (active state) with
                      | Ok elems => set_active (ActiveMany (uniques (elems ++ toArray))) state
                      | Err _ => state
                      end) w)
            end
        end
    | None => (Ok tt, w)
    end.

(** [removeActive(ids)] *)
Definition removeActive (self : nat) (l : OneOrMany ID) (w : EWorld) : Result unit * EWorld :=
  let toArray := coerceArray l in
  if isEmpty (Some toArray) then (Ok tt, w)
  else
    match heap w !! self with
    | Some st =>
        match some_r (active_has (active (storeValue st))) toArray with
        | Err e => (Err e, w)
        | Ok false => (Ok tt, w)
        | Ok true =>
            let keep := fun currentId => negb (includes toArray currentId) in
            match active_filter keep (active (storeValue st)) with
            | Err e => (Err e, w)
            | Ok _ =>
                (Ok tt,
                 _setState self
                   (fun state =>
                      match active_filter keep (active state) with
                      | Ok rest => set_active (ActiveMany rest) state
                      | Err _ => state
                      end) w)
            end
        end
    | None => (Ok tt, w)
    end.

(** The body of [toggleActive]. *)
Definition toggleActive_body (self : nat) (l : OneOrMany ID) (w : EWorld)
    : Result unit * EWorld :=
  match heap w !! self with
  | Some st =>
      let toArray := coerceArray l in
      let a := active (storeValue st) in
      match filter_r (active_has a) toArray with
      | Err e => (Err e, w)
      | Ok remove =>
          match filter_r (fun id => match active_has a id with
                                    | Ok b => Ok (negb b)
                                    | Err e => Err e
                                    end) toArray with
          | Err e => (Err e, w)
          | Ok add =>
              match removeActive self (Many remove) w with
              | (Err e, w1) => (Err e, w1)
              | (Ok _, w1) => addActive self (Many add) w1
              end
          end
      end
  | None => (Ok tt, w)
  end.

(** [@transaction() toggleActive(ids)] *)
Definition toggleActive (self : nat) (l : OneOrMany ID) (w : EWorld) : Result unit * EWorld :=
  applyTransaction (toggleActive_body self l) w.

End EntityStoreActive.

(** *** The [active] each method leaves on a store with an array of
    active ids *)

Definition addActive_value (a : list ID) (toArray : list ID) : list ID :=
  if forallb (includes a) toArray then a else uniques (a ++ toArray).

Definition removeActive_value (a : list ID) (toArray : list ID) : list ID :=
  if existsb (includes a) toArray
  then List.filter (fun currentId => negb (includes toArray currentId)) a
  else a.

Definition toggleActive_value (a : list ID) (toArray : list ID) : list ID :=
  addActive_value
    (removeActive_value a (List.filter (includes a) toArray))
    (List.filter (fun id => negb (includes a id)) toArray).

(** ** Tracking a store inside and outside a transaction *)

(** The outermost transaction is in process; the object [self], which was
    [st], has the state [v], its subject [b] has emitted nothing more, it
    waits for the batch when [t] holds, and while it does not its state is
    still the one of the subject. *)
Definition in_batch (self : nat) (w : EWorld) (st : EStore) (v : EntityState)
    (b : BehaviorSubject EntityState) (t : bool) : Prop :=
  batch_open w ∧ depth w = 1 ∧
  ∃ st', heap w !! self = Some st' ∧ storeValue st' = v ∧ store st' = Some b ∧
         inTransaction st' = t ∧ same_config (ext st) (ext st') ∧
         (t = false → v = bs_value b).

(** Whether [update] writes the state. *)
Definition update_writes (v : EntityState) (idsOrFn : Target) : bool :=
  negb (isEmpty (Some (EntityStore.update_ids v idsOrFn))).

(** Whether [add] writes the state. *)
Definition add_writes (x : EntityStoreFields) (v : EntityState) (es : OneOrMany Entity)
    (options : option AddEntitiesOptions) : bool :=
  negb (isEmpty (Some (coerceArray es))) &&
  bool_decide (is_Some (addEntities v (akitaPreAddEntity x) (coerceArray es) (idKey x)
                          (default (mkAddEntitiesOptions VUndefined (VBool false)) options))).

(** The ids of [l] that have an entity in [es], and those that have none. *)
Definition existing_ids (es : gmap string Entity) (l : list ID) : list ID :=
  List.filter (fun id => hasEntity es id) l.

Definition missing_ids (es : gmap string Entity) (l : list ID) : list ID :=
  List.filter (fun id => negb (hasEntity es id)) l.


(** ** More sample objects *)

(** Two stores of numbers, outside any transaction. *)
Definition sample_counters : World nat unit :=
  mkWorld (mkTransactionManager 0 None) false 0%nat
    [mkStore 5%nat (Some (mkBehaviorSubject 5%nat [])) false false tt;
     mkStore 7%nat (Some (mkBehaviorSubject 7%nat [])) false false tt].

(** A collection with an array of active ids. *)
Definition sample_active_state : EntityState :=
  mkEntityState [VNum 1; VNum 2; VNum 3] {[ "1" := sample_entity ]}
    (ActiveMany [VNum 1; VNum 2]) (VBool false) VNull.

Definition sample_active_store : EStore :=
  mkStore sample_active_state (Some (mkBehaviorSubject sample_active_state [])) false true
    (mkEntityStoreFields DEFAULT_ID_KEY None None [] []).

Definition sample_active_world : EWorld :=
  mkWorld (mkTransactionManager 0 None) false 0%nat [sample_active_store].

(** * Theorems *)

Section TransactionFacts.
Context {State X : Type}.
Implicit Types (w : World State X) (st : Store State X) (c : @Program State).

Lemma setState_batch w i f st b sub :
  0 < depth w → batch w = Some sub → isStopped sub = false →
  heap w !! i = Some st → store st = Some b →
  _setState i f w =
    mkWorld
      (mkTransactionManager (depth w)
         (Some (mkSubject (if inTransaction st then observers sub else observers sub ++ [i])
                  false)))
      (transactionInProcess w) (transactionFinished w)
      (<[i := mkStore (f (storeValue st)) (Some b) true (cache_active st) (ext st)]> (heap w)).
Proof.
  intros Hd Hb Hs Hi Hst.
  pose proof (lookup_lt_Some _ _ _ Hi) as Hlt.
  destruct w as [[n bt] tip tf h]. unfold depth, batch in *. simpl in *. subst bt.
  unfold _setState. simpl. rewrite Hi, Hst.
  unfold isTransactionInProcess, depth. simpl.
  destruct (Z.ltb_spec 0 n) as [_|?]; [|lia].
  unfold handleTransaction. simpl.
  rewrite list_lookup_insert_eq by done. simpl.
  destruct (inTransaction st) eqn:Hin.
  - unfold set_object, set_heap. simpl. destruct sub as [obs stp]. simpl in *. subst stp.
    do 2 f_equal. unfold set_storeValue. destruct st; simpl in *. by subst.
  - unfold watchTransaction, commit. simpl. rewrite Hs. simpl.
    rewrite list_lookup_insert_eq by done.
    unfold set_object, set_heap. simpl. rewrite list_insert_insert_eq.
    do 2 f_equal. unfold set_inTransaction, set_storeValue. simpl. by rewrite Hst.
Qed.

Lemma setState_unconstructed w i f st :
  heap w !! i = Some st → store st = None →
  _setState i f w =
    set_object i (mkStore (f (storeValue st))
                    (Some (mkBehaviorSubject (f (storeValue st)) []))
                    (inTransaction st) (cache_active st) (ext st)) w.
Proof. intros Hi Hst. unfold _setState. by rewrite Hi, Hst. Qed.

Lemma setState_missing w i f : heap w !! i = None → _setState i f w = w.
Proof. intros Hi. unfold _setState. by rewrite Hi. Qed.

Lemma deferred_refl st : deferred st st.
Proof. by repeat split. Qed.

Lemma deferred_trans st1 st2 st3 : deferred st1 st2 → deferred st2 st3 → deferred st1 st3.
Proof.
  intros (A1 & B1 & C1 & D1) (A2 & B2 & C2 & D2).
  repeat split; [auto | auto | congruence | congruence].
Qed.

(** While a transaction is in process, [_setState] emits nothing and
    keeps the batch subject consistent with the waiting stores. *)
Lemma setState_batch_open w i f :
  batch_open w →
  batch_open (_setState i f w) ∧ depth (_setState i f w) = depth w ∧
  ∀ j st, heap w !! j = Some st →
    ∃ st', heap (_setState i f w) !! j = Some st' ∧ deferred st st'.
Proof.
  intros (Hd & sub & Hb & Hs & Hnd & Hobs).
  destruct (heap w !! i) as [st|] eqn:Hi.
  2:{ rewrite setState_missing by done. split; [|split; [done|]].
      - split; [done|]. by exists sub.
      - intros j st' Hj. exists st'. split; [done|apply deferred_refl]. }
  pose proof (lookup_lt_Some _ _ _ Hi) as Hlt.
  destruct (store st) as [b|] eqn:Hst.
  - rewrite (setState_batch w i f st b sub) by done.
    split; [|split; [done|]].
    + split; [done|]. eexists. split; [reflexivity|]. simpl. split; [done|].
      split.
      * destruct (inTransaction st) eqn:Hin; [done|].
        apply NoDup_app. split; [done|]. split; [|apply NoDup_singleton].
        intros x Hx ->%list_elem_of_singleton.
        apply Hobs in Hx as (st0 & Hst0 & Hin0). congruence.
      * intros k. destruct (decide (k = i)) as [->|Hne].
        -- rewrite list_lookup_insert_eq by done. split.
           ++ intros _. eexists. split; [reflexivity|done].
           ++ intros _. destruct (inTransaction st) eqn:Hin.
              ** apply Hobs. eauto.
              ** apply elem_of_app. right. by apply list_elem_of_singleton.
        -- rewrite list_lookup_insert_ne by done. rewrite <- Hobs.
           destruct (inTransaction st); [done|].
           rewrite elem_of_app, list_elem_of_singleton. naive_solver.
    + intros j st0 Hj. simpl. destruct (decide (j = i)) as [->|Hne].
      * rewrite list_lookup_insert_eq by done. eexists. split; [reflexivity|].
        assert (st0 = st) as -> by congruence.
        repeat split; simpl; [congruence|done..].
      * rewrite list_lookup_insert_ne by done. exists st0. split; [done|apply deferred_refl].
  - rewrite (setState_unconstructed w i f st) by done.
    split; [|split; [done|]].
    + split; [done|]. exists sub. split; [done|]. split; [done|]. split; [done|].
      intros k. rewrite Hobs. simpl. destruct (decide (k = i)) as [->|Hne].
      * rewrite list_lookup_insert_eq by done. rewrite Hi. naive_solver.
      * by rewrite list_lookup_insert_ne.
    + intros j st0 Hj. simpl. destruct (decide (j = i)) as [->|Hne].
      * rewrite list_lookup_insert_eq by done. eexists. split; [reflexivity|].
        assert (st0 = st) as -> by congruence.
        repeat split; simpl; [congruence|done..].
      * rewrite list_lookup_insert_ne by done. exists st0. split; [done|apply deferred_refl].
Qed.

Lemma startBatch_batch_open w :
  batch_open w →
  batch_open (startBatch w) ∧ depth (startBatch w) = depth w + 1 ∧
  heap (startBatch w) = heap w.
Proof.
  intros (Hd & sub & Hb & Hs & Hnd & Hobs).
  unfold startBatch, isTransactionInProcess.
  destruct (Z.ltb_spec 0 (depth w)) as [_|?]; [|lia].
  split; [|done]. split; [unfold depth in *; simpl; lia|].
  exists sub. repeat (split; [done|]). exact Hobs.
Qed.

(** The [endBatch] of a nested transaction only decrements the counter. *)
Lemma endBatch_nested w :
  depth w ≠ 1 →
  endBatch w =
    (Ok tt, set_manager (mkTransactionManager (depth w - 1) (batch w)) w).
Proof.
  intros Hd. unfold endBatch.
  destruct (Z.eqb_spec (activeTransactions (transactionManager w) - 1) 0) as [E|_]; [|done].
  unfold depth in Hd. lia.
Qed.

(** A program run while a transaction is in process emits nothing: every
    store keeps its subject, the counter is balanced, and the batch subject
    stays consistent. *)
Lemma exec_batch_open c : ∀ w r w',
  batch_open w → exec c w = (r, w') →
  batch_open w' ∧ depth w' = depth w ∧
  ∀ j st, heap w !! j = Some st → ∃ st', heap w' !! j = Some st' ∧ deferred st st'.
Proof.
  induction c as [|c1 IH1 c2 IH2|i f|body IH|e|body IHb handler IHh];
    intros w r w' Hw Hex; simpl in Hex.
  - injection Hex as <- <-. split; [done|]. split; [done|].
    intros j st Hj. exists st. split; [done|apply deferred_refl].
  - destruct (exec c1 w) as [[u|e] w1] eqn:E1.
    + destruct (IH1 _ _ _ Hw E1) as (Hw1 & Hd1 & Hh1).
      destruct (IH2 _ _ _ Hw1 Hex) as (Hw2 & Hd2 & Hh2).
      split; [done|]. split; [congruence|].
      intros j st Hj. destruct (Hh1 _ _ Hj) as (st1 & Hj1 & D1).
      destruct (Hh2 _ _ Hj1) as (st2 & Hj2 & D2).
      exists st2. split; [done|]. by eapply deferred_trans.
    + injection Hex as <- <-. by apply (IH1 _ _ _ Hw E1).
  - injection Hex as <- <-. by apply setState_batch_open.
  - unfold applyTransaction in Hex.
    destruct (startBatch_batch_open w Hw) as (Hw1 & Hd1 & Hh1).
    destruct (exec body (startBatch w)) as [r2 w2] eqn:E2.
    destruct (IH _ _ _ Hw1 E2) as (Hw2 & Hd2 & Hh2).
    rewrite endBatch_nested in Hex by (destruct Hw as [? _]; lia).
    injection Hex as <- <-.
    split; [|split].
    + destruct Hw as [Hd _]. destruct Hw2 as (_ & sub & Hb & Hs & Hnd & Hobs).
      split; [unfold depth in *; simpl; lia|].
      exists sub. repeat (split; [done|]). exact Hobs.
    + unfold depth in *. simpl. lia.
    + intros j st Hj. rewrite <- Hh1 in Hj. by apply Hh2.
  - injection Hex as <- <-. split; [done|]. split; [done|].
    intros j st Hj. exists st. split; [done|apply deferred_refl].
  - destruct (exec body w) as [[u|e] w1] eqn:E1.
    + injection Hex as <- <-. by apply (IHb _ _ _ Hw E1).
    + destruct (IHb _ _ _ Hw E1) as (Hw1 & Hd1 & Hh1).
      destruct (IHh _ _ _ Hw1 Hex) as (Hw2 & Hd2 & Hh2).
      split; [done|]. split; [congruence|].
      intros j st Hj. destruct (Hh1 _ _ Hj) as (st1 & Hj1 & D1).
      destruct (Hh2 _ _ Hj1) as (st2 & Hj2 & D2).
      exists st2. split; [done|]. by eapply deferred_trans.
Qed.

Lemma quiescent_spec w :
  quiescent w = true ↔
  depth w = 0 ∧ ∀ i st, heap w !! i = Some st → inTransaction st = false.
Proof.
  unfold quiescent. rewrite andb_true_iff, Z.eqb_eq, forallb_forall.
  split; intros [Hd Hall]; (split; [done|]).
  - intros i st Hi. apply negb_true_iff, Hall, list_elem_of_In.
    by eapply list_elem_of_lookup_2.
  - intros st [i Hi]%list_elem_of_In%list_elem_of_lookup_1.
    apply negb_true_iff. by eapply Hall.
Qed.

Lemma startBatch_quiescent w :
  quiescent w = true →
  batch_open (startBatch w) ∧ depth (startBatch w) = 1 ∧ heap (startBatch w) = heap w.
Proof.
  intros [Hd Hall]%quiescent_spec.
  unfold startBatch, isTransactionInProcess. rewrite Hd. simpl.
  split; [|split; [unfold depth in *; simpl; lia|done]].
  split; [unfold depth in *; simpl; lia|].
  eexists. split; [reflexivity|]. simpl. split; [done|]. split; [apply NoDup_nil_2|].
  intros i. split; [by intros ?%elem_of_nil|].
  intros (st & Hi & Hin). apply Hall in Hi. congruence.
Qed.

Lemma commit_callback_eq w j st :
  heap w !! j = Some st → commit_callback j w = set_object j (released st) w.
Proof.
  intros Hj. pose proof (lookup_lt_Some _ _ _ Hj) as Hlt.
  unfold commit_callback, dispatch. rewrite Hj. simpl.
  rewrite list_lookup_insert_eq by done.
  unfold set_object, set_heap. simpl. by rewrite list_insert_insert_eq.
Qed.

Lemma Subject_next_fire l : ∀ w,
  NoDup l → (∀ j, j ∈ l → is_Some (heap w !! j)) →
  let w' := foldl (fun w' self => commit_callback self w') w l in
  transactionManager w' = transactionManager w ∧
  transactionFinished w' = transactionFinished w ∧
  length (heap w') = length (heap w) ∧
  ∀ i st, heap w !! i = Some st →
    heap w' !! i = Some (if bool_decide (i ∈ l) then released st else st).
Proof.
  induction l as [|j l IH]; intros w Hnd Hall; simpl.
  { repeat split. auto. }
  apply NoDup_cons in Hnd as [Hj Hnd].
  destruct (Hall j) as [stj Hstj]; [by left|].
  pose proof (lookup_lt_Some _ _ _ Hstj) as Hlt.
  rewrite (commit_callback_eq w j stj) by done.
  destruct (IH (set_object j (released stj) w) Hnd) as (Hm & Hf & Hlen & Hh).
  { intros k Hk. simpl. destruct (decide (k = j)) as [->|Hne]; [done|].
    rewrite list_lookup_insert_ne by done. apply Hall. by right. }
  split; [by rewrite Hm|]. split; [by rewrite Hf|].
  split; [rewrite Hlen; simpl; by rewrite length_insert|].
  intros i st Hi. destruct (decide (i = j)) as [->|Hne].
  - assert (st = stj) as -> by congruence.
    rewrite (Hh j (released stj)) by (simpl; by rewrite list_lookup_insert_eq).
    rewrite bool_decide_eq_false_2 by done.
    by rewrite bool_decide_eq_true_2 by left.
  - rewrite (Hh i st) by (simpl; by rewrite list_lookup_insert_ne).
    destruct (decide (i ∈ l)) as [Hil|Hil].
    + rewrite !bool_decide_eq_true_2; [done|by right|done].
    + rewrite !bool_decide_eq_false_2; [done| |done].
      intros [?|?]%elem_of_cons; done.
Qed.

(** The [endBatch] of the outermost transaction: every waiting store is
    released and receives its current value, once. *)
Lemma endBatch_outermost w :
  batch_open w → depth w = 1 →
  ∃ w', endBatch w = (Ok tt, w') ∧ quiescent w' = true ∧
    ∀ i st, heap w !! i = Some st →
      heap w' !! i = Some (if inTransaction st then released st else st).
Proof.
  intros (_ & sub & Hb & Hs & Hnd & Hobs) Hd.
  unfold endBatch. unfold depth, batch in *. rewrite Hd, Hb. simpl.
  change (1 - 1) with 0. unfold Subject_next. rewrite Hs.
  edestruct (Subject_next_fire (observers sub)
               (set_manager (mkTransactionManager 0 (Some sub)) w) Hnd)
    as (Hm & Hf & Hlen & Hh).
  { intros j Hj. apply Hobs in Hj as (st & Hj & _). simpl. eauto. }
  simpl in *. rewrite Hm. simpl. eexists. split; [reflexivity|].
  assert (∀ i st, heap w !! i = Some st →
            heap (foldl (λ w' self, commit_callback self w')
                    (set_manager (mkTransactionManager 0 (Some sub)) w) (observers sub)) !! i
            = Some (if inTransaction st then released st else st)) as Hfin.
  { intros i st Hi. rewrite (Hh i st Hi).
    destruct (inTransaction st) eqn:Hin.
    - rewrite bool_decide_eq_true_2; [done|]. apply Hobs. eauto.
    - rewrite bool_decide_eq_false_2; [done|].
      intros (st0 & Hi0 & Hin0)%Hobs. congruence. }
  split; [|done].
  apply quiescent_spec. split; [done|]. simpl.
  intros i st' Hi'.
  destruct (heap w !! i) as [st|] eqn:Hi.
  - pose proof (Hfin i st Hi) as E. simpl in E, Hi'. rewrite E in Hi'.
    injection Hi' as <-. by destruct (inTransaction st) eqn:Hin.
  - apply lookup_lt_Some in Hi'. apply lookup_ge_None in Hi. lia.
Qed.

(** A straight program run while a transaction is in process: every
    constructed store holds the cumulative effect of its mutations and
    waits for the batch as soon as it was mutated once. *)
Lemma exec_straight c : ∀ w,
  straight c = true → batch_open w →
  ∃ w', exec c w = (Ok tt, w') ∧
    ∀ j st b, heap w !! j = Some st → store st = Some b →
      ∃ st', heap w' !! j = Some st' ∧ store st' = Some b ∧
        storeValue st' = effect j c (storeValue st) ∧
        inTransaction st' = inTransaction st || bool_decide (0 < mutations j c)%nat.
Proof.
  induction c as [|c1 IH1 c2 IH2|i f|body IH|e|body IHb handler IHh];
    intros w Hs Hw; simpl in Hs; try done.
  - exists w. split; [done|]. intros j st b Hj Hst. exists st.
    repeat split; [done..|]. simpl. by rewrite orb_false_r.
  - apply andb_true_iff in Hs as [Hs1 Hs2].
    destruct (IH1 w Hs1 Hw) as (w1 & E1 & Hh1).
    destruct (exec_batch_open c1 _ _ _ Hw E1) as (Hw1 & _ & _).
    destruct (IH2 w1 Hs2 Hw1) as (w2 & E2 & Hh2).
    exists w2. split; [simpl; by rewrite E1|].
    intros j st b Hj Hst.
    destruct (Hh1 j st b Hj Hst) as (st1 & Hj1 & Hst1 & Hv1 & Hin1).
    destruct (Hh2 j st1 b Hj1 Hst1) as (st2 & Hj2 & Hst2 & Hv2 & Hin2).
    exists st2. repeat split; [done..| |].
    + simpl. congruence.
    + rewrite Hin2, Hin1. simpl.
      destruct (inTransaction st); simpl; [done|].
      repeat case_bool_decide; simpl; try done; lia.
  - eexists. split; [reflexivity|]. intros j st b Hj Hst.
    pose proof Hw as (Hd & sub & Hb & Hstop & _).
    destruct (decide (i = j)) as [->|Hne].
    + rewrite (setState_batch w j f st b sub) by done. simpl.
      rewrite list_lookup_insert_eq by by eapply lookup_lt_Some.
      eexists. split; [reflexivity|]. simpl. rewrite !decide_True by done.
      repeat split. by destruct (inTransaction st).
    + simpl. rewrite !decide_False by done. rewrite orb_false_r.
      exists st. repeat split; [|done..].
      destruct (heap w !! i) as [sti|] eqn:Hi; [|by rewrite setState_missing].
      destruct (store sti) as [bi|] eqn:Hsti.
      * rewrite (setState_batch w i f sti bi sub) by done. simpl.
        by rewrite list_lookup_insert_ne.
      * rewrite (setState_unconstructed w i f sti) by done. simpl.
        by rewrite list_lookup_insert_ne.
  - destruct (startBatch_batch_open w Hw) as (Hw1 & Hd1 & Hh1).
    destruct (IH (startBatch w) Hs Hw1) as (w2 & E2 & Hh2).
    destruct (exec_batch_open body _ _ _ Hw1 E2) as (Hw2 & Hd2 & _).
    simpl. unfold applyTransaction. rewrite E2.
    rewrite endBatch_nested by (destruct Hw as [? _]; lia).
    eexists. split; [reflexivity|]. simpl.
    intros j st b Hj Hst. rewrite <- Hh1 in Hj. by apply Hh2.
Qed.

(** The counter is balanced and the batch subject, once created, stays:
    in every world, also an inconsistent one. *)
Lemma dispatch_manager w i v :
  transactionManager (dispatch i v w) = transactionManager w.
Proof. unfold dispatch. by destruct (heap w !! i). Qed.

Lemma commit_callback_manager w i :
  transactionManager (commit_callback i w) = transactionManager w.
Proof.
  unfold commit_callback. destruct (heap w !! i); [|done].
  by rewrite dispatch_manager.
Qed.

Lemma Subject_next_manager sub w :
  transactionManager (Subject_next sub w) = transactionManager w.
Proof.
  unfold Subject_next. destruct (isStopped sub); [done|].
  generalize (observers sub). intros l. revert w.
  induction l as [|j l IH]; intros w; simpl; [done|].
  by rewrite IH, commit_callback_manager.
Qed.

Lemma handleTransaction_manager w i :
  depth (handleTransaction i w) = depth w ∧
  (is_Some (batch w) → is_Some (batch (handleTransaction i w))).
Proof.
  unfold handleTransaction. destruct (heap w !! i) as [st|]; [|done].
  destruct (inTransaction st); [done|].
  assert (depth (watchTransaction i w) = depth w ∧
          (is_Some (batch w) → is_Some (batch (watchTransaction i w)))) as [Hd Hb].
  { unfold watchTransaction, commit, depth, batch.
    destruct (batchTransaction (transactionManager w)) as [sub|] eqn:Hsub.
    - destruct (isStopped sub); [by rewrite Hsub|]. simpl. eauto.
    - by rewrite commit_callback_manager, Hsub. }
  by destruct (heap (watchTransaction i w) !! i).
Qed.

Lemma setState_manager w i f :
  depth (_setState i f w) = depth w ∧
  (is_Some (batch w) → is_Some (batch (_setState i f w))).
Proof.
  unfold _setState. destruct (heap w !! i) as [st|] eqn:Hi; [|done].
  destruct (store st); [|done].
  destruct (isTransactionInProcess _).
  - apply (handleTransaction_manager (set_object i _ w)).
  - unfold depth, batch. by rewrite dispatch_manager.
Qed.

Lemma exec_balanced c : ∀ w r w',
  exec c w = (r, w') →
  depth w' = depth w ∧ (is_Some (batch w) → is_Some (batch w')).
Proof.
  induction c as [|c1 IH1 c2 IH2|i f|body IH|e|body IHb handler IHh];
    intros w r w' Hex; simpl in Hex.
  - by injection Hex as <- <-.
  - destruct (exec c1 w) as [[u|e] w1] eqn:E1.
    + destruct (IH1 _ _ _ E1) as [Hd1 Hb1]. destruct (IH2 _ _ _ Hex) as [Hd2 Hb2].
      split; [congruence|auto].
    + injection Hex as <- <-. by apply IH1 in E1.
  - injection Hex as <- <-. apply setState_manager.
  - unfold applyTransaction in Hex.
    destruct (exec body (startBatch w)) as [r2 w2] eqn:E2.
    destruct (IH _ _ _ E2) as [Hd2 Hb2].
    assert (depth (startBatch w) = depth w + 1) as Hd1 by done.
    assert (depth w ≤ 0 ∨ is_Some (batch w) → is_Some (batch w2)) as Hsome.
    { intros H. apply Hb2. unfold startBatch, batch, isTransactionInProcess. simpl.
      destruct (Z.ltb_spec 0 (depth w)); [|eauto].
      destruct H as [?|?]; [lia|done]. }
    unfold endBatch in Hex.
    replace (activeTransactions (transactionManager w2) - 1) with (depth w) in Hex
      by (unfold depth in *; lia).
    destruct (Z.eqb_spec (depth w) 0) as [E0|Hne].
    + destruct Hsome as [sub Hsub]; [left; lia|]. unfold batch in Hsub.
      rewrite Hsub, Subject_next_manager in Hex. simpl in Hex.
      injection Hex as <- <-.
      split; [done|]. unfold batch. simpl. eauto.
    + injection Hex as <- <-. split; [done|].
      intros Hb. unfold batch. simpl. apply Hsome. by right.
  - by injection Hex as <- <-.
  - destruct (exec body w) as [[u|e] w1] eqn:E1.
    + injection Hex as <- <-. by apply IHb in E1.
    + destruct (IHb _ _ _ E1) as [Hd1 Hb1]. destruct (IHh _ _ _ Hex) as [Hd2 Hb2].
      split; [congruence|auto].
Qed.

(** Whatever its body does, throwing included, a transaction started
    when none is in process ends with none in process and no store left
    waiting. *)
Lemma transaction_restores_quiescence c w r w' :
  quiescent w = true → exec (Transaction c) w = (r, w') → quiescent w' = true.
Proof.
  intros Hq Hex. simpl in Hex. unfold applyTransaction in Hex.
  destruct (startBatch_quiescent w Hq) as (Hw1 & Hd1 & _).
  destruct (exec c (startBatch w)) as [r2 w2] eqn:E2.
  destruct (exec_batch_open c _ _ _ Hw1 E2) as (Hw2 & Hd2 & _).
  destruct (endBatch_outermost w2 Hw2) as (w3 & E3 & Hq3 & _); [congruence|].
  rewrite E3 in Hex. by injection Hex as _ <-.
Qed.

(** C1.  A store mutated two or more times inside one transaction, nested
    transactions included: while the body of the outermost transaction
    runs the subject of the store emits nothing; when the outermost
    transaction has completed the subject has emitted exactly one value,
    the state after the last mutation, which is the cumulative effect of
    all the mutations. *)
Theorem transaction_single_notification c self w st b :
  straight c = true →
  quiescent w = true →
  heap w !! self = Some st → store st = Some b →
  (2 ≤ mutations self c)%nat →
  ∃ w2 st2 w' st',
    exec c (startBatch w) = (Ok tt, w2) ∧
    heap w2 !! self = Some st2 ∧ store st2 = Some b ∧
    endBatch w2 = (Ok tt, w') ∧
    exec (Transaction c) w = (Ok tt, w') ∧
    heap w' !! self = Some st' ∧
    storeValue st' = effect self c (storeValue st) ∧
    store st' = Some (mkBehaviorSubject (storeValue st')
                        (bs_emitted b ++ [storeValue st'])) ∧
    inTransaction st' = false ∧ depth w' = 0.
Proof.
  intros Hs Hq Hself Hst Hm.
  destruct (startBatch_quiescent w Hq) as (Hw1 & Hd1 & Hh1).
  destruct (exec_straight c (startBatch w) Hs Hw1) as (w2 & E2 & Hh2).
  destruct (exec_batch_open c _ _ _ Hw1 E2) as (Hw2 & Hd2 & _).
  destruct (Hh2 self st b) as (st2 & Hself2 & Hst2 & Hv2 & Hin2); [by rewrite Hh1|done|].
  destruct (endBatch_outermost w2 Hw2) as (w' & E' & Hq' & Hh'); [congruence|].
  pose proof (Hh' self st2 Hself2) as Hself'.
  assert (inTransaction st2 = true) as Hin.
  { rewrite Hin2. rewrite bool_decide_eq_true_2 by lia. apply orb_true_r. }
  rewrite Hin in Hself'.
  exists w2, st2, w', (released st2).
  split; [done|]. split; [done|]. split; [done|]. split; [done|].
  split; [simpl; unfold applyTransaction; by rewrite E2, E'|].
  split; [done|]. split; [done|].
  split; [simpl; by rewrite Hst2|].
  split; [done|]. by apply quiescent_spec in Hq' as [? _].
Qed.

(** C4.  An inner transaction whose action raises, inside an outer
    transaction that has run [pre]: the cleanup of the inner transaction
    still decrements the counter, the exception reaches the caller, and
    the [endBatch] of the outer transaction completes, leaves no
    transaction in process and releases every waiting store with its
    current value. *)
Theorem applyTransaction_cleanup pre c w0 w w2 e :
  quiescent w0 = true →
  exec pre (startBatch w0) = (Ok tt, w) →
  exec c (startBatch w) = (Err e, w2) →
  ∃ w3 w4,
    endBatch w2 = (Ok tt, w3) ∧
    depth w3 = depth w2 - 1 ∧ depth w3 = depth w ∧
    applyTransaction (exec c) w = (Err e, w3) ∧
    endBatch w3 = (Ok tt, w4) ∧
    exec (Transaction (Seq pre (Transaction c))) w0 = (Err e, w4) ∧
    quiescent w4 = true ∧
    ∀ i st, heap w3 !! i = Some st →
      heap w4 !! i = Some (if inTransaction st then released st else st).
Proof.
  intros Hq Hpre Hc.
  destruct (startBatch_quiescent w0 Hq) as (Hw1 & Hd1 & _).
  destruct (exec_batch_open pre _ _ _ Hw1 Hpre) as (Hw & Hd & _).
  destruct (startBatch_batch_open w Hw) as (Hws & Hds & _).
  destruct (exec_batch_open c _ _ _ Hws Hc) as (Hw2 & Hd2 & _).
  assert (depth w2 = 2) as Hd2' by lia.
  pose proof (endBatch_nested w2 ltac:(lia)) as E3.
  set (w3 := set_manager (mkTransactionManager (depth w2 - 1) (batch w2)) w2) in *.
  assert (batch_open w3) as Hw3.
  { destruct Hw2 as (_ & sub & Hb & Hstop & Hnd & Hobs).
    split; [unfold depth in *; simpl; lia|].
    exists sub. repeat (split; [done|]). exact Hobs. }
  assert (depth w3 = 1) as Hd3 by (unfold depth in *; simpl; lia).
  destruct (endBatch_outermost w3 Hw3 Hd3) as (w4 & E4 & Hq4 & Hh4).
  exists w3, w4.
  split; [done|]. split; [lia|]. split; [lia|].
  split; [unfold applyTransaction; by rewrite Hc, E3|].
  split; [done|].
  split; [|done].
  simpl. unfold applyTransaction at 1. rewrite Hpre.
  unfold applyTransaction. by rewrite Hc, E3, E4.
Qed.

End TransactionFacts.

(** ** What the transaction machinery leaves alone *)

Section ObjectFacts.
Context {State X : Type}.
Implicit Types (w : World State X) (st : Store State X).

Lemma untouched_refl st : untouched st st.
Proof. by repeat split. Qed.

Lemma untouched_trans st1 st2 st3 : untouched st1 st2 → untouched st2 st3 → untouched st1 st3.
Proof. intros (A1 & B1 & C1) (A2 & B2 & C2). repeat split; congruence. Qed.

Lemma same_objects_refl w : same_objects w w.
Proof. intros i st Hi. exists st. split; [done|apply untouched_refl]. Qed.

Lemma same_objects_trans w1 w2 w3 :
  same_objects w1 w2 → same_objects w2 w3 → same_objects w1 w3.
Proof.
  intros H12 H23 i st Hi.
  destruct (H12 i st Hi) as (st2 & Hi2 & U2).
  destruct (H23 i st2 Hi2) as (st3 & Hi3 & U3).
  exists st3. split; [done|]. by eapply untouched_trans.
Qed.

Lemma set_object_same w i st st' :
  heap w !! i = Some st → untouched st st' → same_objects w (set_object i st' w).
Proof.
  intros Hi U j stj Hj. simpl. destruct (decide (j = i)) as [->|Hne].
  - rewrite list_lookup_insert_eq by by eapply lookup_lt_Some.
    exists st'. split; [done|]. congruence.
  - rewrite list_lookup_insert_ne by done. exists stj. split; [done|apply untouched_refl].
Qed.

Lemma set_manager_same w m : same_objects w (set_manager m w).
Proof. intros i st Hi. exists st. split; [done|apply untouched_refl]. Qed.

Lemma dispatch_same w i v : same_objects w (dispatch i v w).
Proof.
  unfold dispatch. destruct (heap w !! i) as [st|] eqn:Hi; [|apply same_objects_refl].
  by apply (set_object_same w i st).
Qed.

Lemma commit_callback_same w i : same_objects w (commit_callback i w).
Proof.
  unfold commit_callback. destruct (heap w !! i) as [st|] eqn:Hi; [|apply same_objects_refl].
  eapply same_objects_trans; [|apply dispatch_same].
  by apply (set_object_same w i st).
Qed.

Lemma Subject_next_same sub w : same_objects w (Subject_next sub w).
Proof.
  unfold Subject_next. destruct (isStopped sub); [apply same_objects_refl|].
  generalize (observers sub). intros l. revert w.
  induction l as [|j l IH]; intros w; simpl; [apply same_objects_refl|].
  eapply same_objects_trans; [apply commit_callback_same|apply IH].
Qed.

Lemma startBatch_same w : same_objects w (startBatch w).
Proof. intros i st Hi. exists st. split; [done|apply untouched_refl]. Qed.

Lemma endBatch_same w : same_objects w (endBatch w).2.
Proof.
  unfold endBatch. destruct (_ =? _); [|apply set_manager_same].
  destruct (batchTransaction _) as [sub|]; [|apply set_manager_same].
  rewrite Subject_next_manager. simpl. intros i st Hi.
  by apply (Subject_next_same sub (set_manager _ w)).
Qed.

Lemma watchTransaction_same w i : same_objects w (watchTransaction i w).
Proof.
  unfold watchTransaction, commit. destruct (batchTransaction _) as [sub|].
  - destruct (isStopped sub); [apply same_objects_refl|apply set_manager_same].
  - apply commit_callback_same.
Qed.

Lemma handleTransaction_same w i : same_objects w (handleTransaction i w).
Proof.
  unfold handleTransaction. destruct (heap w !! i) as [st|] eqn:Hi; [|apply same_objects_refl].
  destruct (inTransaction st); [apply same_objects_refl|].
  eapply same_objects_trans; [apply watchTransaction_same|].
  destruct (heap (watchTransaction i w) !! i) as [st1|] eqn:Hi1; [|apply same_objects_refl].
  by apply (set_object_same _ i st1).
Qed.

(** [_setState] applies [newStateFn] to the state of its object and leaves
    the cache flag and the subclass fields alone, in or out of a
    transaction. *)
Lemma setState_object w i f st :
  heap w !! i = Some st →
  ∃ st', heap (_setState i f w) !! i = Some st' ∧
    storeValue st' = f (storeValue st) ∧
    cache_active st' = cache_active st ∧ ext st' = ext st.
Proof.
  intros Hi. pose proof (lookup_lt_Some _ _ _ Hi) as Hlt.
  unfold _setState. rewrite Hi.
  destruct (store st) as [b|] eqn:Hst.
  - set (w1 := set_object i (set_storeValue (f (storeValue st)) st) w).
    assert (heap w1 !! i = Some (set_storeValue (f (storeValue st)) st)) as Hi1
      by (simpl; by rewrite list_lookup_insert_eq).
    destruct (isTransactionInProcess w1).
    + destruct (handleTransaction_same w1 i i _ Hi1) as (st' & Hi' & A & B & C).
      exists st'. by repeat split.
    + destruct (dispatch_same w1 i (f (storeValue st)) i _ Hi1) as (st' & Hi' & A & B & C).
      exists st'. by repeat split.
  - simpl. rewrite list_lookup_insert_eq by done. eexists. by repeat split.
Qed.

Lemma setHasCache_object w i b st :
  heap w !! i = Some st →
  ∃ st', heap (setHasCache i b w) !! i = Some st' ∧
    storeValue st' = storeValue st ∧ cache_active st' = b ∧ ext st' = ext st.
Proof.
  intros Hi. unfold setHasCache. rewrite Hi. case_bool_decide as Hb.
  - simpl. rewrite list_lookup_insert_eq by by eapply lookup_lt_Some.
    eexists. by repeat split.
  - exists st. repeat split; [done|]. destruct b, (cache_active st); naive_solver.
Qed.

End ObjectFacts.

(** ** The entity store *)

Section EntityStoreFacts.
Implicit Types (w : EWorld) (st : EStore) (v : EntityState).

Lemma object_is_init self w st :
  heap w !! self = Some st → object_is self w st (storeValue st) (cache_active st).
Proof. intros Hi. exists st. by repeat split. Qed.

Lemma object_is_same self w w' st v c :
  same_objects w w' → object_is self w st v c → object_is self w' st v c.
Proof.
  intros Hs (st1 & Hi & Hv & Hc & Hx).
  destruct (Hs self st1 Hi) as (st2 & Hi2 & A & B & C).
  exists st2. repeat split; try congruence; rewrite C; apply Hx.
Qed.

Lemma object_is_setState self w st v c f :
  object_is self w st v c → object_is self (_setState self f w) st (f v) c.
Proof.
  intros (st1 & Hi & Hv & Hc & Hx).
  destruct (setState_object w self f st1 Hi) as (st2 & Hi2 & A & B & C).
  exists st2. repeat split; try congruence; rewrite C; apply Hx.
Qed.

Lemma object_is_setHasCache self w st v c b :
  object_is self w st v c → object_is self (setHasCache self b w) st v b.
Proof.
  intros (st1 & Hi & Hv & Hc & Hx).
  destruct (setHasCache_object w self b st1 Hi) as (st2 & Hi2 & A & B & C).
  exists st2. repeat split; try congruence; rewrite C; apply Hx.
Qed.

Lemma object_is_entityActions_next self w st v c a :
  object_is self w st v c →
  object_is self (EntityStore.entityActions_next self a w) st v c.
Proof.
  intros (st1 & Hi & Hv & Hc & Hx). unfold EntityStore.entityActions_next. rewrite Hi.
  unfold object_is. simpl. rewrite list_lookup_insert_eq by by eapply lookup_lt_Some.
  eexists. split; [reflexivity|]. repeat split; try done; apply Hx.
Qed.

Lemma object_is_updatedEntityIds_next self w st v c l :
  object_is self w st v c →
  object_is self (EntityStore.updatedEntityIds_next self l w) st v c.
Proof.
  intros (st1 & Hi & Hv & Hc & Hx). unfold EntityStore.updatedEntityIds_next. rewrite Hi.
  unfold object_is. simpl. rewrite list_lookup_insert_eq by by eapply lookup_lt_Some.
  eexists. split; [reflexivity|]. repeat split; try done; apply Hx.
Qed.

Lemma object_is_lookup self w' st v c :
  object_is self w' st v c →
  ∃ st', heap w' !! self = Some st' ∧ storeValue st' = v ∧ cache_active st' = c.
Proof. intros (st' & ? & ? & ? & _). by exists st'. Qed.

(** What [remove] makes of its object. *)
Lemma remove_object self w st t :
  heap w !! self = Some st →
  let s := storeValue st in
  object_is self (EntityStore.remove self t w) st
    (if isEmpty (Some (ids s)) || isEmpty (EntityStore.remove_ids s t) then s
     else removeEntities s (EntityStore.remove_ids s t))
    (if isEmpty (Some (ids s)) || isEmpty (EntityStore.remove_ids s t)
     then cache_active st
     else match EntityStore.remove_ids s t with
          | None => false
          | Some _ => cache_active st
          end).
Proof.
  intros Hi s. unfold EntityStore.remove. rewrite Hi. fold s.
  destruct (isEmpty (Some (ids s))); simpl; [by apply object_is_init|].
  destruct (isEmpty (EntityStore.remove_ids s t)); [by apply object_is_init|].
  apply object_is_entityActions_next.
  pose proof (object_is_setState self w st _ _
                (fun state => removeEntities state (EntityStore.remove_ids s t))
                (object_is_init self w st Hi)) as H1.
  destruct (EntityStore.remove_ids s t); [done|].
  by eapply object_is_setHasCache.
Qed.

Lemma filter_not_includes (l : list ID) (X : ID) :
  X ∉ l → List.filter (fun current => negb (includes [X] current)) l = l.
Proof.
  induction l as [|y l IH]; intros Hx; [done|].
  apply not_elem_of_cons in Hx as [Hne Hx]. simpl.
  unfold includes at 1. rewrite bool_decide_eq_false_2.
  - simpl. by rewrite IH.
  - intros ->%list_elem_of_singleton. done.
Qed.

Lemma is_id_not_nil (X : ID) : is_id X = true → isNil X = false.
Proof. by destruct X. Qed.

(** C5.  [remove] changes nothing at all (no state is written, nothing is
    emitted) when the resolved removal set is empty and when the
    collection is already empty, whatever the target; removing an id that
    is in neither [ids] nor [entities] leaves [ids] and [entities] as they
    were. *)
Theorem remove_noop self w st t X :
  heap w !! self = Some st →
  (EntityStore.remove_ids (storeValue st) t = Some [] → EntityStore.remove self t w = w) ∧
  (ids (storeValue st) = [] → EntityStore.remove self t w = w) ∧
  (is_id X = true → X ∉ ids (storeValue st) →
   entities (storeValue st) !! propKey X = None →
   ∃ st', heap (EntityStore.remove self (TIds (One X)) w) !! self = Some st' ∧
          ids (storeValue st') = ids (storeValue st) ∧
          entities (storeValue st') = entities (storeValue st)).
Proof.
  intros Hi. split; [|split].
  - intros Ht. unfold EntityStore.remove. rewrite Hi, Ht. simpl.
    by destruct (ids (storeValue st)).
  - intros He. unfold EntityStore.remove. by rewrite Hi, He.
  - intros Hid Hx Hk.
    destruct (object_is_lookup _ _ _ _ _ (remove_object self w st (TIds (One X)) Hi))
      as (st' & Hi' & Hv & _).
    exists st'. split; [done|]. rewrite Hv. clear Hv Hi'.
    destruct (isEmpty (Some (ids (storeValue st))) || _); [done|].
    unfold EntityStore.remove_ids, isDefined, Target_isNil, coerceArray.
    rewrite (is_id_not_nil X Hid). simpl.
    split; [by apply filter_not_includes|by apply delete_id].
Qed.

(** C7.  A partial remove (an id that is given, a list of ids or a
    predicate) leaves [active] and the cache flag as they were; [remove]
    without a target, on a collection that is not empty, resets the cache
    flag. *)
Theorem partial_remove_frame self w st t :
  heap w !! self = Some st →
  (isDefined t = true →
   ∃ st', heap (EntityStore.remove self t w) !! self = Some st' ∧
          active (storeValue st') = active (storeValue st) ∧
          cache_active st' = cache_active st) ∧
  (isDefined t = false → ids (storeValue st) ≠ [] →
   ∃ st', heap (EntityStore.remove self t w) !! self = Some st' ∧
          cache_active st' = false).
Proof.
  intros Hi.
  destruct (object_is_lookup _ _ _ _ _ (remove_object self w st t Hi))
    as (st' & Hi' & Hv & Hc).
  split.
  - intros Ht. exists st'. split; [done|]. rewrite Hv, Hc. clear Hv Hc Hi'.
    destruct (isEmpty (Some (ids (storeValue st))) || _); [done|].
    assert (∃ l, EntityStore.remove_ids (storeValue st) t = Some l) as [l ->].
    { unfold EntityStore.remove_ids. destruct t as [|v|f]; [done| |eauto].
      rewrite Ht. eauto. }
    done.
  - intros Ht Hne. exists st'. split; [done|]. rewrite Hc. clear Hv Hc Hi'.
    assert (EntityStore.remove_ids (storeValue st) t = None) as ->.
    { unfold EntityStore.remove_ids. destruct t as [|v|f]; [done| |done].
      by rewrite Ht. }
    by destruct (ids (storeValue st)).
Qed.

Lemma akitaPreAddEntity_config x x' :
  same_config x x' → akitaPreAddEntity x' = akitaPreAddEntity x.
Proof. intros (_ & H & _). unfold akitaPreAddEntity. by rewrite H. Qed.

Lemma akitaPreUpdateEntity_config x x' :
  same_config x x' → akitaPreUpdateEntity x' = akitaPreUpdateEntity x.
Proof. intros (_ & _ & H). unfold akitaPreUpdateEntity. by rewrite H. Qed.

Lemma object_is_heap self w st v c :
  object_is self w st v c →
  ∃ st1, heap w !! self = Some st1 ∧ storeValue st1 = v ∧ cache_active st1 = c ∧
         same_config (ext st) (ext st1) ∧ object_is self w st1 v c.
Proof.
  intros (st1 & Hi & Hv & Hc & Hx). exists st1. repeat split; try done; try apply Hx.
  exists st1. by repeat split.
Qed.

Lemma object_is_config self w st st1 v c :
  same_config (ext st) (ext st1) → object_is self w st1 v c → object_is self w st v c.
Proof.
  intros (A & B & C) (st2 & Hi & Hv & Hc & (A2 & B2 & C2)).
  exists st2. repeat split; congruence.
Qed.

Lemma add_step self w st v c es options :
  object_is self w st v c →
  object_is self (EntityStore.add self es options w) st (add_value (ext st) v es options) c.
Proof.
  intros H. destruct (object_is_heap _ _ _ _ _ H) as (st1 & Hi & Hv & Hc & Hx & H1).
  apply (object_is_config _ _ _ st1); [done|].
  unfold EntityStore.add, add_value. rewrite Hi, Hv.
  destruct (isEmpty (Some (coerceArray es))); [done|].
  rewrite (akitaPreAddEntity_config _ _ Hx). destruct Hx as (-> & _).
  destruct (addEntities _ _ _ _ _) as [data|]; [|done].
  apply object_is_entityActions_next.
  by apply (object_is_setState self w st1 v c (fun _ => _)).
Qed.

Lemma update_step self w st v c t ns :
  object_is self w st v c →
  object_is self (EntityStore.update self t ns w) st (update_value (ext st) v t ns) c.
Proof.
  intros H. destruct (object_is_heap _ _ _ _ _ H) as (st1 & Hi & Hv & Hc & Hx & H1).
  apply (object_is_config _ _ _ st1); [done|].
  unfold EntityStore.update, update_value. rewrite Hi, Hv.
  destruct (isEmpty (Some (EntityStore.update_ids v t))); [done|].
  rewrite (akitaPreUpdateEntity_config _ _ Hx). destruct Hx as (-> & _).
  apply object_is_entityActions_next, object_is_updatedEntityIds_next.
  by apply (object_is_setState self w st1 v c
              (fun state => updateEntities _ _ _ state ns)).
Qed.

Lemma upsertMany_step self w st v c es options :
  object_is self w st v c →
  object_is self (EntityStore.upsertMany self es options w) st
    (upsertMany_value (ext st) v es options) c.
Proof.
  intros H. destruct (object_is_heap _ _ _ _ _ H) as (st1 & Hi & Hv & Hc & Hx & H1).
  apply (object_is_config _ _ _ st1); [done|].
  unfold EntityStore.upsertMany, upsertMany_value. rewrite Hi, Hv.
  destruct Hx as (-> & _).
  set (acc := foldl _ _ es).
  pose proof (object_is_setState self w st1 v c
    (fun state =>
       mkEntityState
         (if isEmpty (Some (EntityStore.addedIds acc)) then ids state
          else ids state ++ EntityStore.addedIds acc)
         (EntityStore.updatedEntities acc ∪ entities state) (active state)
         (VBool (truthy (EntityStore.um_loading
            (default (EntityStore.mkUpsertManyOptions None VUndefined) options))))
         (error state)) H1) as H2.
  destruct (isEmpty (Some (EntityStore.updatedIds acc)));
    destruct (isEmpty (Some (EntityStore.addedIds acc)));
    repeat first [apply object_is_entityActions_next
                 |apply object_is_updatedEntityIds_next]; exact H2.
Qed.

Lemma set_step self w st v c src :
  object_is self w st v c →
  object_is self (EntityStore.set self src w) st (set_value (ext st) v src)
    (match src with Some _ => true | None => c end).
Proof.
  intros H. destruct (object_is_heap _ _ _ _ _ H) as (st1 & Hi & Hv & Hc & Hx & H1).
  apply (object_is_config _ _ _ st1); [done|].
  unfold EntityStore.set, set_value. destruct src as [src|]; [|done]. rewrite Hi.
  rewrite (akitaPreAddEntity_config _ _ Hx). destruct Hx as (-> & -> & _).
  pose proof (object_is_setHasCache _ _ _ _ _ true
    (object_is_setState self w st1 v c
       (fun state => setEntities state src (idKey (ext st)) (akitaPreAddEntity (ext st))
                       (bool_decide (preAddOverride (ext st) = None))) H1)) as H2.
  unfold EntityStore.updateCache.
  destruct (object_is_heap _ _ _ _ _ H2) as (st2 & -> & _).
  by apply object_is_entityActions_next.
Qed.

Lemma upsert_step self w st v c l ns options :
  object_is self w st v c →
  object_is self (EntityStore.upsert self l ns options w).2 st
    (upsert_value (ext st) v l ns options) c.
Proof.
  intros H.
  assert ((EntityStore.upsert self l ns options w).2
          = (endBatch (EntityStore.upsert_body self l ns options (startBatch w)).2).2) as ->.
  { unfold EntityStore.upsert, applyTransaction.
    destruct (EntityStore.upsert_body _ _ _ _ _) as [r w2]. simpl.
    by destruct (endBatch w2) as [[?|?] ?]. }
  apply (object_is_same _ _ _ _ _ _ (endBatch_same _)).
  pose proof (object_is_same _ _ _ _ _ _ (startBatch_same w) H) as H0.
  destruct (object_is_heap _ _ _ _ _ H0) as (st1 & Hi & Hv & Hc & Hx & _).
  unfold EntityStore.upsert_body, upsert_value. rewrite Hi, Hv.
  destruct Hx as (-> & _). simpl.
  by apply add_step, update_step.
Qed.

(** C9.  An [add] that adds entities ([addEntities] returns data) writes
    [options.loading] into [loading], which is [false] when no options are
    given; [upsertMany] always writes [!!options.loading]. *)
Theorem add_upsertMany_overwrite_loading self w st es options data um_es um_options :
  heap w !! self = Some st →
  coerceArray es ≠ [] →
  addEntities (storeValue st) (akitaPreAddEntity (ext st)) (coerceArray es) (idKey (ext st))
    (default (mkAddEntitiesOptions VUndefined (VBool false)) options) = Some data →
  (∃ st', heap (EntityStore.add self es options w) !! self = Some st' ∧
     storeValue st' =
       set_loading (opt_loading (default (mkAddEntitiesOptions VUndefined (VBool false)) options))
         (newState data) ∧
     loading (storeValue st') =
       opt_loading (default (mkAddEntitiesOptions VUndefined (VBool false)) options) ∧
     (options = None → loading (storeValue st') = VBool false)) ∧
  (∃ st', heap (EntityStore.upsertMany self um_es um_options w) !! self = Some st' ∧
     loading (storeValue st') =
       VBool (truthy (EntityStore.um_loading
                (default (EntityStore.mkUpsertManyOptions None VUndefined) um_options)))).
Proof.
  intros Hi Hne Hadd. split.
  - destruct (object_is_lookup _ _ _ _ _
                (add_step self w st _ _ es options (object_is_init self w st Hi)))
      as (st' & Hi' & Hv & _).
    exists st'. split; [done|]. rewrite Hv. unfold add_value. rewrite Hadd.
    destruct (coerceArray es); [done|]. simpl.
    repeat split. by intros ->.
  - destruct (object_is_lookup _ _ _ _ _
                (upsertMany_step self w st _ _ um_es um_options (object_is_init self w st Hi)))
      as (st' & Hi' & Hv & _).
    exists st'. split; [done|]. by rewrite Hv.
Qed.

(** C2.  [upsert(X, P)] on a store with the hooks of [EntityStore]:
    afterwards [entities[X]] exists; it is the previous entity with [P]
    merged on top when [X] was there, and [ids] is as before; else it is
    [P] with the id key set to [X], and [X] is appended to [ids]. *)
Theorem upsert_total self w st X P :
  heap w !! self = Some st →
  is_id X = true →
  preAddOverride (ext st) = None →
  preUpdateOverride (ext st) = None →
  ∃ st',
    heap (EntityStore.upsert self (One X) (Patch P) (EntityStore.mkUpsertOptions None) w).2
      !! self = Some st' ∧
    is_Some (entities (storeValue st') !! propKey X) ∧
    match entities (storeValue st) !! propKey X with
    | Some previous =>
        entities (storeValue st') !! propKey X = Some (spread previous P) ∧
        ids (storeValue st') = ids (storeValue st)
    | None =>
        entities (storeValue st') !! propKey X = Some (<[idKey (ext st) := X]> P) ∧
        ids (storeValue st') = ids (storeValue st) ++ [X]
    end.
Proof.
  intros Hi Hid Hadd Hupd.
  destruct (object_is_lookup _ _ _ _ _
              (upsert_step self w st _ _ (One X) (Patch P) (EntityStore.mkUpsertOptions None)
                 (object_is_init self w st Hi)))
    as (st' & Hi' & Hv & _).
  exists st'. split; [done|]. rewrite Hv. clear Hv Hi'.
  unfold upsert_value, EntityStore.upsert_newEntities, coerceArray.
  rewrite (is_id_not_nil X Hid). simpl.
  destruct (entities (storeValue st) !! propKey X) as [previous|] eqn:Hk.
  - assert (hasEntity (entities (storeValue st)) X = true) as ->.
    { unfold hasEntity. rewrite Hk. by apply bool_decide_eq_true_2. }
    simpl. unfold add_value, update_value. simpl.
    unfold updateEntities, akitaPreUpdateEntity. simpl. rewrite Hk, Hupd. simpl.
    rewrite lookup_insert_eq. eauto.
  - assert (hasEntity (entities (storeValue st)) X = false) as ->.
    { unfold hasEntity. rewrite Hk. apply bool_decide_eq_false_2. by intros [? ?]. }
    simpl. unfold add_value, update_value. simpl.
    unfold akitaPreAddEntity. rewrite Hadd. simpl.
    unfold getField. rewrite !lookup_insert_eq. simpl.
    eauto.
Qed.

(** C6.  Scenario C: after [set([e1, e2])] with the ids 1 and 2,
    [upsertMany([{id:1,title:'x'}, {id:3,title:'y'}])] merges the first
    record onto entity 1, leaves entity 2, appends entity 3, and [ids] is
    [[1,2,3]]. *)
Theorem upsertMany_scenario self w st (e1 e2 : Entity) :
  heap w !! self = Some st →
  idKey (ext st) = DEFAULT_ID_KEY →
  preAddOverride (ext st) = None →
  getField "id" e1 = VNum 1 →
  getField "id" e2 = VNum 2 →
  ∃ st',
    heap (EntityStore.upsertMany self
            [ {[ "id" := VNum 1; "title" := VStr "x" ]};
              {[ "id" := VNum 3; "title" := VStr "y" ]} ] None
            (EntityStore.set self (Some (SetArray [e1; e2])) w)) !! self = Some st' ∧
    ids (storeValue st') = [VNum 1; VNum 2; VNum 3] ∧
    entities (storeValue st') =
      {[ "1" := spread e1 {[ "id" := VNum 1; "title" := VStr "x" ]};
         "2" := e2;
         "3" := {[ "id" := VNum 3; "title" := VStr "y" ]} ]}.
Proof.
  intros Hi Hkey Hadd H1 H2.
  destruct (object_is_lookup _ _ _ _ _
              (upsertMany_step self _ st _ _
                 [ {[ "id" := VNum 1; "title" := VStr "x" ]};
                   {[ "id" := VNum 3; "title" := VStr "y" ]} ] None
                 (set_step self w st _ _ (Some (SetArray [e1; e2]))
                    (object_is_init self w st Hi))))
    as (st' & Hi' & Hv & _).
  exists st'. split; [done|]. rewrite Hv. clear Hv Hi'.
  unfold upsertMany_value, set_value, setEntities.
  rewrite Hkey, Hadd. unfold DEFAULT_ID_KEY. simpl. rewrite H1, H2.
  split; reflexivity.
Qed.

End EntityStoreFacts.

(** ** The entity collection plugin *)

Section PluginFacts.
Context {P : Type}.
Variable toBoolean : list ID → bool.
Variable instantiatePlugin : ID → P.
Implicit Types (p : EntityCollectionPlugin P) (id : ID) (l : list ID).

Lemma plugin_hasEntity_keys id p : plugin_hasEntity id p = true ↔ id ∈ plugin_keys p.
Proof. unfold plugin_hasEntity, Map_has. apply bool_decide_eq_true. Qed.

Lemma plugin_hasEntity_false id p : plugin_hasEntity id p = false ↔ id ∉ plugin_keys p.
Proof. unfold plugin_hasEntity, Map_has. apply bool_decide_eq_false. Qed.

Lemma rebase_add_keys actions e p id :
  id ∈ plugin_keys (rebase_add instantiatePlugin actions e p) ↔ id = e ∨ id ∈ plugin_keys p.
Proof.
  unfold rebase_add, plugin_keys.
  assert (∀ m : list (ID * P),
            id ∈ map fst (Map_set e (instantiatePlugin e) m) ↔ id = e ∨ id ∈ map fst m) as H.
  { intros m. unfold Map_set. destruct (Map_has e m) eqn:Hhas.
    - apply bool_decide_eq_true in Hhas.
      rewrite map_map.
      assert (map (λ x, (if bool_decide (x.1 = e) then (e, instantiatePlugin e) else x).1) m
              = map fst m) as ->.
      { apply map_ext. intros [k v]. simpl. case_bool_decide; simpl; congruence. }
      naive_solver.
    - rewrite map_app. simpl. rewrite elem_of_app, list_elem_of_singleton. naive_solver. }
  destruct (beforeAdd actions), (afterAdd actions); simpl; apply H.
Qed.

Lemma rebase_add_entityIds actions e p :
  entityIds (rebase_add instantiatePlugin actions e p) = entityIds p.
Proof. unfold rebase_add. by destruct (beforeAdd actions), (afterAdd actions). Qed.

Lemma rebase_remove_keys actions e p id :
  id ∈ plugin_keys (rebase_remove actions e p) ↔ id ≠ e ∧ id ∈ plugin_keys p.
Proof.
  unfold rebase_remove, removeEntity, plugin_keys, Map_delete.
  assert (∀ m : list (ID * P),
            id ∈ map fst (List.filter (λ kv, negb (bool_decide (kv.1 = e))) m)
            ↔ id ≠ e ∧ id ∈ map fst m) as H.
  { intros m. induction m as [|[k v] m IH]; simpl.
    - rewrite elem_of_nil. naive_solver.
    - case_bool_decide; simpl; rewrite ?elem_of_cons, IH; naive_solver. }
  destruct (beforeRemove actions); simpl; apply H.
Qed.

Lemma rebase_remove_entityIds actions e p :
  entityIds (rebase_remove actions e p) = entityIds p.
Proof. unfold rebase_remove. by destruct (beforeRemove actions). Qed.

(** The first loop of the all-ids branch of [rebase]. *)
Lemma rebase_add_all actions l : ∀ p,
  let p1 := foldl (fun p' entityId =>
                     if bool_decide (plugin_hasEntity entityId p' = false)
                     then rebase_add instantiatePlugin actions entityId p' else p') p l in
  entityIds p1 = entityIds p ∧
  ∀ id, id ∈ plugin_keys p1 ↔ id ∈ plugin_keys p ∨ id ∈ l.
Proof.
  induction l as [|e l IH]; intros p; simpl.
  { split; [done|]. intros id. rewrite elem_of_nil. naive_solver. }
  destruct (IH (if bool_decide (plugin_hasEntity e p = false)
                then rebase_add instantiatePlugin actions e p else p)) as [He Hk].
  split.
  - rewrite He. case_bool_decide; [apply rebase_add_entityIds|done].
  - intros id. rewrite Hk, elem_of_cons. case_bool_decide as Hhas.
    + rewrite rebase_add_keys. naive_solver.
    + assert (e ∈ plugin_keys p).
      { apply plugin_hasEntity_keys. by destruct (plugin_hasEntity e p). }
      naive_solver.
Qed.

(** The [forEach] of the all-ids branch of [rebase]. *)
Lemma rebase_remove_stale actions l (m : list (ID * P)) : ∀ p,
  let p2 := foldl (fun p' kv =>
                     if plugin_hasEntity kv.1 p'
                     then (if negb (includes l kv.1)
                           then rebase_remove actions kv.1 p' else p')
                     else p') p m in
  entityIds p2 = entityIds p ∧
  ∀ id, id ∈ plugin_keys p2 ↔ id ∈ plugin_keys p ∧ (id ∈ map fst m → id ∈ l).
Proof.
  induction m as [|[k v] m IH]; intros p; simpl.
  { split; [done|]. intros id. rewrite elem_of_nil. naive_solver. }
  match goal with |- context [foldl ?f ?p0 m] => destruct (IH p0) as [He Hk] end.
  split.
  - rewrite He. destruct (plugin_hasEntity k p); [|done].
    destruct (includes l k); simpl; [done|apply rebase_remove_entityIds].
  - intros id. rewrite Hk, elem_of_cons.
    destruct (plugin_hasEntity k p) eqn:Hhas.
    + unfold includes. case_bool_decide as Hin; simpl.
      * naive_solver.
      * rewrite rebase_remove_keys. naive_solver.
    + apply plugin_hasEntity_false in Hhas. naive_solver.
Qed.

(** A reconciliation in all-ids mode leaves exactly the satellites of the
    ids it is given. *)
Lemma rebase_all_ids actions l queryIds p :
  entityIds p = None → toBoolean l = true →
  let p' := rebase toBoolean instantiatePlugin (Some l) actions queryIds p in
  entityIds p' = None ∧ ∀ id, id ∈ plugin_keys p' ↔ id ∈ l.
Proof.
  intros He Htb p'. unfold p', rebase. rewrite Htb, He. unfold forEach.
  set (p1 := foldl _ p l).
  destruct (rebase_add_all actions l p) as [He1 Hk1]. fold p1 in He1, Hk1.
  destruct (rebase_remove_stale actions l (plugin_entities p1) p1) as [He2 Hk2].
  split; [congruence|].
  intros id. rewrite Hk2, Hk1. split; [|naive_solver].
  intros [[Hp|Hl] Hm]; [|done]. apply Hm, Hk1. by left.
Qed.

(** The seed loop appends a satellite for each id without one and does
    nothing else. *)
Lemma seed_loop l : ∀ p,
  let p' := foldl (fun p' id =>
                     if plugin_hasEntity id p' then p'
                     else createEntity id (instantiatePlugin id) (emit (EvInstantiate id) p'))
                  p l in
  ∃ created,
    plugin_entities p' =
      plugin_entities p ++ map (fun id => (id, instantiatePlugin id)) created ∧
    plugin_events p' = plugin_events p ++ map EvInstantiate created ∧
    entityIds p' = entityIds p ∧
    ∀ id, id ∈ created ↔ id ∈ l ∧ plugin_hasEntity id p = false.
Proof.
  induction l as [|e l IH]; intros p; simpl.
  { exists []. simpl. rewrite !app_nil_r. repeat (split; [done|]).
    intros id. rewrite !elem_of_nil. naive_solver. }
  destruct (plugin_hasEntity e p) eqn:Hhas.
  - destruct (IH p) as (created & Hm & Hev & He & Hc).
    exists created. repeat (split; [done|]).
    intros id. rewrite Hc, elem_of_cons. split; [naive_solver|].
    intros [[->|?] Hf]; [congruence|done].
  - destruct (IH (createEntity e (instantiatePlugin e) (emit (EvInstantiate e) p)))
      as (created & Hm & Hev & He & Hc).
    assert (Map_set e (instantiatePlugin e) (plugin_entities p)
            = plugin_entities p ++ [(e, instantiatePlugin e)]) as Hset.
    { unfold Map_set. unfold plugin_hasEntity in Hhas. by rewrite Hhas. }
    exists (e :: created). simpl in *.
    rewrite Hm, Hev, He, Hset, <- !app_assoc. repeat (split; [done|]).
    intros id. rewrite !elem_of_cons, Hc.
    assert (plugin_hasEntity id
              (createEntity e (instantiatePlugin e) (emit (EvInstantiate e) p)) = false
            ↔ id ≠ e ∧ plugin_hasEntity id p = false) as ->.
    { rewrite !plugin_hasEntity_false. unfold plugin_keys. simpl. rewrite Hset, map_app.
      simpl. rewrite elem_of_app, list_elem_of_singleton. naive_solver. }
    destruct (decide (id = e)) as [->|Hne]; naive_solver.
Qed.

(** A plugin constructed in all-ids mode on a collection with the ids
    [ids0], then reconciled with each of the id lists of [changes], all of
    them non-empty: the ids with a satellite are those of the last list. *)
Lemma reconcile_id_lists (ids0 : list ID) (changes : list (list ID)) :
  (∀ l, l ≠ [] → toBoolean l = true) →
  Forall (fun l => l ≠ []) changes →
  ∀ id,
    plugin_hasEntity id
      (foldl (on_ids toBoolean instantiatePlugin)
         (EntityStateHistoryPlugin_new toBoolean instantiatePlugin None ids0) changes) = true
    ↔ id ∈ default ids0 (last changes).
Proof.
  intros Htb Hne.
  assert (∀ p current,
            entityIds p = None → (∀ id, id ∈ plugin_keys p ↔ id ∈ current) →
            ∀ id, id ∈ plugin_keys (foldl (on_ids toBoolean instantiatePlugin) p changes)
                  ↔ id ∈ default current (last changes)) as H.
  { induction changes as [|l ls IH]; intros p current He Hk; [done|].
    apply Forall_cons in Hne as [Hl Hls]. simpl.
    destruct (rebase_all_ids noActions l l p He (Htb l Hl)) as [He' Hk'].
    intros id. rewrite (IH Hls _ l He' Hk').
    rewrite last_cons. by destruct (last ls). }
  intros id. rewrite plugin_hasEntity_keys. apply H.
  - unfold EntityStateHistoryPlugin_new, activate, rebase, rebase_seed, getIds. simpl.
    destruct (seed_loop ids0 (mkPlugin [] None [])) as (created & _ & _ & He & _).
    exact He.
  - intros k. unfold EntityStateHistoryPlugin_new, activate, rebase, rebase_seed, getIds.
    simpl.
    destruct (seed_loop ids0 (mkPlugin [] None [])) as (created & Hm & _ & _ & Hc).
    simpl in *. unfold plugin_keys. rewrite Hm.
    rewrite map_map. simpl. rewrite map_id, Hc.
    unfold plugin_hasEntity, Map_has. simpl. split; [naive_solver|].
    intros Hk. by split.
Qed.

(** C8, as the code has it.  With a [changedIds] that is absent or that
    [toBoolean] rejects, on the first call or on a later one, [rebase]
    runs the seed path: every satellite is kept, none is destroyed and no
    callback is called, and a satellite is created for each tracked id
    without one; nothing at all happens when every tracked id has a
    satellite. *)
Theorem rebase_falsy_seeds (l : option (list ID)) actions queryIds p :
  falsy toBoolean l = true →
  let p' := rebase toBoolean instantiatePlugin l actions queryIds p in
  (∃ created,
     plugin_entities p' =
       plugin_entities p ++ map (fun id => (id, instantiatePlugin id)) created ∧
     plugin_events p' = plugin_events p ++ map EvInstantiate created ∧
     entityIds p' = entityIds p ∧
     ∀ id, id ∈ created ↔ id ∈ getIds queryIds p ∧ plugin_hasEntity id p = false) ∧
  ((∀ id, id ∈ getIds queryIds p → plugin_hasEntity id p = true) → p' = p).
Proof.
  intros Hf p'.
  assert (p' = rebase_seed instantiatePlugin queryIds p) as ->.
  { unfold p', rebase. destruct l as [l'|]; [|done]. simpl in Hf.
    by destruct (toBoolean l'). }
  unfold rebase_seed.
  destruct (seed_loop (getIds queryIds p) p) as (created & Hm & Hev & He & Hc).
  split; [by exists created|].
  intros Hall.
  assert (created = []) as ->.
  { apply elem_of_nil_inv. intros id [Hin Hhas]%Hc. apply Hall in Hin. congruence. }
  simpl in *. rewrite app_nil_r in Hm, Hev.
  match goal with |- ?q = p => destruct q, p; simpl in *; congruence end.
Qed.

End PluginFacts.

(** C10.  [hasPast(id)] and [hasFuture(id)] return the flags of the
    satellite of [id], and [undefined] when [id] has no satellite. *)
Theorem hasPast_hasFuture_untracked (p : EntityCollectionPlugin StateHistoryPlugin) (id : ID) :
  EntityStateHistoryPlugin.hasPast id p =
    match getEntity id p with
    | Some s => VBool (hasPast s)
    | None => VUndefined
    end ∧
  EntityStateHistoryPlugin.hasFuture id p =
    match getEntity id p with
    | Some s => VBool (hasFuture s)
    | None => VUndefined
    end ∧
  (plugin_hasEntity id p = false ↔ getEntity id p = None).
Proof.
  unfold EntityStateHistoryPlugin.hasPast, EntityStateHistoryPlugin.hasFuture.
  assert (plugin_hasEntity id p = false ↔ getEntity id p = None) as H.
  { unfold plugin_hasEntity, getEntity, Map_has, Map_get.
    rewrite bool_decide_eq_false.
    induction (plugin_entities p) as [|[k v] m IH]; simpl.
    - split; [done|]. intros _. apply not_elem_of_nil.
    - rewrite not_elem_of_cons. case_bool_decide; simpl in *; naive_solver. }
  split; [|split; [|done]].
  - destruct (plugin_hasEntity id p); [done|]. by rewrite (proj1 H).
  - destruct (plugin_hasEntity id p); [done|]. by rewrite (proj1 H).
Qed.

(** ** A plugin that follows its collection *)

Section CollectionFacts.
Implicit Types (w : EWorld) (v : EntityState) (log : list EntityState).

(** Outside a transaction [_setState] dispatches at once. *)
Lemma setState_synced self w v log f :
  synced self w v log → synced self (_setState self f w) (f v) (log ++ [f v]).
Proof.
  intros (Hd & st & Hi & Hv & Hst).
  pose proof (lookup_lt_Some _ _ _ Hi) as Hlt.
  unfold _setState. rewrite Hi, Hst.
  unfold isTransactionInProcess. change (depth (set_object _ _ w)) with (depth w).
  rewrite Hd. simpl. unfold dispatch. simpl.
  rewrite list_lookup_insert_eq by done. simpl.
  split; [done|]. simpl. rewrite list_insert_insert_eq.
  rewrite list_lookup_insert_eq by done.
  eexists. split; [reflexivity|]. simpl. rewrite Hst, Hv. by split.
Qed.

Lemma setHasCache_synced self w v log b :
  synced self w v log → synced self (setHasCache self b w) v log.
Proof.
  intros (Hd & st & Hi & Hv & Hst). unfold setHasCache. rewrite Hi.
  case_bool_decide; [|by split; [|exists st]].
  split; [done|]. simpl. rewrite list_lookup_insert_eq by by eapply lookup_lt_Some.
  eexists. by split; [reflexivity|].
Qed.

Lemma entityActions_next_synced self w v log a :
  synced self w v log → synced self (EntityStore.entityActions_next self a w) v log.
Proof.
  intros (Hd & st & Hi & Hv & Hst). unfold EntityStore.entityActions_next. rewrite Hi.
  split; [done|]. simpl. rewrite list_lookup_insert_eq by by eapply lookup_lt_Some.
  eexists. by split; [reflexivity|].
Qed.

(** Each operation emits the new state once, or does nothing. *)
Lemma run_op_synced self op w v log :
  synced self w v log →
  ∃ v' new, synced self (run_op self op w) v' (log ++ new) ∧
            (new = [] ∧ v' = v ∨ new = [v']).
Proof.
  intros H. pose proof H as (Hd & st & Hi & Hv & Hst).
  assert (∃ v' new, synced self w v' (log ++ new) ∧ (new = [] ∧ v' = v ∨ new = [v'])) as Hnone.
  { exists v, []. rewrite app_nil_r. split; [done|by left]. }
  destruct op as [src|es options|t]; simpl.
  - unfold EntityStore.set. destruct src as [src|]; [|done]. rewrite Hi.
    unfold EntityStore.updateCache.
    match goal with |- context [_setState self ?f w] =>
      pose proof (setHasCache_synced _ _ _ _ true (setState_synced self w v log f H)) as H2
    end.
    pose proof H2 as (_ & st2 & -> & _ & _).
    eexists _, [_]. split; [by apply entityActions_next_synced|by right].
  - unfold EntityStore.add. destruct (isEmpty _); [done|]. rewrite Hi.
    destruct (addEntities _ _ _ _ _) as [data|]; [|done].
    eexists _, [_]. split; [|by right].
    apply entityActions_next_synced. by apply (setState_synced self w v log (fun _ => _)).
  - unfold EntityStore.remove. rewrite Hi.
    destruct (isEmpty (Some _)); [done|].
    destruct (EntityStore.remove_ids (storeValue st) t) as [l|].
    + destruct (isEmpty (Some l)); [done|].
      eexists _, [_]. split; [|by right].
      apply entityActions_next_synced.
      by apply (setState_synced self w v log (fun state => removeEntities state (Some l))).
    + simpl. eexists _, [_]. split; [|by right].
      apply entityActions_next_synced, setHasCache_synced.
      by apply (setState_synced self w v log (fun state => removeEntities state None)).
Qed.

Lemma run_ops_synced self ops : ∀ w v log,
  synced self w v log →
  ∃ v' new, synced self (run_ops self ops w) v' (log ++ new) ∧ v' = default v (last new).
Proof.
  induction ops as [|op ops IH]; intros w v log H; simpl.
  { exists v, []. rewrite app_nil_r. by split. }
  destruct (run_op_synced self op w v log H) as (v1 & new1 & H1 & Hn1).
  destruct (IH _ _ _ H1) as (v2 & new2 & H2 & Hv2).
  exists v2, (new1 ++ new2). rewrite app_assoc. split; [done|].
  rewrite Hv2, last_app. destruct (last new2); [done|]. simpl.
  by destruct Hn1 as [[-> ->]| ->].
Qed.

End CollectionFacts.

Section PluginFollowsCollection.
Context {P : Type}.
Variable toBoolean : list ID → bool.
Variable instantiatePlugin : ID → P.

Lemma new_plugin_all_ids (ids0 : list ID) :
  let p := EntityStateHistoryPlugin_new toBoolean instantiatePlugin None ids0 in
  entityIds p = None ∧ ∀ id, id ∈ plugin_keys p ↔ id ∈ ids0.
Proof.
  unfold EntityStateHistoryPlugin_new, activate, rebase, rebase_seed, getIds. simpl.
  destruct (seed_loop toBoolean instantiatePlugin ids0 (mkPlugin [] None []))
    as (created & Hm & _ & He & Hc).
  simpl in *. split; [exact He|].
  intros id. unfold plugin_keys. rewrite Hm, map_map. simpl. rewrite map_id, Hc.
  unfold plugin_hasEntity, Map_has. simpl. naive_solver.
Qed.

(** Whatever [distinctUntilChanged] drops, the satellites follow the id
    list emitted last. *)
Lemma delivered_reconcile lst emitted ds :
  (∀ l, l ≠ [] → toBoolean l = true) →
  delivered lst emitted ds →
  Forall (fun l => l ≠ []) emitted →
  ∀ p : EntityCollectionPlugin P,
    entityIds p = None → (∀ id, id ∈ plugin_keys p ↔ id ∈ lst) →
    ∀ id, id ∈ plugin_keys (foldl (on_ids toBoolean instantiatePlugin) p ds)
          ↔ id ∈ default lst (last emitted).
Proof.
  intros Htb Hd. induction Hd as [lst|lst l emitted ds Hd IH|lst emitted ds Hd IH];
    intros Hne p He Hk.
  - done.
  - apply Forall_cons in Hne as [Hl Hne]. simpl foldl.
    destruct (rebase_all_ids toBoolean instantiatePlugin noActions l l p He (Htb l Hl))
      as [He' Hk'].
    intros id. rewrite (IH Hne _ He' Hk'), last_cons. by destruct (last emitted).
  - apply Forall_cons in Hne as [Hl Hne].
    intros id. rewrite (IH Hne p He Hk), last_cons. by destruct (last emitted).
Qed.

(** C3.  A plugin is constructed in all-ids mode on the collection of the
    store [self], outside a transaction; then any sequence of [set], [add]
    and [remove] runs, and every state the store emits has a non-empty
    [ids], which [toBoolean] accepts.  Whatever the subscription of the
    plugin receives of the emitted id lists, the ids with a satellite are
    exactly the ids now in the collection. *)
Theorem all_ids_reconciliation self w v log ops v' new ds :
  (∀ l, l ≠ [] → toBoolean l = true) →
  synced self w v log →
  synced self (run_ops self ops w) v' (log ++ new) →
  Forall (fun s => ids s ≠ []) new →
  delivered (ids v) (ids <$> new) ds →
  ∀ id,
    plugin_hasEntity id
      (foldl (on_ids toBoolean instantiatePlugin)
         (EntityStateHistoryPlugin_new toBoolean instantiatePlugin None (ids v)) ds) = true
    ↔ id ∈ ids v'.
Proof.
  intros Htb Hw Hw' Hne Hd id.
  destruct (run_ops_synced self ops w v log Hw) as (v2 & new2 & Hw2 & Hv2).
  assert (v' = v2 ∧ new = new2) as [-> ->].
  { destruct Hw' as (_ & st1 & Hi1 & Hv1 & Hs1), Hw2 as (_ & st2 & Hi2 & Hv2' & Hs2).
    assert (st1 = st2) as -> by congruence.
    rewrite Hs1 in Hs2. injection Hs2 as E1 E2.
    split; [done|]. by apply app_inv_head in E2. }
  destruct (new_plugin_all_ids (ids v)) as [He Hk].
  rewrite plugin_hasEntity_keys.
  rewrite (delivered_reconcile (ids v) (ids <$> new2) ds Htb Hd); [| |exact He|exact Hk].
  - rewrite Hv2, fmap_last. by destruct (last new2).
  - by apply Forall_fmap.
Qed.

End PluginFollowsCollection.

(** ** Instances on concrete objects *)

(** C8 fails as stated.  A plugin that tracks the id 5 alone is
    constructed; the collection becomes [[7]] and the reconciliation
    destroys the satellite of 5; a later [activate()] without ids creates
    it again. *)
Lemma rebase_falsy_not_noop :
  let inst := fun _ : ID => tt in
  let p0 := EntityStateHistoryPlugin_new toBoolean_spec inst (Some (One (VNum 5))) [] in
  let p1 := on_ids toBoolean_spec inst p0 [VNum 7] in
  plugin_entities p0 = [(VNum 5, tt)] ∧
  plugin_entities p1 = [] ∧
  activate toBoolean_spec inst None [VNum 7] p1 ≠ p1 ∧
  plugin_entities (activate toBoolean_spec inst None [VNum 7] p1) = [(VNum 5, tt)].
Proof. vm_compute. repeat split; discriminate. Qed.

Lemma rebase_falsy_seeds_witness :
  let inst := fun _ : ID => tt in
  let p0 := EntityStateHistoryPlugin_new toBoolean_spec inst (Some (One (VNum 5))) [] in
  let p1 := on_ids toBoolean_spec inst p0 [VNum 7] in
  let p' := rebase toBoolean_spec inst None noActions [VNum 7] p1 in
  (∃ created,
     plugin_entities p' = plugin_entities p1 ++ map (fun id => (id, inst id)) created ∧
     plugin_events p' = plugin_events p1 ++ map EvInstantiate created ∧
     entityIds p' = entityIds p1 ∧
     ∀ id, id ∈ created ↔ id ∈ getIds [VNum 7] p1 ∧ plugin_hasEntity id p1 = false) ∧
  ((∀ id, id ∈ getIds [VNum 7] p1 → plugin_hasEntity id p1 = true) → p' = p1).
Proof.
  intros inst p0 p1.
  apply (rebase_falsy_seeds toBoolean_spec inst None noActions [VNum 7] p1).
  reflexivity.
Defined.

Lemma upsert_total_witness :
  ∃ st',
    heap (EntityStore.upsert 0 (One (VNum 7)) (Patch {[ "title" := VStr "n" ]})
            (EntityStore.mkUpsertOptions None) sample_world).2 !! 0%nat = Some st' ∧
    is_Some (entities (storeValue st') !! "7") ∧
    entities (storeValue st') !! "7" = Some {[ "id" := VNum 7; "title" := VStr "n" ]} ∧
    ids (storeValue st') = [VNum 1; VNum 7].
Proof.
  apply (upsert_total 0 sample_world sample_store (VNum 7) {[ "title" := VStr "n" ]});
    reflexivity.
Defined.

Lemma remove_noop_witness :
  EntityStore.remove 0 (TFn (fun _ => false)) sample_world = sample_world ∧
  ∃ st', heap (EntityStore.remove 0 (TIds (One (VNum 9))) sample_world) !! 0%nat = Some st' ∧
         ids (storeValue st') = [VNum 1] ∧
         entities (storeValue st') = {[ "1" := sample_entity ]}.
Proof.
  destruct (remove_noop 0 sample_world sample_store (TFn (fun _ => false)) (VNum 9) eq_refl)
    as (A & _ & C).
  split.
  - apply A. reflexivity.
  - apply C.
    + reflexivity.
    + intros H%list_elem_of_singleton. discriminate.
    + reflexivity.
Defined.

Lemma partial_remove_frame_witness :
  ∃ st', heap (EntityStore.remove 0 (TIds (One (VNum 1))) sample_world) !! 0%nat = Some st' ∧
         active (storeValue st') = ActiveOne (VNum 1) ∧
         cache_active st' = true.
Proof.
  destruct (partial_remove_frame 0 sample_world sample_store (TIds (One (VNum 1))) eq_refl)
    as (A & _).
  apply A. reflexivity.
Defined.

Lemma add_upsertMany_overwrite_loading_witness :
  (∃ st', heap (EntityStore.add 0 (One {[ "id" := VNum 2 ]}) None sample_world) !! 0%nat
          = Some st' ∧
     loading (storeValue st') = VBool false) ∧
  (∃ st', heap (EntityStore.upsertMany 0 [ {[ "id" := VNum 2 ]} ]
                  (Some (EntityStore.mkUpsertManyOptions None (VNum 1))) sample_world)
            !! 0%nat = Some st' ∧
     loading (storeValue st') = VBool true).
Proof.
  destruct (add_upsertMany_overwrite_loading 0 sample_world sample_store
              (One {[ "id" := VNum 2 ]}) None
              (mkAddEntitiesResult
                 (mkEntityState [VNum 1; VNum 2]
                    {[ "1" := sample_entity; "2" := {[ "id" := VNum 2 ]} ]}
                    (ActiveOne (VNum 1)) (VBool true) VNull)
                 [VNum 2])
              [ {[ "id" := VNum 2 ]} ]
              (Some (EntityStore.mkUpsertManyOptions None (VNum 1)))
              eq_refl)
    as ((st1 & H1 & _ & _ & L1) & (st2 & H2 & L2)).
  - discriminate.
  - reflexivity.
  - split; [exists st1|exists st2]; split; try done. by apply L1.
Defined.

Lemma upsertMany_scenario_witness :
  ∃ st',
    heap (EntityStore.upsertMany 0
            [ {[ "id" := VNum 1; "title" := VStr "x" ]};
              {[ "id" := VNum 3; "title" := VStr "y" ]} ] None
            (EntityStore.set 0 (Some (SetArray [ {[ "id" := VNum 1 ]}; {[ "id" := VNum 2 ]} ]))
               sample_world)) !! 0%nat = Some st' ∧
    ids (storeValue st') = [VNum 1; VNum 2; VNum 3] ∧
    entities (storeValue st') =
      {[ "1" := spread {[ "id" := VNum 1 ]} {[ "id" := VNum 1; "title" := VStr "x" ]};
         "2" := {[ "id" := VNum 2 ]};
         "3" := {[ "id" := VNum 3; "title" := VStr "y" ]} ]}.
Proof.
  apply (upsertMany_scenario 0 sample_world sample_store {[ "id" := VNum 1 ]}
           {[ "id" := VNum 2 ]}); reflexivity.
Defined.

(** Outside a transaction every mutation is a notification of its own. *)
Example two_mutations_without_transaction :
  let w := mkWorld (mkTransactionManager 0 None) false 0%nat
             [mkStore 5%nat (Some (mkBehaviorSubject 5%nat [])) false false tt] in
  let c := Seq (SetState 0 (fun n => n + 1)%nat) (SetState 0 (fun n => n * 2)%nat) in
  (store <$> heap (exec c w).2 !! 0%nat) = Some (Some (mkBehaviorSubject 12%nat [6%nat; 12%nat])) ∧
  (store <$> heap (exec (Transaction c) w).2 !! 0%nat)
    = Some (Some (mkBehaviorSubject 12%nat [12%nat])).
Proof. split; reflexivity. Qed.

(** Removing an id that is not there, from a collection that is not
    empty, still writes a state (with the same [ids] and [entities]) and
    emits it together with a [Remove] action. *)
Example remove_absent_id_writes :
  let w' := EntityStore.remove 0 (TIds (One (VNum 9))) sample_world in
  (bs_emitted <$> (heap w' !! 0%nat ≫= store)) = Some [sample_state] ∧
  (entityActions ∘ ext <$> heap w' !! 0%nat) = Some [mkEntityAction ActRemove (Some [VNum 9])].
Proof. split; reflexivity. Qed.

(** The merged entity of scenario A. *)
Example upsert_scenario_A :
  (entities ∘ storeValue <$>
     heap (EntityStore.upsert 0 (One (VNum 1)) (Patch {[ "title" := VStr "new" ]})
             (EntityStore.mkUpsertOptions None) sample_world).2 !! 0%nat)
  = Some {[ "1" := {[ "id" := VNum 1; "title" := VStr "new" ]} ]}.
Proof. reflexivity. Qed.

(** A store of numbers, mutated twice, the second time in a nested
    transaction. *)
Lemma transaction_single_notification_witness :
  let w := mkWorld (mkTransactionManager 0 None) false 0%nat
             [mkStore 5%nat (Some (mkBehaviorSubject 5%nat [])) false false tt] in
  let c := Seq (SetState 0 (fun n => n + 1)%nat)
               (Transaction (SetState 0 (fun n => n * 2)%nat)) in
  ∃ w2 st2 w' st',
    exec c (startBatch w) = (Ok tt, w2) ∧
    heap w2 !! 0%nat = Some st2 ∧ store st2 = Some (mkBehaviorSubject 5%nat []) ∧
    endBatch w2 = (Ok tt, w') ∧
    exec (Transaction c) w = (Ok tt, w') ∧
    heap w' !! 0%nat = Some st' ∧
    storeValue st' = 12%nat ∧
    store st' = Some (mkBehaviorSubject (storeValue st') ([] ++ [storeValue st'])) ∧
    inTransaction st' = false ∧ depth w' = 0.
Proof.
  intros w c.
  apply (transaction_single_notification c 0%nat w
           (mkStore 5%nat (Some (mkBehaviorSubject 5%nat [])) false false tt)
           (mkBehaviorSubject 5%nat [])).
  - reflexivity.
  - reflexivity.
  - reflexivity.
  - reflexivity.
  - simpl. lia.
Defined.

(** An outer transaction mutates a store, then an inner transaction
    mutates it again and throws. *)
Lemma applyTransaction_cleanup_witness :
  let w0 := mkWorld (mkTransactionManager 0 None) false 0%nat
              [mkStore 5%nat (Some (mkBehaviorSubject 5%nat [])) false false tt] in
  let pre := SetState 0 (fun n => n + 1)%nat in
  let c := Seq (SetState 0 (fun n => n * 2)%nat) (Throw (Thrown 7)) in
  let w := (exec pre (startBatch w0)).2 in
  let w2 := (exec c (startBatch w)).2 in
  ∃ w3 w4,
    endBatch w2 = (Ok tt, w3) ∧
    depth w3 = depth w2 - 1 ∧ depth w3 = depth w ∧
    applyTransaction (exec c) w = (Err (Thrown 7), w3) ∧
    endBatch w3 = (Ok tt, w4) ∧
    exec (Transaction (Seq pre (Transaction c))) w0 = (Err (Thrown 7), w4) ∧
    quiescent w4 = true ∧
    ∀ i st, heap w3 !! i = Some st →
      heap w4 !! i = Some (if inTransaction st then released st else st).
Proof.
  intros w0 pre c w w2.
  apply (applyTransaction_cleanup pre c w0 w w2 (Thrown 7)).
  - reflexivity.
  - reflexivity.
  - reflexivity.
Defined.

(** An entity is added to the sample collection, then entity 1 is
    removed; the subscription receives both id lists. *)
Lemma all_ids_reconciliation_witness :
  let inst := fun _ : ID => tt in
  let ops := [OpAdd (One {[ "id" := VNum 2 ]}) None; OpRemove (TIds (One (VNum 1)))] in
  let w' := run_ops 0 ops sample_world in
  let v' := default sample_state (storeValue <$> heap w' !! 0%nat) in
  let new := default [] (bs_emitted <$> (heap w' !! 0%nat ≫= store)) in
  ids v' = [VNum 2] ∧
  (plugin_hasEntity (VNum 2)
     (foldl (on_ids toBoolean_spec inst)
        (EntityStateHistoryPlugin_new toBoolean_spec inst None (ids sample_state))
        (ids <$> new)) = true
   ↔ VNum 2 ∈ ids v').
Proof.
  intros inst ops w' v' new. split; [reflexivity|].
  apply (all_ids_reconciliation toBoolean_spec inst 0%nat sample_world sample_state []
           ops v' new (ids <$> new)).
  - intros [|x l] H; [done|reflexivity].
  - split; [reflexivity|]. exists sample_store. repeat split; reflexivity.
  - split; [reflexivity|]. eexists. split; [reflexivity|]. split; reflexivity.
  - repeat constructor; discriminate.
  - repeat constructor.
Defined.

(** A store made by the constructor holds its initial state in its subject
    and has emitted nothing; constructed inside a transaction and mutated
    there twice, it emits once when the transaction ends. *)
Example constructed_in_transaction :
  let w0 : World nat unit := mkWorld (mkTransactionManager 0 None) false 0%nat [] in
  let w1 := (Store_new 5%nat tt (startBatch w0)).2 in
  let w2 := _setState 0 (fun n => n * 2)%nat (_setState 0 (fun n => n + 1)%nat w1) in
  (store <$> heap w1 !! 0%nat) = Some (Some (mkBehaviorSubject 5%nat [])) ∧
  (store <$> heap w2 !! 0%nat) = Some (Some (mkBehaviorSubject 5%nat [])) ∧
  (store <$> heap (endBatch w2).2 !! 0%nat)
    = Some (Some (mkBehaviorSubject 12%nat [12%nat])).
Proof. repeat split; reflexivity. Qed.

(** A transaction whose action throws at the top level still ends with
    depth 0 and emits what was written before the exception. *)
Example throwing_transaction :
  let w := mkWorld (mkTransactionManager 0 None) false 0%nat
             [mkStore 5%nat (Some (mkBehaviorSubject 5%nat [])) false false tt] in
  let c := Seq (SetState 0 (fun n => n + 1)%nat)
               (Seq (Throw (Thrown 3)) (SetState 0 (fun n => n * 2)%nat)) in
  (exec (Transaction c) w).1 = Err (Thrown 3) ∧
  depth (exec (Transaction c) w).2 = 0 ∧
  (store <$> heap (exec (Transaction c) w).2 !! 0%nat)
    = Some (Some (mkBehaviorSubject 6%nat [6%nat])).
Proof. repeat split; reflexivity. Qed.

(** * Further properties of the code *)

(** ** Transactions *)

Section MoreTransactionFacts.
Context {State X : Type}.
Implicit Types (w : World State X) (st : Store State X) (c : @Program State).

(** The cleanup of [applyTransaction] after the body of a program. *)
Lemma endBatch_after_body c w r w2 :
  exec c (startBatch w) = (r, w2) →
  ∃ w3, endBatch w2 = (Ok tt, w3) ∧ depth w3 = depth w.
Proof.
  intros E2. destruct (exec_balanced c _ _ _ E2) as [Hd2 Hb2].
  assert (depth (startBatch w) = depth w + 1) as Hd1 by done.
  assert (depth w ≤ 0 → is_Some (batch w2)) as Hsome.
  { intros H. apply Hb2. unfold startBatch, batch, isTransactionInProcess. simpl.
    destruct (Z.ltb_spec 0 (depth w)); [lia|eauto]. }
  unfold endBatch.
  replace (activeTransactions (transactionManager w2) - 1) with (depth w)
    by (unfold depth in *; lia).
  destruct (Z.eqb_spec (depth w) 0) as [E0|Hne].
  - destruct Hsome as [sub Hsub]; [lia|]. unfold batch in Hsub.
    rewrite Hsub, Subject_next_manager. simpl. eauto.
  - eauto.
Qed.

(** X1.  [applyTransaction] around any program, in any world: the cleanup
    never raises, the completion of the action (its value or its
    exception) is the completion of the transaction, and the counter is
    what it was before. *)
Theorem applyTransaction_transparent c w :
  ∃ w3,
    exec (Transaction c) w = ((exec c (startBatch w)).1, w3) ∧
    endBatch (exec c (startBatch w)).2 = (Ok tt, w3) ∧
    depth w3 = depth w.
Proof.
  destruct (exec c (startBatch w)) as [r w2] eqn:E2.
  destruct (endBatch_after_body c w r w2 E2) as (w3 & E3 & Hd).
  exists w3. simpl. unfold applyTransaction. by rewrite E2, E3.
Qed.

(** While a transaction is in process a constructed store that does not
    wait for the batch has not been mutated. *)
Lemma exec_batch_value c : ∀ w r w',
  batch_open w → exec c w = (r, w') →
  ∀ j st, heap w !! j = Some st → is_Some (store st) →
    ∃ st', heap w' !! j = Some st' ∧ is_Some (store st') ∧
      (inTransaction st' = false → storeValue st' = storeValue st).
Proof.
  induction c as [|c1 IH1 c2 IH2|i f|body IH|e|body IHb handler IHh];
    intros w r w' Hw Hex j st Hj Hst; simpl in Hex.
  - injection Hex as <- <-. by exists st.
  - destruct (exec c1 w) as [[u|e] w1] eqn:E1.
    + destruct (exec_batch_open c1 _ _ _ Hw E1) as (Hw1 & _ & _).
      destruct (IH1 _ _ _ Hw E1 j st Hj Hst) as (st1 & Hj1 & Hst1 & Hv1).
      destruct (IH2 _ _ _ Hw1 Hex j st1 Hj1 Hst1) as (st2 & Hj2 & Hst2 & Hv2).
      destruct (exec_batch_open c2 _ _ _ Hw1 Hex) as (_ & _ & Hh).
      destruct (Hh j st1 Hj1) as (st2' & Hj2' & (_ & Hin & _)).
      assert (st2' = st2) as -> by congruence.
      exists st2. repeat split; [done..|]. intros Hf.
      rewrite Hv2 by done. apply Hv1.
      destruct (inTransaction st1); [|done]. rewrite Hin in Hf; done.
    + injection Hex as <- <-. by apply (IH1 _ _ _ Hw E1).
  - injection Hex as <- <-.
    pose proof Hw as (Hd & sub & Hb & Hstop & _).
    destruct (decide (i = j)) as [->|Hne].
    + destruct Hst as [b Hb']. rewrite (setState_batch w j f st b sub) by done. simpl.
      rewrite list_lookup_insert_eq by by eapply lookup_lt_Some.
      eexists. split; [reflexivity|]. simpl. split; [eauto|done].
    + exists st. repeat split; [|done..].
      destruct (heap w !! i) as [sti|] eqn:Hi; [|by rewrite setState_missing].
      destruct (store sti) as [bi|] eqn:Hsti.
      * rewrite (setState_batch w i f sti bi sub) by done. simpl.
        by rewrite list_lookup_insert_ne.
      * rewrite (setState_unconstructed w i f sti) by done. simpl.
        by rewrite list_lookup_insert_ne.
  - unfold applyTransaction in Hex.
    destruct (startBatch_batch_open w Hw) as (Hw1 & Hd1 & Hh1).
    destruct (exec body (startBatch w)) as [r2 w2] eqn:E2.
    destruct (exec_batch_open body _ _ _ Hw1 E2) as (Hw2 & Hd2 & _).
    rewrite endBatch_nested in Hex by (destruct Hw as [? _]; lia).
    injection Hex as <- <-. simpl.
    rewrite <- Hh1 in Hj. by apply (IH _ _ _ Hw1 E2).
  - injection Hex as <- <-. by exists st.
  - destruct (exec body w) as [[u|e] w1] eqn:E1.
    + injection Hex as <- <-. by apply (IHb _ _ _ Hw E1).
    + destruct (exec_batch_open body _ _ _ Hw E1) as (Hw1 & _ & _).
      destruct (IHb _ _ _ Hw E1 j st Hj Hst) as (st1 & Hj1 & Hst1 & Hv1).
      destruct (IHh _ _ _ Hw1 Hex j st1 Hj1 Hst1) as (st2 & Hj2 & Hst2 & Hv2).
      destruct (exec_batch_open handler _ _ _ Hw1 Hex) as (_ & _ & Hh).
      destruct (Hh j st1 Hj1) as (st2' & Hj2' & (_ & Hin & _)).
      assert (st2' = st2) as -> by congruence.
      exists st2. repeat split; [done..|]. intros Hf.
      rewrite Hv2 by done. apply Hv1.
      destruct (inTransaction st1); [|done]. rewrite Hin in Hf; done.
Qed.

(** X2.  One transaction, whatever its body does (nested transactions,
    exceptions, handlers): a constructed store is either exactly as it was
    or has emitted exactly one value, its state when the transaction ends;
    and no transaction is in process afterwards. *)
Theorem transaction_at_most_one_notification c w r w' i st b :
  quiescent w = true →
  heap w !! i = Some st → store st = Some b →
  exec (Transaction c) w = (r, w') →
  quiescent w' = true ∧
  ∃ st', heap w' !! i = Some st' ∧
    (st' = st ∨
     store st' = Some (mkBehaviorSubject (storeValue st')
                         (bs_emitted b ++ [storeValue st']))).
Proof.
  intros Hq Hi Hst Hex. simpl in Hex. unfold applyTransaction in Hex.
  destruct (startBatch_quiescent w Hq) as (Hw1 & Hd1 & Hh1).
  destruct (exec c (startBatch w)) as [r2 w2] eqn:E2.
  destruct (exec_batch_open c _ _ _ Hw1 E2) as (Hw2 & Hd2 & Hdef).
  destruct (endBatch_outermost w2 Hw2) as (w3 & E3 & Hq3 & Hh3); [congruence|].
  rewrite E3 in Hex. injection Hex as _ <-. split; [done|].
  rewrite <- Hh1 in Hi.
  destruct (Hdef i st Hi) as (st2 & Hi2 & (Hs2 & _ & Hc2 & Hx2)).
  destruct (exec_batch_value c _ _ _ Hw1 E2 i st Hi) as (st2' & Hi2' & _ & Hv2); [eauto|].
  assert (st2' = st2) as -> by congruence.
  rewrite (Hh3 i st2 Hi2). eexists. split; [reflexivity|].
  apply quiescent_spec in Hq as [_ Hall]. rewrite Hh1 in Hi.
  pose proof (Hall i st Hi) as Hin.
  destruct (inTransaction st2) eqn:Hin2.
  - right. simpl. by rewrite (Hs2 b Hst).
  - left. specialize (Hv2 eq_refl). specialize (Hs2 b Hst).
    destruct st2, st. simpl in *. congruence.
Qed.

Lemma effect_no_mutation c i (v : State) : mutations i c = 0%nat → effect i c v = v.
Proof.
  revert v. induction c as [|c1 IH1 c2 IH2|j f|body IH|e|body IHb handler IHh];
    intros v Hm; simpl in *; try done.
  - rewrite IH1, IH2; [done|lia..].
  - by destruct (decide (j = i)).
  - by apply IH.
  - rewrite IHb, IHh; [done|lia..].
Qed.

(** X3.  A store that a straight transaction does not mutate is left
    exactly as it was: nothing is emitted to its subscribers. *)
Theorem transaction_frame c w i st b :
  straight c = true →
  quiescent w = true →
  heap w !! i = Some st → store st = Some b →
  mutations i c = 0%nat →
  heap (exec (Transaction c) w).2 !! i = Some st.
Proof.
  intros Hs Hq Hi Hst Hm.
  destruct (startBatch_quiescent w Hq) as (Hw1 & Hd1 & Hh1).
  destruct (exec_straight c (startBatch w) Hs Hw1) as (w2 & E2 & Hh2).
  destruct (exec_batch_open c _ _ _ Hw1 E2) as (Hw2 & Hd2 & Hdef).
  destruct (endBatch_outermost w2 Hw2) as (w3 & E3 & _ & Hh3); [congruence|].
  simpl. unfold applyTransaction. rewrite E2, E3. simpl.
  pose proof Hi as Hi1. rewrite <- Hh1 in Hi1.
  destruct (Hh2 i st b Hi1 Hst) as (st2 & Hi2 & Hst2 & Hv2 & Hin2).
  destruct (Hdef i st Hi1) as (st2' & Hi2' & (_ & _ & Hc2 & Hx2)).
  assert (st2' = st2) as -> by congruence.
  apply quiescent_spec in Hq as [_ Hall]. pose proof (Hall i st Hi) as Hin.
  rewrite Hin, Hm in Hin2. simpl in Hin2.
  rewrite (Hh3 i st2 Hi2), Hin2. f_equal.
  rewrite effect_no_mutation in Hv2 by done.
  destruct st2, st. simpl in *. congruence.
Qed.




End MoreTransactionFacts.

(** ** [setLoading], [setError], [upsert], [upsertMany] and the active ids *)

Section MoreEntityStoreFacts.
Implicit Types (w : EWorld) (st : EStore) (v : EntityState) (b : BehaviorSubject EntityState).

Lemma setLoading_twice self arg w :
  setLoading self arg (setLoading self arg w) = setLoading self arg w.
Proof.
  destruct (heap w !! self) as [st|] eqn:Hi.
  2:{ unfold setLoading. by rewrite !Hi. }
  destruct (decide (match arg with VUndefined => VBool false | _ => arg end
                    ≠ loading (storeValue st))) as [Hne|Heq].
  - assert (setLoading self arg w =
            _setState self (fun state => set_loading
              match arg with VUndefined => VBool false | _ => arg end state) w) as ->.
    { unfold setLoading. rewrite Hi. by rewrite bool_decide_eq_true_2. }
    match goal with |- context [_setState self ?f w] =>
      destruct (setState_object w self f st Hi) as (st1 & Hi1 & Hv1 & _)
    end.
    unfold setLoading. rewrite Hi1, Hv1. simpl.
    rewrite bool_decide_eq_false_2; [done|]. intros H. by apply H.
  - assert (setLoading self arg w = w) as E; [|by rewrite !E].
    unfold setLoading. rewrite Hi. by rewrite bool_decide_eq_false_2.
Qed.

Lemma setError_twice self err w :
  setError self err (setError self err w) = setError self err w.
Proof.
  destruct (heap w !! self) as [st|] eqn:Hi.
  2:{ unfold setError. by rewrite !Hi. }
  destruct (decide (err ≠ error (storeValue st))) as [Hne|Heq].
  - assert (setError self err w =
            _setState self (fun state => set_error err state) w) as ->.
    { unfold setError. rewrite Hi. by rewrite bool_decide_eq_true_2. }
    match goal with |- context [_setState self ?f w] =>
      destruct (setState_object w self f st Hi) as (st1 & Hi1 & Hv1 & _)
    end.
    unfold setError. rewrite Hi1, Hv1. simpl.
    rewrite bool_decide_eq_false_2; [done|]. intros H. by apply H.
  - assert (setError self err w = w) as E; [|by rewrite !E].
    unfold setError. rewrite Hi. by rewrite bool_decide_eq_false_2.
Qed.

(** X5.  [setLoading] and [setError] write the state only when the value
    changes: called again with the same argument they do nothing, so a
    repeated call emits nothing; and afterwards the field holds the
    argument ([false] for [setLoading()]). *)
Theorem setLoading_setError_idempotent self arg err w st :
  heap w !! self = Some st →
  setLoading self arg (setLoading self arg w) = setLoading self arg w ∧
  setError self err (setError self err w) = setError self err w ∧
  (∃ st1, heap (setLoading self arg w) !! self = Some st1 ∧
          loading (storeValue st1) = match arg with VUndefined => VBool false | _ => arg end ∧
          (loading (storeValue st) = loading (storeValue st1) → setLoading self arg w = w)) ∧
  (∃ st2, heap (setError self err w) !! self = Some st2 ∧
          error (storeValue st2) = err ∧
          (error (storeValue st) = err → setError self err w = w)).
Proof.
  intros Hi. split; [apply setLoading_twice|]. split; [apply setError_twice|]. split.
  - unfold setLoading. rewrite Hi. case_bool_decide as Hne.
    + match goal with |- context [_setState self ?f w] =>
        destruct (setState_object w self f st Hi) as (st1 & Hi1 & Hv1 & _)
      end.
      exists st1. split; [done|]. rewrite Hv1. simpl. split; [done|].
      intros E. by destruct Hne.
    + exists st. split; [done|]. split; [|done].
      destruct (decide (match arg with VUndefined => VBool false | _ => arg end
                        = loading (storeValue st))); [done|by destruct Hne].
  - unfold setError. rewrite Hi. case_bool_decide as Hne.
    + match goal with |- context [_setState self ?f w] =>
        destruct (setState_object w self f st Hi) as (st1 & Hi1 & Hv1 & _)
      end.
      exists st1. split; [done|]. rewrite Hv1. simpl. split; [done|].
      intros E. by destruct Hne.
    + exists st. split; [done|]. split; [|done].
      destruct (decide (err = error (storeValue st))); [done|by destruct Hne].
Qed.

(** *** A store followed through one transaction *)

Lemma batch_open_set_object w i st st' :
  batch_open w → heap w !! i = Some st → inTransaction st' = inTransaction st →
  batch_open (set_object i st' w).
Proof.
  intros (Hd & sub & Hb & Hs & Hnd & Hobs) Hi Hin.
  pose proof (lookup_lt_Some _ _ _ Hi) as Hlt.
  split; [done|]. exists sub. repeat (split; [done|]).
  intros j. rewrite Hobs. simpl. destruct (decide (j = i)) as [->|Hne].
  - rewrite list_lookup_insert_eq by done. rewrite Hi.
    split; intros (s & [= <-] & H); eexists; (split; [reflexivity|]); congruence.
  - by rewrite list_lookup_insert_ne by done.
Qed.

Lemma in_batch_start self w st b :
  quiescent w = true → heap w !! self = Some st → store st = Some b →
  storeValue st = bs_value b →
  in_batch self (startBatch w) st (storeValue st) b false.
Proof.
  intros Hq Hi Hs Hv. destruct (startBatch_quiescent w Hq) as (Hbo & Hd & Hh).
  apply quiescent_spec in Hq as [_ Hall].
  split; [done|]. split; [done|]. exists st. rewrite Hh.
  repeat split; try done. by eapply Hall.
Qed.

Lemma in_batch_setState self w st v b t f :
  in_batch self w st v b t → in_batch self (_setState self f w) st (f v) b true.
Proof.
  intros (Hbo & Hd & st1 & Hi & Hv & Hs & Ht & Hx & _).
  destruct (setState_batch_open w self f Hbo) as (Hbo' & Hd' & _).
  split; [done|]. split; [congruence|].
  destruct Hbo as (Hpos & sub & Hb & Hst & _).
  rewrite (setState_batch w self f st1 b sub) by done. simpl.
  rewrite list_lookup_insert_eq by by eapply lookup_lt_Some.
  eexists. split; [reflexivity|]. simpl. rewrite Hv. repeat split; try done; apply Hx.
Qed.

Lemma in_batch_entityActions_next self w st v b t a :
  in_batch self w st v b t →
  in_batch self (EntityStore.entityActions_next self a w) st v b t.
Proof.
  intros (Hbo & Hd & st1 & Hi & Hv & Hs & Ht & Hx & Hvb).
  unfold EntityStore.entityActions_next. rewrite Hi.
  split; [by eapply batch_open_set_object|]. split; [done|].
  simpl. rewrite list_lookup_insert_eq by by eapply lookup_lt_Some.
  eexists. split; [reflexivity|]. repeat split; try done; apply Hx.
Qed.

Lemma in_batch_updatedEntityIds_next self w st v b t l :
  in_batch self w st v b t →
  in_batch self (EntityStore.updatedEntityIds_next self l w) st v b t.
Proof.
  intros (Hbo & Hd & st1 & Hi & Hv & Hs & Ht & Hx & Hvb).
  unfold EntityStore.updatedEntityIds_next. rewrite Hi.
  split; [by eapply batch_open_set_object|]. split; [done|].
  simpl. rewrite list_lookup_insert_eq by by eapply lookup_lt_Some.
  eexists. split; [reflexivity|]. repeat split; try done; apply Hx.
Qed.

Lemma in_batch_heap self w st v b t :
  in_batch self w st v b t →
  ∃ st1, heap w !! self = Some st1 ∧ storeValue st1 = v ∧
         same_config (ext st) (ext st1) ∧ in_batch self w st1 v b t.
Proof.
  intros (Hbo & Hd & st1 & Hi & Hv & Hs & Ht & Hx & Hvb).
  exists st1. do 3 (split; [done|]).
  split; [done|]. split; [done|]. exists st1. by repeat split.
Qed.

Lemma in_batch_config self w st st1 v b t :
  same_config (ext st) (ext st1) → in_batch self w st1 v b t → in_batch self w st v b t.
Proof.
  intros (A & B & C) (Hbo & Hd & st2 & Hi & Hv & Hs & Ht & (A2 & B2 & C2) & Hvb).
  split; [done|]. split; [done|]. exists st2. repeat split; try done; congruence.
Qed.

Lemma in_batch_or self w st v b t t' :
  t' = false → in_batch self w st v b t → in_batch self w st v b (t || t').
Proof. intros ->. by rewrite orb_false_r. Qed.

Lemma in_batch_update self w st v b t tg ns :
  in_batch self w st v b t →
  in_batch self (EntityStore.update self tg ns w) st (update_value (ext st) v tg ns) b
    (t || update_writes v tg).
Proof.
  intros H. destruct (in_batch_heap _ _ _ _ _ _ H) as (st1 & Hi & Hv & Hx & H1).
  apply (in_batch_config _ _ _ st1); [done|].
  unfold EntityStore.update, update_value, update_writes. rewrite Hi, Hv.
  destruct (isEmpty (Some (EntityStore.update_ids v tg))); simpl.
  { by apply in_batch_or. }
  rewrite orb_true_r.
  rewrite (akitaPreUpdateEntity_config _ _ Hx). destruct Hx as (-> & _).
  apply in_batch_entityActions_next, in_batch_updatedEntityIds_next.
  by apply (in_batch_setState self w st1 v b t
              (fun state => updateEntities _ _ _ state ns)).
Qed.

Lemma in_batch_add self w st v b t es options :
  in_batch self w st v b t →
  in_batch self (EntityStore.add self es options w) st (add_value (ext st) v es options) b
    (t || add_writes (ext st) v es options).
Proof.
  intros H. destruct (in_batch_heap _ _ _ _ _ _ H) as (st1 & Hi & Hv & Hx & H1).
  apply (in_batch_config _ _ _ st1); [done|].
  unfold EntityStore.add, add_value, add_writes. rewrite Hi, Hv.
  destruct (isEmpty (Some (coerceArray es))); simpl.
  { by apply in_batch_or. }
  rewrite (akitaPreAddEntity_config _ _ Hx). destruct Hx as (-> & _).
  destruct (addEntities _ _ _ _ _) as [data|].
  2:{ apply in_batch_or; [|done]. apply bool_decide_eq_false_2. by intros [? ?]. }
  rewrite bool_decide_eq_true_2 by done. rewrite orb_true_r.
  apply in_batch_entityActions_next.
  by apply (in_batch_setState self w st1 v b t (fun _ => _)).
Qed.

Lemma in_batch_end self w st v b t :
  in_batch self w st v b t →
  ∃ w', endBatch w = (Ok tt, w') ∧ quiescent w' = true ∧
    ∃ st', heap w' !! self = Some st' ∧ storeValue st' = v ∧
           store st' = Some (if t then bs_next v b else b) ∧
           same_config (ext st) (ext st').
Proof.
  intros (Hbo & Hd & st1 & Hi & Hv & Hs & Ht & Hx & Hvb).
  destruct (endBatch_outermost w Hbo Hd) as (w' & He & Hq & Hh).
  exists w'. split; [done|]. split; [done|].
  rewrite (Hh self st1 Hi). rewrite Ht. destruct t.
  - eexists. split; [reflexivity|]. simpl. rewrite Hs, Hv.
    repeat split; try done; apply Hx.
  - exists st1. repeat split; try done; apply Hx.
Qed.

Lemma filter_complement_nil {A} (f : A → bool) (l : list A) :
  List.filter f l = [] → List.filter (fun x => negb (f x)) l = [] → l = [].
Proof.
  destruct l as [|x l]; [done|]. simpl. by destruct (f x).
Qed.

Lemma addEntities_is_Some v f e es key options :
  is_Some (addEntities v f (e :: es) key options).
Proof.
  unfold addEntities. destruct (foldl _ _ (e :: es)) as [ne added]. by eexists.
Qed.

Lemma upsert_writes x v l ns options :
  let toArray := coerceArray l in
  let updateIds := List.filter (fun id => bool_decide (hasEntity (entities v) id = true))
                     toArray in
  let newEntities := EntityStore.upsert_newEntities (idKey x) (entities v) toArray ns options in
  update_writes v (TIds (Many updateIds)) ||
  add_writes x (update_value x v (TIds (Many updateIds)) ns) (Many newEntities) None
  = negb (isEmpty (Some toArray)).
Proof.
  intros toArray updateIds newEntities.
  unfold update_writes, add_writes. simpl.
  destruct updateIds as [|u us] eqn:Hu; simpl; [|by destruct toArray].
  destruct newEntities as [|e es] eqn:Hn; simpl.
  - unfold newEntities, EntityStore.upsert_newEntities in Hn.
    apply map_eq_nil in Hn.
    assert (toArray = []) as ->; [|done].
    apply (filter_complement_nil (fun id => bool_decide (hasEntity (entities v) id = true)));
      [done|].
    rewrite <- Hn. apply List.filter_ext. intros id.
    by destruct (hasEntity (entities v) id).
  - rewrite bool_decide_eq_true_2 by apply addEntities_is_Some.
    destruct toArray; [|done].
    unfold newEntities, EntityStore.upsert_newEntities in Hn. done.
Qed.

(** X6.  [upsert] runs [update] and [add] in one transaction: on a store
    outside any transaction it emits exactly one state, the final one, when
    at least one id is given (also when it both updates and adds), and
    nothing when none is given; it never raises and leaves no transaction
    in process. *)
Theorem upsert_single_notification self w st log l ns options :
  quiescent w = true → heap w !! self = Some st →
  store st = Some (mkBehaviorSubject (storeValue st) log) →
  let v' := upsert_value (ext st) (storeValue st) l ns options in
  ∃ w', EntityStore.upsert self l ns options w = (Ok tt, w') ∧ quiescent w' = true ∧
        synced self w' v' (if isEmpty (Some (coerceArray l)) then log else log ++ [v']).
Proof.
  intros Hq Hi Hs v'.
  pose proof (in_batch_start self w st _ Hq Hi Hs eq_refl) as H0.
  destruct (startBatch_quiescent w Hq) as (_ & _ & Hh).
  unfold EntityStore.upsert, applyTransaction, EntityStore.upsert_body.
  rewrite Hh, Hi.
  pose proof (in_batch_add _ _ _ _ _ _
    (Many (EntityStore.upsert_newEntities (idKey (ext st)) (entities (storeValue st))
             (coerceArray l) ns options)) None
    (in_batch_update _ _ _ _ _ _
       (TIds (Many (List.filter
          (fun id => bool_decide (hasEntity (entities (storeValue st)) id = true))
          (coerceArray l)))) ns H0)) as H2.
  simpl in H2. rewrite upsert_writes in H2.
  destruct (in_batch_end _ _ _ _ _ _ H2) as (w' & -> & Hq' & st' & Hi' & Hv' & Hs' & _).
  exists w'. split; [done|]. split; [done|].
  split; [by apply quiescent_spec in Hq' as [? _]|].
  exists st'. split; [done|]. split; [done|]. rewrite Hs'.
  destruct (isEmpty (Some (coerceArray l))) eqn:He; simpl; [|done].
  assert (v' = storeValue st) as ->; [|done].
  unfold v', upsert_value. by destruct (coerceArray l).
Qed.

(** *** [upsertMany] *)

Lemma upsertMany_acc key (current : gmap string Entity) opts es :
  let acc := foldl (EntityStore.upsertMany_step key current opts)
               (EntityStore.mkUpsertManyAcc [] [] ∅) es in
  EntityStore.addedIds acc = missing_ids current (map (getField key) es) ∧
  EntityStore.updatedIds acc = existing_ids current (map (getField key) es) ∧
  ∀ k, EntityStore.updatedEntities acc !! k =
       (fun e => match current !! k with
                 | Some old => spread old e
                 | None => match EntityStore.um_baseClass opts with
                           | Some construct => construct e
                           | None => e
                           end
                 end)
       <$> last (List.filter (fun e => bool_decide (propKey (getField key e) = k)) es).
Proof.
  induction es as [|e es IH] using rev_ind; simpl.
  { done. }
  destruct IH as (IHa & IHu & IHe).
  rewrite foldl_app. simpl. unfold missing_ids, existing_ids in *.
  rewrite map_app, !List.filter_app. simpl.
  unfold EntityStore.upsertMany_step at 1 3 5. unfold hasEntity.
  destruct (current !! propKey (getField key e)) as [old|] eqn:Hc.
  - rewrite bool_decide_eq_true_2 by done. simpl.
    rewrite app_nil_r. split; [done|]. split; [by rewrite IHu|].
    intros k. rewrite List.filter_app, last_app. simpl. case_bool_decide as Hk; simpl.
    + subst k. by rewrite lookup_insert_eq, Hc.
    + rewrite lookup_insert_ne by done. rewrite IHe. by destruct (last _).
  - rewrite bool_decide_eq_false_2 by by intros [? ?]. simpl.
    rewrite app_nil_r. split; [by rewrite IHa|]. split; [done|].
    intros k. rewrite List.filter_app, last_app. simpl. case_bool_decide as Hk; simpl.
    + subst k. by rewrite lookup_insert_eq, Hc.
    + rewrite lookup_insert_ne by done. rewrite IHe. by destruct (last _).
Qed.

Lemma updatedEntityIds_next_synced self w v log l :
  synced self w v log → synced self (EntityStore.updatedEntityIds_next self l w) v log.
Proof.
  intros (Hd & st & Hi & Hv & Hst). unfold EntityStore.updatedEntityIds_next. rewrite Hi.
  split; [done|]. simpl. rewrite list_lookup_insert_eq by by eapply lookup_lt_Some.
  eexists. by split; [reflexivity|].
Qed.

(** X7.  [upsertMany] appends to [ids] the id of every input entity that
    had no entity when the call began, in input order and once per
    occurrence (a new id given twice is appended twice); the ids already
    there keep their place, and [active] and [error] are kept. *)
Theorem upsertMany_ids self w st es options :
  heap w !! self = Some st →
  ∃ st', heap (EntityStore.upsertMany self es options w) !! self = Some st' ∧
    ids (storeValue st') =
      ids (storeValue st) ++
      missing_ids (entities (storeValue st)) (map (getField (idKey (ext st))) es) ∧
    active (storeValue st') = active (storeValue st) ∧
    error (storeValue st') = error (storeValue st).
Proof.
  intros Hi.
  destruct (upsertMany_step self w st _ _ es options (object_is_init self w st Hi))
    as (st' & Hi' & Hv' & _).
  exists st'. split; [done|]. rewrite Hv'. unfold upsertMany_value. simpl.
  split; [|done].
  destruct (upsertMany_acc (idKey (ext st)) (entities (storeValue st))
              (default (EntityStore.mkUpsertManyOptions None VUndefined) options) es)
    as (-> & _ & _).
  destruct (missing_ids _ _); simpl; [by rewrite app_nil_r|done].
Qed.

(** X8.  After [upsertMany] the entity under a key is decided by the last
    input entity with that id alone: it is merged onto the entity stored
    before the call (fields of earlier input entities with the same id are
    not kept), or, when none was stored, it is stored as it is or as
    [baseClass] makes it.  Keys of no input entity are untouched. *)
Theorem upsertMany_last_wins self w st es options k :
  heap w !! self = Some st →
  ∃ st', heap (EntityStore.upsertMany self es options w) !! self = Some st' ∧
    entities (storeValue st') !! k =
      match last (List.filter
                    (fun e => bool_decide (propKey (getField (idKey (ext st)) e) = k)) es) with
      | Some e =>
          Some (match entities (storeValue st) !! k with
                | Some old => spread old e
                | None => match options ≫= EntityStore.um_baseClass with
                          | Some construct => construct e
                          | None => e
                          end
                end)
      | None => entities (storeValue st) !! k
      end.
Proof.
  intros Hi.
  destruct (upsertMany_step self w st _ _ es options (object_is_init self w st Hi))
    as (st' & Hi' & Hv' & _).
  exists st'. split; [done|]. rewrite Hv'. unfold upsertMany_value. simpl.
  destruct (upsertMany_acc (idKey (ext st)) (entities (storeValue st))
              (default (EntityStore.mkUpsertManyOptions None VUndefined) options) es)
    as (_ & _ & He).
  specialize (He k). rewrite lookup_union, He.
  destruct (last _) as [e|]; simpl.
  - assert (EntityStore.um_baseClass
              (default (EntityStore.mkUpsertManyOptions None VUndefined) options)
            = options ≫= EntityStore.um_baseClass) as -> by by destruct options.
    by destruct (entities (storeValue st) !! k).
  - by destruct (entities (storeValue st) !! k).
Qed.

(** X9.  Outside a transaction [upsertMany] emits exactly one state per
    call, whatever the input: also for an empty list, where the state
    emitted is the old one with [loading] set to [!!options.loading]. *)
Theorem upsertMany_always_emits self w st log es options :
  depth w = 0 → heap w !! self = Some st →
  store st = Some (mkBehaviorSubject (storeValue st) log) →
  let v' := upsertMany_value (ext st) (storeValue st) es options in
  synced self (EntityStore.upsertMany self es options w) v' (log ++ [v']) ∧
  (es = [] →
   v' = set_loading (VBool (truthy (default VUndefined (EntityStore.um_loading <$> options))))
          (storeValue st)).
Proof.
  intros Hd Hi Hs v'. split.
  - assert (synced self w (storeValue st) log) as H by (split; [done|by exists st]).
    unfold EntityStore.upsertMany, v', upsertMany_value. rewrite Hi.
    set (acc := foldl _ _ es).
    match goal with |- context [_setState self ?f w] =>
      pose proof (setState_synced self w _ log f H) as H2
    end.
    destruct (isEmpty (Some (EntityStore.updatedIds acc)));
      destruct (isEmpty (Some (EntityStore.addedIds acc)));
      repeat first [apply entityActions_next_synced
                   |apply updatedEntityIds_next_synced]; exact H2.
  - intros ->. unfold v', upsertMany_value, set_loading. simpl.
    rewrite (left_id_L ∅ (∪)). by destruct options.
Qed.

(** *** The active ids *)

Lemma elem_of_List_filter {A} (f : A → bool) (l : list A) (x : A) :
  x ∈ List.filter f l ↔ x ∈ l ∧ f x = true.
Proof. by rewrite !list_elem_of_In, filter_In. Qed.

Lemma List_filter_all {A} (f : A → bool) (l : list A) :
  (∀ x, x ∈ l → f x = true) → List.filter f l = l.
Proof.
  induction l as [|y l IH]; intros H; [done|]. simpl.
  rewrite (H y) by left. rewrite IH; [done|]. intros x Hx. apply H. by right.
Qed.

Lemma List_filter_none {A} (f : A → bool) (l : list A) :
  (∀ x, x ∈ l → f x = false) → List.filter f l = [].
Proof.
  induction l as [|y l IH]; intros H; [done|]. simpl.
  rewrite (H y) by left. apply IH. intros x Hx. apply H. by right.
Qed.

Lemma includes_true (l : list ID) (x : ID) : includes l x = true ↔ x ∈ l.
Proof. unfold includes. by rewrite bool_decide_eq_true. Qed.

Lemma includes_false (l : list ID) (x : ID) : includes l x = false ↔ x ∉ l.
Proof. unfold includes. by rewrite bool_decide_eq_false. Qed.

Lemma forallb_includes (a t : list ID) :
  forallb (includes a) t = true ↔ ∀ x, x ∈ t → x ∈ a.
Proof.
  rewrite forallb_forall. split; intros H x Hx.
  - apply includes_true, H. by apply list_elem_of_In.
  - apply includes_true, H. by apply list_elem_of_In.
Qed.

Lemma existsb_includes (a t : list ID) :
  existsb (includes a) t = true ↔ ∃ x, x ∈ t ∧ x ∈ a.
Proof.
  rewrite existsb_exists. split; intros (x & Hx & Ha); exists x.
  - split; [by apply list_elem_of_In|by apply includes_true].
  - split; [by apply list_elem_of_In|by apply includes_true].
Qed.

Lemma every_r_many (a t : list ID) :
  every_r (active_has (ActiveMany a)) t = Ok (forallb (includes a) t).
Proof. induction t as [|x t IH]; [done|]. simpl. by destruct (includes a x). Qed.

Lemma some_r_many (a t : list ID) :
  some_r (active_has (ActiveMany a)) t = Ok (existsb (includes a) t).
Proof. induction t as [|x t IH]; [done|]. simpl. by destruct (includes a x). Qed.

Lemma filter_r_many (a t : list ID) :
  filter_r (active_has (ActiveMany a)) t = Ok (List.filter (includes a) t).
Proof. induction t as [|x t IH]; [done|]. simpl. rewrite IH. by destruct (includes a x). Qed.

Lemma filter_r_many_not (a t : list ID) :
  filter_r (fun id => match active_has (ActiveMany a) id with
                      | Ok b => Ok (negb b)
                      | Err e => Err e
                      end) t
  = Ok (List.filter (fun id => negb (includes a id)) t).
Proof.
  induction t as [|x t IH]; [done|]. simpl in *.
  destruct (includes a x); simpl; by rewrite IH.
Qed.

Lemma uniques_fold (l : list ID) : ∀ acc,
  let r := foldl (fun acc x => if includes acc x then acc else acc ++ [x]) acc l in
  (∀ x, x ∈ r ↔ x ∈ acc ∨ x ∈ l) ∧ (NoDup acc → NoDup r) ∧ ∃ added, r = acc ++ added.
Proof.
  induction l as [|y l IH]; intros acc; simpl.
  { split; [|split; [done|exists []; by rewrite app_nil_r]].
    intros x. rewrite elem_of_nil. naive_solver. }
  destruct (IH (if includes acc y then acc else acc ++ [y])) as (He & Hn & added & Ha).
  destruct (includes acc y) eqn:Hy.
  - apply includes_true in Hy. split; [|split; [done|by exists added]].
    intros x. rewrite He, elem_of_cons. naive_solver.
  - apply includes_false in Hy. split; [|split].
    + intros x. rewrite He, elem_of_app, !elem_of_cons, elem_of_nil. naive_solver.
    + intros Hnd. apply Hn. apply NoDup_app. split; [done|].
      split; [|apply NoDup_singleton]. intros x Hx ->%list_elem_of_singleton. done.
    + exists (y :: added). rewrite Ha. by rewrite <- app_assoc.
Qed.

Lemma uniques_fold_NoDup (l : list ID) : ∀ acc,
  NoDup (acc ++ l) →
  foldl (fun acc x => if includes acc x then acc else acc ++ [x]) acc l = acc ++ l.
Proof.
  induction l as [|y l IH]; intros acc Hnd; simpl; [by rewrite app_nil_r|].
  assert (includes acc y = false) as ->.
  { apply includes_false. apply NoDup_app in Hnd as (_ & Hd & _).
    intros Hy. apply (Hd y Hy). by left. }
  rewrite IH; [by rewrite <- app_assoc|]. by rewrite <- app_assoc.
Qed.

Lemma uniques_app (a t : list ID) :
  NoDup a →
  uniques (a ++ t) = foldl (fun acc x => if includes acc x then acc else acc ++ [x]) a t.
Proof.
  intros Hnd. unfold uniques. rewrite foldl_app. f_equal.
  apply (uniques_fold_NoDup a []). by simpl.
Qed.

Lemma addActive_value_spec (a t : list ID) :
  (∀ x, x ∈ addActive_value a t ↔ x ∈ a ∨ x ∈ t) ∧
  (NoDup a → NoDup (addActive_value a t) ∧ ∃ added, addActive_value a t = a ++ added).
Proof.
  unfold addActive_value. destruct (forallb (includes a) t) eqn:Hall.
  - rewrite forallb_includes in Hall. split; [naive_solver|].
    intros Hnd. split; [done|]. exists []. by rewrite app_nil_r.
  - split.
    + intros x. unfold uniques. destruct (uniques_fold (a ++ t) []) as (He & _).
      rewrite He, elem_of_nil, elem_of_app. naive_solver.
    + intros Hnd. rewrite uniques_app by done.
      destruct (uniques_fold t a) as (_ & Hn & Hadd). split; [by apply Hn|done].
Qed.

Lemma removeActive_value_eq (a t : list ID) :
  removeActive_value a t = List.filter (fun currentId => negb (includes t currentId)) a.
Proof.
  unfold removeActive_value. destruct (existsb (includes a) t) eqn:Hex; [done|].
  symmetry. apply List_filter_all. intros x Hx.
  apply negb_true_iff, includes_false. intros Ht.
  assert (existsb (includes a) t = true) by (apply existsb_includes; by exists x).
  congruence.
Qed.

Lemma removeActive_value_elem (a t : list ID) (x : ID) :
  x ∈ removeActive_value a t ↔ x ∈ a ∧ x ∉ t.
Proof.
  rewrite removeActive_value_eq, elem_of_List_filter, negb_true_iff, includes_false. done.
Qed.

Lemma set_active_same v a : active v = ActiveMany a → set_active (ActiveMany a) v = v.
Proof. intros H. destruct v. simpl in *. by subst. Qed.

Lemma setState_ext self (f g : EntityState → EntityState) w st :
  heap w !! self = Some st → f (storeValue st) = g (storeValue st) →
  _setState self f w = _setState self g w.
Proof. intros Hi H. unfold _setState. by rewrite Hi, H. Qed.

Lemma addActive_eq self w st a l :
  heap w !! self = Some st → active (storeValue st) = ActiveMany a →
  EntityStoreActive.addActive self l w =
    (Ok tt,
     if forallb (includes a) (coerceArray l) then w
     else _setState self
            (fun _ => set_active (ActiveMany (addActive_value a (coerceArray l)))
                        (storeValue st)) w).
Proof.
  intros Hi Ha. unfold EntityStoreActive.addActive, addActive_value.
  destruct (coerceArray l) as [|x t] eqn:Ht; [done|].
  change (isEmpty (Some (x :: t))) with false. cbv iota.
  rewrite Hi, Ha, every_r_many.
  destruct (forallb (includes a) (x :: t)); [done|]. simpl. f_equal.
  apply (setState_ext _ _ _ _ st Hi). by rewrite Ha.
Qed.

Lemma removeActive_eq self w st a l :
  heap w !! self = Some st → active (storeValue st) = ActiveMany a →
  EntityStoreActive.removeActive self l w =
    (Ok tt,
     if existsb (includes a) (coerceArray l)
     then _setState self
            (fun _ => set_active (ActiveMany (removeActive_value a (coerceArray l)))
                        (storeValue st)) w
     else w).
Proof.
  intros Hi Ha. unfold EntityStoreActive.removeActive, removeActive_value.
  destruct (coerceArray l) as [|x t] eqn:Ht; [done|].
  change (isEmpty (Some (x :: t))) with false. cbv iota.
  rewrite Hi, Ha, some_r_many.
  destruct (existsb (includes a) (x :: t)); [|done]. simpl. f_equal.
  apply (setState_ext _ _ _ _ st Hi). by rewrite Ha.
Qed.

(** X10.  On a store whose [active] is an array, [addActive] never raises
    and leaves in [active] exactly the ids that were active and the ids
    given; an [active] without duplicates stays so and keeps its order,
    the new ids coming after it.  When every id given is already active
    nothing is written. *)
Theorem addActive_spec self w st a l :
  heap w !! self = Some st → active (storeValue st) = ActiveMany a →
  ∃ w' st' a',
    EntityStoreActive.addActive self l w = (Ok tt, w') ∧
    heap w' !! self = Some st' ∧
    storeValue st' = set_active (ActiveMany a') (storeValue st) ∧
    (∀ x, x ∈ a' ↔ x ∈ a ∨ x ∈ coerceArray l) ∧
    (NoDup a → NoDup a' ∧ ∃ added, a' = a ++ added) ∧
    ((∀ x, x ∈ coerceArray l → x ∈ a) → w' = w).
Proof.
  intros Hi Ha. rewrite (addActive_eq self w st a l Hi Ha).
  destruct (addActive_value_spec a (coerceArray l)) as (He & Hn).
  destruct (forallb (includes a) (coerceArray l)) eqn:Hall.
  - exists w, st, a. split; [done|]. split; [done|].
    split; [by rewrite set_active_same|].
    unfold addActive_value in He, Hn. rewrite Hall in He, Hn. by split; [|split].
  - match goal with |- context [_setState self ?f w] =>
      destruct (setState_object w self f st Hi) as (st' & Hi' & Hv' & _)
    end.
    eexists _, st', _. split; [reflexivity|]. split; [done|]. split; [done|].
    split; [done|]. split; [done|].
    intros Hsub. apply forallb_includes in Hsub. congruence.
Qed.

(** X11.  On a store whose [active] is an array, [removeActive] never
    raises and leaves the active ids that were not given, in their order;
    when none of the ids given is active nothing is written. *)
Theorem removeActive_spec self w st a l :
  heap w !! self = Some st → active (storeValue st) = ActiveMany a →
  ∃ w' st',
    EntityStoreActive.removeActive self l w = (Ok tt, w') ∧
    heap w' !! self = Some st' ∧
    storeValue st' =
      set_active
        (ActiveMany (List.filter (fun currentId => negb (includes (coerceArray l) currentId)) a))
        (storeValue st) ∧
    ((∀ x, x ∈ coerceArray l → x ∉ a) → w' = w).
Proof.
  intros Hi Ha. rewrite (removeActive_eq self w st a l Hi Ha).
  rewrite <- removeActive_value_eq.
  destruct (existsb (includes a) (coerceArray l)) eqn:Hex.
  - match goal with |- context [_setState self ?f w] =>
      destruct (setState_object w self f st Hi) as (st' & Hi' & Hv' & _)
    end.
    eexists _, st'. split; [reflexivity|]. split; [done|]. split; [done|].
    intros Hnone. apply existsb_includes in Hex as (x & Hx & Hxa). by destruct (Hnone x).
  - exists w, st. split; [done|]. split; [done|]. split; [|done].
    unfold removeActive_value. rewrite Hex. by rewrite set_active_same.
Qed.

(** X12.  [addActive] followed by [removeActive] of the same ids gives
    back the state of the store, when [active] is an array without
    duplicates and none of the ids was active. *)
Theorem addActive_removeActive_roundtrip self w st a l :
  heap w !! self = Some st → active (storeValue st) = ActiveMany a →
  NoDup a → (∀ x, x ∈ coerceArray l → x ∉ a) →
  ∃ w1 w2 st2,
    EntityStoreActive.addActive self l w = (Ok tt, w1) ∧
    EntityStoreActive.removeActive self l w1 = (Ok tt, w2) ∧
    heap w2 !! self = Some st2 ∧ storeValue st2 = storeValue st.
Proof.
  intros Hi Ha Hnd Hdis. rewrite (addActive_eq self w st a l Hi Ha).
  destruct (addActive_value_spec a (coerceArray l)) as (He & Hn).
  destruct (Hn Hnd) as (Hnd' & added & Hadd).
  assert (removeActive_value (addActive_value a (coerceArray l)) (coerceArray l) = a) as Hback.
  { rewrite removeActive_value_eq, Hadd, List.filter_app.
    rewrite (List_filter_all _ a), (List_filter_none _ added); [by rewrite app_nil_r| |].
    - intros x Hx. apply negb_false_iff, includes_true.
      assert (x ∈ addActive_value a (coerceArray l)) as Hin
        by (rewrite Hadd, elem_of_app; by right).
      apply He in Hin as [Hxa|?]; [|done].
      rewrite Hadd in Hnd'. apply NoDup_app in Hnd' as (_ & Hd & _). by destruct (Hd x).
    - intros x Hx. apply negb_true_iff, includes_false. intros Hxl. by apply (Hdis x). }
  assert (∀ w1 st1, heap w1 !! self = Some st1 →
            storeValue st1 = set_active (ActiveMany (addActive_value a (coerceArray l)))
                               (storeValue st) →
            ∃ w2 st2, EntityStoreActive.removeActive self l w1 = (Ok tt, w2) ∧
                      heap w2 !! self = Some st2 ∧ storeValue st2 = storeValue st) as Hrem.
  { intros w1 st1 Hi1 Hv1.
    rewrite (removeActive_eq self w1 st1 (addActive_value a (coerceArray l)) l Hi1)
      by by rewrite Hv1.
    rewrite Hback.
    assert (set_active (ActiveMany a) (storeValue st1) = storeValue st) as Hv.
    { rewrite Hv1. destruct (storeValue st). simpl in *. by subst. }
    destruct (existsb _ (coerceArray l)) eqn:Hex.
    - match goal with |- context [_setState self ?f w1] =>
        destruct (setState_object w1 self f st1 Hi1) as (st2 & Hi2 & Hv2 & _)
      end.
      eexists _, st2. split; [reflexivity|]. split; [done|]. by rewrite Hv2.
    - exists w1, st1. split; [done|]. split; [done|].
      rewrite <- Hv. symmetry. apply set_active_same.
      unfold removeActive_value in Hback. rewrite Hex in Hback.
      rewrite Hv1. simpl. by rewrite Hback. }
  destruct (forallb (includes a) (coerceArray l)) eqn:Hall.
  - destruct (Hrem w st Hi) as (w2 & st2 & Hr & Hi2 & Hv2).
    { unfold addActive_value. rewrite Hall. by rewrite set_active_same. }
    by exists w, w2, st2.
  - match goal with |- context [_setState self ?f w] =>
      destruct (setState_object w self f st Hi) as (st1 & Hi1 & Hv1 & _)
    end.
    destruct (Hrem _ st1 Hi1 Hv1) as (w2 & st2 & Hr & Hi2 & Hv2).
    by eexists _, w2, st2.
Qed.

(** *** [toggleActive] *)

Lemma in_batch_constant self w st v b t v' (wrote : bool) :
  in_batch self w st v b t → (wrote = false → v' = v) →
  in_batch self (if wrote then _setState self (fun _ => v') w else w) st v' b (t || wrote).
Proof.
  intros H Hv. destruct wrote.
  - rewrite orb_true_r. by apply (in_batch_setState self w st v b t (fun _ => v')).
  - rewrite orb_false_r. by rewrite Hv.
Qed.

Lemma in_batch_removeActive self w st v b t a l :
  in_batch self w st v b t → active v = ActiveMany a →
  ∃ w', EntityStoreActive.removeActive self l w = (Ok tt, w') ∧
        in_batch self w' st (set_active (ActiveMany (removeActive_value a (coerceArray l))) v) b
          (t || existsb (includes a) (coerceArray l)).
Proof.
  intros H Ha. destruct (in_batch_heap _ _ _ _ _ _ H) as (st1 & Hi & Hv & Hx & _).
  rewrite (removeActive_eq self w st1 a l Hi) by by rewrite Hv.
  eexists. split; [reflexivity|]. rewrite Hv.
  destruct (existsb (includes a) (coerceArray l)) eqn:Hex.
  - by apply (in_batch_constant self w st v b t _ true).
  - apply (in_batch_constant self w st v b t _ false); [done|]. intros _.
    unfold removeActive_value. rewrite Hex. by apply set_active_same.
Qed.

Lemma in_batch_addActive self w st v b t a l :
  in_batch self w st v b t → active v = ActiveMany a →
  ∃ w', EntityStoreActive.addActive self l w = (Ok tt, w') ∧
        in_batch self w' st (set_active (ActiveMany (addActive_value a (coerceArray l))) v) b
          (t || negb (forallb (includes a) (coerceArray l))).
Proof.
  intros H Ha. destruct (in_batch_heap _ _ _ _ _ _ H) as (st1 & Hi & Hv & Hx & _).
  rewrite (addActive_eq self w st1 a l Hi) by by rewrite Hv.
  eexists. split; [reflexivity|]. rewrite Hv.
  destruct (forallb (includes a) (coerceArray l)) eqn:Hall.
  - apply (in_batch_constant self w st v b t _ false); [done|]. intros _.
    unfold addActive_value. rewrite Hall. by apply set_active_same.
  - by apply (in_batch_constant self w st v b t _ true).
Qed.

Lemma toggleActive_writes (a t : list ID) :
  existsb (includes a) (List.filter (includes a) t) ||
  negb (forallb (includes (removeActive_value a (List.filter (includes a) t)))
          (List.filter (fun id => negb (includes a id)) t))
  = negb (isEmpty (Some t)).
Proof.
  destruct (List.filter (includes a) t) as [|r rs] eqn:Hr.
  - destruct (List.filter (fun id => negb (includes a id)) t) as [|d ds] eqn:Hd.
    + by rewrite (filter_complement_nil (includes a) t Hr Hd).
    + assert (t ≠ []) as Ht by (intros ->; done).
      assert (d ∉ a) as Hda.
      { assert (d ∈ List.filter (fun id => negb (includes a id)) t) as Hin
          by (rewrite Hd; by left).
        apply elem_of_List_filter in Hin as [_ Hin].
        by apply negb_true_iff, includes_false in Hin. }
      assert (forallb (includes (removeActive_value a [])) (d :: ds) = false) as ->.
      { apply not_true_is_false. intros Hall. rewrite forallb_includes in Hall.
        specialize (Hall d ltac:(by left)). by apply removeActive_value_elem in Hall as [? _]. }
      by destruct t.
  - assert (existsb (includes a) (r :: rs) = true) as ->.
    { apply existsb_includes. exists r. split; [by left|].
      assert (r ∈ List.filter (includes a) t) as Hin by (rewrite Hr; by left).
      apply elem_of_List_filter in Hin as [_ Hin]. by apply includes_true. }
    destruct t; [done|done].
Qed.

Lemma toggleActive_value_elem (a t : list ID) (x : ID) :
  x ∈ toggleActive_value a t ↔ (x ∈ a ∧ x ∉ t) ∨ (x ∈ t ∧ x ∉ a).
Proof.
  unfold toggleActive_value.
  destruct (addActive_value_spec (removeActive_value a (List.filter (includes a) t))
              (List.filter (fun id => negb (includes a id)) t)) as (He & _).
  rewrite He, removeActive_value_elem, !elem_of_List_filter, negb_true_iff,
    includes_true, includes_false.
  destruct (decide (x ∈ a)), (decide (x ∈ t)); naive_solver.
Qed.

(** What [toggleActive] does on an array of active ids, from a world
    outside any transaction. *)
Lemma toggleActive_run self w st log a l :
  quiescent w = true → heap w !! self = Some st →
  store st = Some (mkBehaviorSubject (storeValue st) log) →
  active (storeValue st) = ActiveMany a →
  let v' := set_active (ActiveMany (toggleActive_value a (coerceArray l))) (storeValue st) in
  ∃ w', EntityStoreActive.toggleActive self l w = (Ok tt, w') ∧ quiescent w' = true ∧
        synced self w' v' (if isEmpty (Some (coerceArray l)) then log else log ++ [v']).
Proof.
  intros Hq Hi Hs Ha v'.
  pose proof (in_batch_start self w st _ Hq Hi Hs eq_refl) as H0.
  destruct (startBatch_quiescent w Hq) as (_ & _ & Hh).
  unfold EntityStoreActive.toggleActive, applyTransaction, EntityStoreActive.toggleActive_body.
  rewrite Hh, Hi, Ha, filter_r_many, filter_r_many_not.
  destruct (in_batch_removeActive _ _ _ _ _ _ a
              (Many (List.filter (includes a) (coerceArray l))) H0 Ha) as (w1 & -> & H1).
  destruct (in_batch_addActive _ _ _ _ _ _
              (removeActive_value a (List.filter (includes a) (coerceArray l)))
              (Many (List.filter (fun id => negb (includes a id)) (coerceArray l))) H1 eq_refl)
    as (w2 & -> & H2).
  simpl in H2. rewrite toggleActive_writes in H2.
  destruct (in_batch_end _ _ _ _ _ _ H2) as (w' & -> & Hq' & st' & Hi' & Hv' & Hs' & _).
  exists w'. split; [done|]. split; [done|].
  split; [by apply quiescent_spec in Hq' as [? _]|].
  exists st'. split; [done|]. split; [done|]. rewrite Hs'.
  destruct (isEmpty (Some (coerceArray l))) eqn:He; simpl; [|done].
  assert (v' = storeValue st) as ->; [|done].
  unfold v'. destruct (coerceArray l); [|done]. by apply set_active_same.
Qed.

(** X13.  [toggleActive] flips the given ids in an array of active ids:
    afterwards an id is active exactly when it was active and was not
    given, or was given and was not active; the call does not raise. *)
Theorem toggleActive_flips self w st log a l :
  quiescent w = true → heap w !! self = Some st →
  store st = Some (mkBehaviorSubject (storeValue st) log) →
  active (storeValue st) = ActiveMany a →
  ∃ w' st' a',
    EntityStoreActive.toggleActive self l w = (Ok tt, w') ∧
    heap w' !! self = Some st' ∧
    storeValue st' = set_active (ActiveMany a') (storeValue st) ∧
    ∀ x, x ∈ a' ↔ (x ∈ a ∧ x ∉ coerceArray l) ∨ (x ∈ coerceArray l ∧ x ∉ a).
Proof.
  intros Hq Hi Hs Ha.
  destruct (toggleActive_run self w st log a l Hq Hi Hs Ha)
    as (w' & Hr & _ & _ & st' & Hi' & Hv' & _).
  exists w', st', (toggleActive_value a (coerceArray l)).
  split; [done|]. split; [done|]. split; [done|]. apply toggleActive_value_elem.
Qed.

(** X14.  [toggleActive] removes and adds in one transaction: on a store
    outside any transaction it emits one state, the final one, when at
    least one id is given (also when it both removes and adds), and
    nothing otherwise; no transaction is left in process. *)
Theorem toggleActive_single_notification self w st log a l :
  quiescent w = true → heap w !! self = Some st →
  store st = Some (mkBehaviorSubject (storeValue st) log) →
  active (storeValue st) = ActiveMany a →
  ∃ w' v', EntityStoreActive.toggleActive self l w = (Ok tt, w') ∧ quiescent w' = true ∧
           synced self w' v' (if isEmpty (Some (coerceArray l)) then log else log ++ [v']).
Proof.
  intros Hq Hi Hs Ha.
  destruct (toggleActive_run self w st log a l Hq Hi Hs Ha) as (w' & Hr & Hq' & Hsy).
  by eexists w', _.
Qed.

(** X15.  Toggling the same ids twice gives back the same set of active
    ids (their order may differ). *)
Theorem toggleActive_twice self w st log a l :
  quiescent w = true → heap w !! self = Some st →
  store st = Some (mkBehaviorSubject (storeValue st) log) →
  active (storeValue st) = ActiveMany a →
  ∃ w1 w2 st2 a2,
    EntityStoreActive.toggleActive self l w = (Ok tt, w1) ∧
    EntityStoreActive.toggleActive self l w1 = (Ok tt, w2) ∧
    heap w2 !! self = Some st2 ∧
    storeValue st2 = set_active (ActiveMany a2) (storeValue st) ∧
    ∀ x, x ∈ a2 ↔ x ∈ a.
Proof.
  intros Hq Hi Hs Ha.
  destruct (toggleActive_run self w st log a l Hq Hi Hs Ha)
    as (w1 & Hr1 & Hq1 & _ & st1 & Hi1 & Hv1 & Hs1).
  rewrite <- Hv1 in Hs1.
  destruct (toggleActive_run self w1 st1 _ (toggleActive_value a (coerceArray l)) l
              Hq1 Hi1 Hs1)
    as (w2 & Hr2 & Hq2 & _ & st2 & Hi2 & Hv2 & _).
  { by rewrite Hv1. }
  exists w1, w2, st2,
    (toggleActive_value (toggleActive_value a (coerceArray l)) (coerceArray l)).
  split; [done|]. split; [done|]. split; [done|].
  split; [by rewrite Hv2, Hv1|].
  intros x. rewrite !toggleActive_value_elem.
  destruct (decide (x ∈ a)), (decide (x ∈ coerceArray l)); naive_solver.
Qed.

(** X16.  [addActive], [removeActive] and [toggleActive] need an [active]
    that has [indexOf]/[includes]: on a store whose [active] is
    [undefined], [null], a number or a boolean, a call with at least one
    id raises a TypeError and writes nothing; [toggleActive] still closes
    its transaction. *)
Theorem active_not_array_TypeError self w st x l :
  quiescent w = true → heap w !! self = Some st →
  active (storeValue st) = ActiveOne x → (∀ s, x ≠ VStr s) →
  coerceArray l ≠ [] →
  EntityStoreActive.addActive self l w = (Err TypeError, w) ∧
  EntityStoreActive.removeActive self l w = (Err TypeError, w) ∧
  ∃ w', EntityStoreActive.toggleActive self l w = (Err TypeError, w') ∧
        quiescent w' = true ∧ heap w' !! self = Some st.
Proof.
  intros Hq Hi Ha Hx Hl.
  assert (∀ id, active_has (ActiveOne x) id = Err TypeError) as Hhas.
  { intros id. destruct x; try done. by destruct (Hx s). }
  destruct (coerceArray l) as [|y t] eqn:Ht; [done|].
  split; [|split].
  - unfold EntityStoreActive.addActive. rewrite Ht.
    change (isEmpty (Some (y :: t))) with false. cbv iota.
    rewrite Hi, Ha. cbn [every_r]. by rewrite Hhas.
  - unfold EntityStoreActive.removeActive. rewrite Ht.
    change (isEmpty (Some (y :: t))) with false. cbv iota.
    rewrite Hi, Ha. cbn [some_r]. by rewrite Hhas.
  - destruct (startBatch_quiescent w Hq) as (Hbo & Hd & Hh).
    unfold EntityStoreActive.toggleActive, applyTransaction,
      EntityStoreActive.toggleActive_body.
    rewrite Hh, Hi, Ha, Ht. cbn [filter_r]. rewrite Hhas.
    destruct (endBatch_outermost _ Hbo Hd) as (w' & -> & Hq' & Hheap).
    exists w'. split; [done|]. split; [done|].
    rewrite Hh in Hheap. rewrite (Hheap self st Hi).
    apply quiescent_spec in Hq as [_ Hall]. by rewrite (Hall self st Hi).
Qed.

End MoreEntityStoreFacts.

(** ** The plugin: reconciliation with a fixed subset, satellites kept *)

Section MorePluginFacts.
Context {P : Type}.
Variable toBoolean : list ID → bool.
Variable instantiatePlugin : ID → P.
Implicit Types (p : EntityCollectionPlugin P) (id : ID) (l : list ID) (m : list (ID * P)).

Lemma foldl_fixed {A B} (f : A → B → A) (a : A) (l : list B) :
  (∀ x, x ∈ l → f a x = a) → foldl f a l = a.
Proof.
  induction l as [|y l IH]; intros H; [done|]. simpl.
  rewrite (H y) by left. apply IH. intros x Hx. apply H. by right.
Qed.

Lemma Map_get_app_Some id m m' (s : P) :
  Map_get id m = Some s → Map_get id (m ++ m') = Some s.
Proof.
  unfold Map_get. induction m as [|[k v] m IH]; simpl; [done|].
  by case_bool_decide.
Qed.

Lemma Map_get_app_None id m m' :
  Map_get id m = None → Map_get id (m ++ m') = Map_get id m'.
Proof.
  unfold Map_get. induction m as [|[k v] m IH]; simpl; [done|].
  by case_bool_decide.
Qed.

Lemma Map_get_None id m : Map_get id m = None ↔ id ∉ map fst m.
Proof.
  unfold Map_get. induction m as [|[k v] m IH]; simpl.
  - split; [intros _; apply not_elem_of_nil|done].
  - rewrite not_elem_of_cons. case_bool_decide; simpl in *; naive_solver.
Qed.

Lemma Map_get_set_ne id e (v : P) m :
  id ≠ e → Map_get id (Map_set e v m) = Map_get id m.
Proof.
  intros Hne. unfold Map_set. destruct (Map_has e m).
  - unfold Map_get. induction m as [|[k x] m IH]; simpl; [done|].
    destruct (decide (k = e)) as [->|Hk].
    + rewrite (bool_decide_eq_true_2 (e = e)) by done. simpl.
      rewrite !bool_decide_eq_false_2 by done. exact IH.
    + rewrite (bool_decide_eq_false_2 (k = e)) by done. simpl.
      case_bool_decide; [done|exact IH].
  - destruct (Map_get id m) as [s|] eqn:Hg.
    + by apply Map_get_app_Some.
    + rewrite Map_get_app_None by done. unfold Map_get. simpl.
      by rewrite bool_decide_eq_false_2 by done.
Qed.

Lemma Map_get_set_new e (v : P) m :
  Map_has e m = false → Map_get e (Map_set e v m) = Some v.
Proof.
  intros Hhas. unfold Map_set. rewrite Hhas.
  rewrite Map_get_app_None.
  - unfold Map_get. simpl. by rewrite bool_decide_eq_true_2.
  - apply Map_get_None. unfold Map_has in Hhas. by apply bool_decide_eq_false in Hhas.
Qed.

Lemma Map_get_delete_ne id e m :
  id ≠ e → Map_get id (Map_delete e m) = Map_get id m.
Proof.
  intros Hne. unfold Map_get, Map_delete.
  induction m as [|[k x] m IH]; simpl; [done|].
  destruct (decide (k = e)) as [->|Hk].
  - rewrite (bool_decide_eq_true_2 (e = e)) by done. simpl.
    by rewrite bool_decide_eq_false_2 by done.
  - rewrite (bool_decide_eq_false_2 (k = e)) by done. simpl.
    case_bool_decide; [done|exact IH].
Qed.

Lemma getEntity_rebase_add_ne actions e p id :
  id ≠ e → getEntity id (rebase_add instantiatePlugin actions e p) = getEntity id p.
Proof.
  intros Hne. unfold rebase_add, getEntity.
  destruct (beforeAdd actions), (afterAdd actions); simpl; by apply Map_get_set_ne.
Qed.

Lemma getEntity_rebase_remove_ne actions e p id :
  id ≠ e → getEntity id (rebase_remove actions e p) = getEntity id p.
Proof.
  intros Hne. unfold rebase_remove, removeEntity, getEntity.
  destruct (beforeRemove actions); simpl; by apply Map_get_delete_ne.
Qed.

Lemma getEntity_None id p : getEntity id p = None ↔ plugin_hasEntity id p = false.
Proof.
  unfold getEntity, plugin_hasEntity, Map_has.
  by rewrite Map_get_None, bool_decide_eq_false.
Qed.

(** [this.entities.forEach] with a callback that only removes the entry
    it is called on, when [stale] holds of it. *)
Lemma forEach_remove actions (stale : ID → bool) m : ∀ p,
  let p2 := foldl (fun p' kv =>
                     if plugin_hasEntity kv.1 p'
                     then (if stale kv.1 then rebase_remove actions kv.1 p' else p')
                     else p') p m in
  entityIds p2 = entityIds p ∧
  (∀ id, id ∈ plugin_keys p2 ↔ id ∈ plugin_keys p ∧ (id ∈ map fst m → stale id = false)) ∧
  (∀ id, stale id = false → getEntity id p2 = getEntity id p) ∧
  (∀ id, getEntity id p2 = getEntity id p ∨ getEntity id p2 = None).
Proof.
  induction m as [|[k v] m IH]; intros p; simpl.
  { split; [done|]. split; [|by auto]. intros id. rewrite elem_of_nil. naive_solver. }
  match goal with |- context [foldl ?f ?p0 m] => destruct (IH p0) as (He & Hk & Hg & Hn) end.
  split; [|split; [|split]].
  - rewrite He. destruct (plugin_hasEntity k p); [|done].
    destruct (stale k); simpl; [apply rebase_remove_entityIds|done].
  - intros id. rewrite Hk, elem_of_cons.
    destruct (plugin_hasEntity k p) eqn:Hhas.
    + destruct (stale k) eqn:Hs; simpl.
      * rewrite (rebase_remove_keys instantiatePlugin). split.
        -- intros [[Hne Hp] Hm]. split; [done|]. intros [->|?]; [done|auto].
        -- intros [Hp Hm]. split; [split; [|done]|intros ?; apply Hm; by right].
           intros ->. specialize (Hm (or_introl eq_refl)). congruence.
      * split.
        -- intros [Hp Hm]. split; [done|]. intros [->|?]; [done|auto].
        -- intros [Hp Hm]. split; [done|]. intros ?. apply Hm. by right.
    + apply plugin_hasEntity_false in Hhas. naive_solver.
  - intros id Hs. rewrite Hg by done.
    destruct (plugin_hasEntity k p); [|done].
    destruct (stale k) eqn:Hsk; [|done].
    apply getEntity_rebase_remove_ne. congruence.
  - intros id. destruct (plugin_hasEntity k p); [|apply Hn].
    destruct (stale k); [|apply Hn].
    destruct (decide (id = k)) as [->|Hne].
    + right. apply getEntity_None, plugin_hasEntity_false.
      intros [[Hkk _]%(rebase_remove_keys instantiatePlugin) _]%Hk. done.
    + destruct (Hn id) as [->| ->]; [left|by right].
      by apply getEntity_rebase_remove_ne.
Qed.

(** The callback of the subset branch tests [hasEntity] once more. *)
Lemma forEach_subset_eq actions l p :
  forEach (fun entityId' p'' =>
             if negb (includes l entityId') && bool_decide (plugin_hasEntity entityId' p'' = true)
             then rebase_remove actions entityId' p'' else p'') p
  = foldl (fun p' kv =>
             if plugin_hasEntity kv.1 p'
             then (if negb (includes l kv.1) then rebase_remove actions kv.1 p' else p')
             else p') p (plugin_entities p).
Proof.
  unfold forEach. generalize (plugin_entities p) as m. intros m. revert p.
  induction m as [|[k v] m IH]; intros p; simpl; [done|].
  destruct (plugin_hasEntity k p) eqn:Hhas; [|apply IH].
  rewrite bool_decide_eq_true_2 by done. rewrite andb_true_r. apply IH.
Qed.

Lemma forEach_all_eq actions l p :
  forEach (fun entityId p' =>
             if negb (includes l entityId) then rebase_remove actions entityId p' else p') p
  = foldl (fun p' kv =>
             if plugin_hasEntity kv.1 p'
             then (if negb (includes l kv.1) then rebase_remove actions kv.1 p' else p')
             else p') p (plugin_entities p).
Proof. done. Qed.

(** What the removal pass of a reconciliation leaves. *)
Lemma remove_pass actions l p :
  let p2 := foldl (fun p' kv =>
                     if plugin_hasEntity kv.1 p'
                     then (if negb (includes l kv.1) then rebase_remove actions kv.1 p' else p')
                     else p') p (plugin_entities p) in
  entityIds p2 = entityIds p ∧
  (∀ id, id ∈ plugin_keys p2 ↔ id ∈ plugin_keys p ∧ id ∈ l) ∧
  (∀ id, id ∈ l → getEntity id p2 = getEntity id p) ∧
  (∀ id, getEntity id p2 = getEntity id p ∨ getEntity id p2 = None).
Proof.
  destruct (forEach_remove actions (fun id => negb (includes l id)) (plugin_entities p) p)
    as (He & Hk & Hg & Hn).
  split; [done|]. split; [|split; [|done]].
  - intros id. rewrite Hk. fold (plugin_keys p).
    rewrite negb_false_iff, includes_true. naive_solver.
  - intros id Hid. apply Hg. by apply negb_false_iff, includes_true.
Qed.

(** The loop of the subset branch of [rebase], over the tracked ids [t]
    still to visit: every satellite of an id outside [l] is among them. *)
Lemma rebase_subset_loop actions l t : ∀ p,
  (∀ id, id ∈ plugin_keys p → id ∉ l → id ∈ t) →
  let p' := foldl (fun p' entityId =>
                     if includes l entityId && bool_decide (plugin_hasEntity entityId p' = false)
                     then rebase_add instantiatePlugin actions entityId p'
                     else
                       forEach (fun entityId' p'' =>
                                  if negb (includes l entityId')
                                     && bool_decide (plugin_hasEntity entityId' p'' = true)
                                  then rebase_remove actions entityId' p'' else p'') p')
                  p t in
  entityIds p' = entityIds p ∧
  ∀ id, id ∈ plugin_keys p' ↔ id ∈ l ∧ (id ∈ plugin_keys p ∨ id ∈ t).
Proof.
  induction t as [|e t IH]; intros p Hstale; simpl.
  { split; [done|]. intros id. rewrite elem_of_nil. split; [|naive_solver].
    intros Hp. split; [|by left]. destruct (decide (id ∈ l)) as [|Hn]; [done|].
    by apply Hstale, elem_of_nil in Hn. }
  destruct (includes l e) eqn:Hel; simpl.
  - apply includes_true in Hel. case_bool_decide as Hhas.
    + match goal with |- context [foldl ?f ?p0 t] => destruct (IH p0) as (He & Hk) end.
      { intros id [->|Hp]%rebase_add_keys Hn; [done|].
        pose proof (Hstale id Hp Hn) as [->|Ht]%elem_of_cons; done. }
      split; [by rewrite He, rebase_add_entityIds|].
      intros id. rewrite Hk, rebase_add_keys, elem_of_cons. naive_solver.
    + rewrite forEach_subset_eq.
      destruct (remove_pass actions l p) as (He1 & Hk1 & _).
      match goal with |- context [foldl ?f ?p0 t] => destruct (IH p0) as (He & Hk) end.
      { intros id [_ Hl]%Hk1 Hn. done. }
      split; [congruence|].
      intros id. rewrite Hk, Hk1, elem_of_cons.
      assert (e ∈ plugin_keys p).
      { apply plugin_hasEntity_keys. by destruct (plugin_hasEntity e p). }
      naive_solver.
  - apply includes_false in Hel. rewrite forEach_subset_eq.
    destruct (remove_pass actions l p) as (He1 & Hk1 & _).
    match goal with |- context [foldl ?f ?p0 t] => destruct (IH p0) as (He & Hk) end.
    { intros id [_ Hl]%Hk1 Hn. done. }
    split; [congruence|].
    intros id. rewrite Hk, Hk1, elem_of_cons. naive_solver.
Qed.

(** A reconciliation of a plugin with a fixed subset whose satellites are
    all of tracked ids leaves exactly the satellites of the tracked ids
    that are in the list. *)
Lemma rebase_subset actions l queryIds v p :
  entityIds p = Some v → toBoolean l = true →
  (∀ id, id ∈ plugin_keys p → id ∈ coerceArray v) →
  let p' := rebase toBoolean instantiatePlugin (Some l) actions queryIds p in
  entityIds p' = Some v ∧ ∀ id, id ∈ plugin_keys p' ↔ id ∈ coerceArray v ∧ id ∈ l.
Proof.
  intros He Htb Hsub p'. unfold p', rebase. rewrite Htb, He.
  destruct (rebase_subset_loop actions l (coerceArray v) p) as (He' & Hk); [by auto|].
  split; [congruence|]. intros id. rewrite Hk. naive_solver.
Qed.

(** X17.  A plugin constructed with a fixed subset of ids has a satellite
    for each of them, whether or not the collection has the id; once the
    collection has changed, the ids with a satellite are the tracked ids
    that are in the last id list: an id outside the subset never gets a
    satellite. *)
Theorem subset_reconciliation (v : OneOrMany ID) (ids0 : list ID) (changes : list (list ID)) :
  (∀ l, l ≠ [] → toBoolean l = true) →
  Forall (fun l => l ≠ []) changes →
  ∀ id,
    plugin_hasEntity id
      (foldl (on_ids toBoolean instantiatePlugin)
         (EntityStateHistoryPlugin_new toBoolean instantiatePlugin (Some v) ids0) changes) = true
    ↔ id ∈ coerceArray v ∧ match last changes with
                           | Some l => id ∈ l
                           | None => True
                           end.
Proof.
  intros Htb Hne.
  assert (∀ p (current : option (list ID)),
            entityIds p = Some v →
            (∀ id, id ∈ plugin_keys p ↔
                   id ∈ coerceArray v ∧ match current with Some l => id ∈ l | None => True end) →
            ∀ id, id ∈ plugin_keys (foldl (on_ids toBoolean instantiatePlugin) p changes)
                  ↔ id ∈ coerceArray v ∧
                    match (match last changes with Some l => Some l | None => current end) with
                    | Some l => id ∈ l
                    | None => True
                    end) as H.
  { induction changes as [|l ls IH]; intros p current He Hk; [done|].
    apply Forall_cons in Hne as [Hl Hls]. simpl.
    destruct (rebase_subset noActions l l v p He (Htb l Hl)) as [He' Hk'].
    { intros id Hid. by apply Hk in Hid as [? _]. }
    intros id. rewrite (IH Hls _ (Some l) He' Hk').
    rewrite last_cons. by destruct (last ls). }
  intros id. rewrite plugin_hasEntity_keys.
  rewrite (H _ None).
  - by destruct (last changes).
  - unfold EntityStateHistoryPlugin_new, activate, rebase, rebase_seed, getIds. simpl.
    destruct (seed_loop toBoolean instantiatePlugin (coerceArray v) (mkPlugin [] (Some v) []))
      as (created & _ & _ & He & _).
    exact He.
  - intros k. unfold EntityStateHistoryPlugin_new, activate, rebase, rebase_seed, getIds.
    simpl.
    destruct (seed_loop toBoolean instantiatePlugin (coerceArray v) (mkPlugin [] (Some v) []))
      as (created & Hm & _ & _ & Hc).
    simpl in *. unfold plugin_keys. rewrite Hm.
    rewrite map_map. simpl. rewrite map_id, Hc.
    unfold plugin_hasEntity, Map_has. simpl. split; [naive_solver|].
    intros [Hk _]. by split.
Qed.

Lemma getEntity_Some_has id p (s : P) :
  getEntity id p = Some s → plugin_hasEntity id p = true.
Proof.
  intros H. destruct (plugin_hasEntity id p) eqn:Hhas; [done|].
  apply getEntity_None in Hhas. congruence.
Qed.

(** What the loops of a reconciliation with the list [l] keep of the
    satellite [s] of [id]. *)
Lemma add_loop_keeps actions l id (s : P) t : ∀ p,
  (∀ e, e ∈ t → e ∈ l) →
  getEntity id p = Some s ∨ (getEntity id p = None ∧ id ∉ l) →
  let p' := foldl (fun p' entityId =>
                     if bool_decide (plugin_hasEntity entityId p' = false)
                     then rebase_add instantiatePlugin actions entityId p' else p') p t in
  getEntity id p' = Some s ∨ (getEntity id p' = None ∧ id ∉ l).
Proof.
  induction t as [|e t IH]; intros p Ht Hinv; simpl; [done|].
  apply IH; [intros x Hx; apply Ht; by right|].
  case_bool_decide as Hhas; [|done].
  assert (id ≠ e) as Hne.
  { intros ->. destruct Hinv as [Hs|[_ Hn]].
    - apply getEntity_Some_has in Hs. congruence.
    - apply Hn, Ht. by left. }
  by rewrite getEntity_rebase_add_ne.
Qed.

Lemma subset_loop_keeps actions l id (s : P) t : ∀ p,
  getEntity id p = Some s ∨ (getEntity id p = None ∧ id ∉ l) →
  let p' := foldl (fun p' entityId =>
                     if includes l entityId && bool_decide (plugin_hasEntity entityId p' = false)
                     then rebase_add instantiatePlugin actions entityId p'
                     else
                       forEach (fun entityId' p'' =>
                                  if negb (includes l entityId')
                                     && bool_decide (plugin_hasEntity entityId' p'' = true)
                                  then rebase_remove actions entityId' p'' else p'') p')
                  p t in
  getEntity id p' = Some s ∨ (getEntity id p' = None ∧ id ∉ l).
Proof.
  induction t as [|e t IH]; intros p Hinv; simpl; [done|].
  apply IH.
  assert (∀ q, q = forEach (fun entityId' p'' =>
                              if negb (includes l entityId')
                                 && bool_decide (plugin_hasEntity entityId' p'' = true)
                              then rebase_remove actions entityId' p'' else p'') p →
               getEntity id q = Some s ∨ (getEntity id q = None ∧ id ∉ l)) as Hrem.
  { intros q ->. rewrite forEach_subset_eq.
    destruct (remove_pass actions l p) as (_ & _ & Hg & Hn).
    destruct (decide (id ∈ l)) as [Hl|Hl].
    - rewrite (Hg id Hl). done.
    - destruct (Hn id) as [->| ->]; [done|]. by right. }
  destruct (includes l e) eqn:Hel; simpl; [|by apply Hrem].
  case_bool_decide as Hhas; [|by apply Hrem].
  apply includes_true in Hel.
  assert (id ≠ e) as Hne.
  { intros ->. destruct Hinv as [Hs|[_ Hn]]; [|done].
    apply getEntity_Some_has in Hs. congruence. }
  by rewrite getEntity_rebase_add_ne.
Qed.

(** X18.  [rebase] never replaces a satellite: whatever the mode and the
    argument, an id that has a satellite has afterwards the same satellite
    or none; it keeps it when the reconciliation is given a list that
    holds the id, and when [rebase] takes its seed path. *)
Theorem rebase_keeps_satellites (l : option (list ID)) actions queryIds p id (s : P) :
  getEntity id p = Some s →
  let p' := rebase toBoolean instantiatePlugin l actions queryIds p in
  (getEntity id p' = Some s ∨ getEntity id p' = None) ∧
  (match l with
   | Some l' => toBoolean l' = true → id ∈ l'
   | None => True
   end → getEntity id p' = Some s).
Proof.
  intros Hs p'.
  assert (getEntity id (rebase_seed instantiatePlugin queryIds p) = Some s) as Hseed.
  { unfold rebase_seed.
    destruct (seed_loop toBoolean instantiatePlugin (getIds queryIds p) p) as (created & Hm & _).
    unfold getEntity in *. rewrite Hm. by apply Map_get_app_Some. }
  destruct l as [l'|]; [|by split; [left|]].
  unfold p', rebase. destruct (toBoolean l') eqn:Htb; [|by split; [left|]].
  match goal with |- context [getEntity id ?q] =>
    assert (getEntity id q = Some s ∨ (getEntity id q = None ∧ id ∉ l')) as Hinv
  end.
  { destruct (entityIds p) as [v|].
    - apply subset_loop_keeps. by left.
    - rewrite forEach_all_eq.
      pose proof (add_loop_keeps actions l' id s l' p ltac:(done) ltac:(by left)) as H1.
      simpl in H1.
      match goal with |- context [foldl ?f ?p0 (plugin_entities ?q)] =>
        destruct (remove_pass actions l' q) as (_ & _ & Hg & Hn)
      end.
      destruct (decide (id ∈ l')) as [Hl|Hl].
      + rewrite (Hg id Hl). done.
      + destruct (Hn id) as [->| ->]; [done|]. by right. }
  split.
  - destruct Hinv as [->|[-> _]]; [by left|by right].
  - intros Hl. destruct Hinv as [->|[_ Hn]]; [done|]. by destruct Hn; apply Hl.
Qed.

(** X19.  A reconciliation is idempotent: given the same non-empty list
    again, [rebase] changes nothing (no satellite is created or destroyed
    and no callback is called). *)
Theorem rebase_idempotent l actions queryIds p :
  toBoolean l = true →
  (∀ v, entityIds p = Some v → ∀ id, id ∈ plugin_keys p → id ∈ coerceArray v) →
  let p' := rebase toBoolean instantiatePlugin (Some l) actions queryIds p in
  rebase toBoolean instantiatePlugin (Some l) actions queryIds p' = p'.
Proof.
  intros Htb Hsub p'.
  assert (∀ q, (∀ id, id ∈ plugin_keys q → id ∈ l) →
            foldl (fun p' kv =>
                     if plugin_hasEntity kv.1 p'
                     then (if negb (includes l kv.1) then rebase_remove actions kv.1 p' else p')
                     else p') q (plugin_entities q) = q) as Hrem.
  { intros q Hq. apply foldl_fixed. intros [k x] Hkx. simpl.
    assert (k ∈ plugin_keys q) as Hk.
    { unfold plugin_keys. apply list_elem_of_fmap. by exists (k, x). }
    rewrite (proj2 (plugin_hasEntity_keys k q) Hk).
    by rewrite (proj2 (includes_true l k) (Hq k Hk)). }
  destruct (entityIds p) as [v|] eqn:He.
  - destruct (rebase_subset actions l queryIds v p He Htb (Hsub v eq_refl)) as (He' & Hk').
    fold p' in He', Hk'. clearbody p'.
    unfold rebase. rewrite Htb, He'. apply foldl_fixed. intros e He1.
    assert (includes l e && bool_decide (plugin_hasEntity e p' = false) = false) as ->.
    { destruct (includes l e) eqn:Hel; [|done]. simpl.
      apply bool_decide_eq_false_2. apply includes_true in Hel.
      rewrite (proj2 (plugin_hasEntity_keys e p')); [done|]. by apply Hk'. }
    rewrite forEach_subset_eq. apply Hrem. intros id Hid. by apply Hk' in Hid as [_ ?].
  - destruct (rebase_all_ids toBoolean instantiatePlugin actions l queryIds p He Htb)
      as (He' & Hk').
    fold p' in He', Hk'. clearbody p'.
    unfold rebase. rewrite Htb, He'.
    rewrite (foldl_fixed _ p' l).
    + rewrite forEach_all_eq. apply Hrem. intros id Hid. by apply Hk'.
    + intros e He1. rewrite bool_decide_eq_false_2; [done|].
      rewrite (proj2 (plugin_hasEntity_keys e p')); [done|]. by apply Hk'.
Qed.

Lemma Map_get_created id (created : list ID) :
  id ∈ created →
  Map_get id (map (fun id => (id, instantiatePlugin id)) created) = Some (instantiatePlugin id).
Proof.
  unfold Map_get. induction created as [|c created IH]; intros Hin; simpl.
  { by apply elem_of_nil in Hin. }
  case_bool_decide as Hc; simpl in *; [by subst|].
  apply IH. apply elem_of_cons in Hin as [->|?]; done.
Qed.

(** X20.  Right after the construction a method called without ids
    ([undo()], [redo()], [clear()], ...) reaches the satellite of every
    tracked id, in the order of the tracked ids: those of the collection,
    or those of the fixed subset. *)
Theorem forEachId_after_construction (params_entityIds : option (OneOrMany ID))
    (queryIds : list ID) :
  let p := EntityStateHistoryPlugin_new toBoolean instantiatePlugin params_entityIds queryIds in
  forEachId None queryIds p =
    map instantiatePlugin (match params_entityIds with
                           | None => queryIds
                           | Some v => coerceArray v
                           end).
Proof.
  intros p. unfold forEachId, resolvedIds.
  set (p0 := mkPlugin [] params_entityIds [] : EntityCollectionPlugin P).
  assert (p = rebase_seed instantiatePlugin queryIds p0) as Hp by done.
  unfold rebase_seed in Hp.
  destruct (seed_loop toBoolean instantiatePlugin (getIds queryIds p0) p0)
    as (created & Hm & _ & He & Hc).
  rewrite <- Hp in Hm, He. simpl in Hm.
  assert (getIds queryIds p = getIds queryIds p0) as -> by (unfold getIds; by rewrite He).
  assert (getIds queryIds p0 = match params_entityIds with
                               | None => queryIds
                               | Some v => coerceArray v
                               end) as Ht by done.
  rewrite <- Ht. clear Ht Hp.
  assert (∀ id, id ∈ getIds queryIds p0 →
            (if plugin_hasEntity id p then getEntity id p else None)
            = Some (instantiatePlugin id)) as Hall.
  { intros id Hid. assert (id ∈ created) as Hcr by (apply Hc; by split).
    assert (getEntity id p = Some (instantiatePlugin id)) as Hg
      by (unfold getEntity; rewrite Hm; by apply Map_get_created).
    by rewrite (getEntity_Some_has _ _ _ Hg). }
  clear Hc. revert Hall. generalize (getIds queryIds p0). intros t.
  induction t as [|x t IH]; intros Hall; [done|]. simpl.
  rewrite Hall by left. f_equal. apply IH. intros id Hid. apply Hall. by right.
Qed.

End MorePluginFacts.

(** ** Instances of the further properties *)

(** A transaction that mutates the first counter and throws. *)
Lemma transaction_at_most_one_notification_witness :
  let c := Seq (SetState 0 (fun n => n + 1)%nat) (Throw (Thrown 3)) in
  let w' := (exec (Transaction c) sample_counters).2 in
  quiescent w' = true ∧
  ∃ st', heap w' !! 0%nat = Some st' ∧
    (st' = mkStore 5%nat (Some (mkBehaviorSubject 5%nat [])) false false tt ∨
     store st' = Some (mkBehaviorSubject (storeValue st') ([] ++ [storeValue st']))).
Proof.
  intros c w'.
  apply (transaction_at_most_one_notification c sample_counters
           (exec (Transaction c) sample_counters).1 w' 0%nat
           (mkStore 5%nat (Some (mkBehaviorSubject 5%nat [])) false false tt)
           (mkBehaviorSubject 5%nat [])); reflexivity.
Defined.

(** The second counter is not touched by a transaction on the first. *)
Lemma transaction_frame_witness :
  let c := Seq (SetState 0 (fun n => n + 1)%nat) (SetState 0 (fun n => n * 2)%nat) in
  heap (exec (Transaction c) sample_counters).2 !! 1%nat
  = Some (mkStore 7%nat (Some (mkBehaviorSubject 7%nat [])) false false tt).
Proof.
  intros c.
  apply (transaction_frame c sample_counters 1%nat
           (mkStore 7%nat (Some (mkBehaviorSubject 7%nat [])) false false tt)
           (mkBehaviorSubject 7%nat [])); reflexivity.
Defined.


Lemma setLoading_setError_idempotent_witness :
  setLoading 0 VUndefined (setLoading 0 VUndefined sample_world)
  = setLoading 0 VUndefined sample_world ∧
  setError 0 (VStr "e") (setError 0 (VStr "e") sample_world)
  = setError 0 (VStr "e") sample_world.
Proof.
  destruct (setLoading_setError_idempotent 0 VUndefined (VStr "e") sample_world sample_store
              eq_refl) as (A & B & _).
  by split.
Defined.

(** One id with an entity and one without: [update] and [add] both write,
    one state is emitted. *)
Lemma upsert_single_notification_witness :
  let l := Many [VNum 1; VNum 7] in
  let ns := Patch {[ "title" := VStr "n" ]} in
  let v' := upsert_value (ext sample_store) (storeValue sample_store) l ns
              (EntityStore.mkUpsertOptions None) in
  ∃ w', EntityStore.upsert 0 l ns (EntityStore.mkUpsertOptions None) sample_world
        = (Ok tt, w') ∧
        quiescent w' = true ∧
        synced 0 w' v' (if isEmpty (Some (coerceArray l)) then [] else [] ++ [v']).
Proof.
  intros l ns v'.
  apply (upsert_single_notification 0 sample_world sample_store [] l ns
           (EntityStore.mkUpsertOptions None)); reflexivity.
Defined.

(** The new id 3 is given twice and is appended twice. *)
Lemma upsertMany_ids_witness :
  let es := [ {[ "id" := VNum 1; "title" := VStr "x" ]}; {[ "id" := VNum 3 ]};
              {[ "id" := VNum 3 ]} ] : list Entity in
  ∃ st', heap (EntityStore.upsertMany 0 es None sample_world) !! 0%nat = Some st' ∧
    ids (storeValue st') =
      ids (storeValue sample_store) ++
      missing_ids (entities (storeValue sample_store))
        (map (getField (idKey (ext sample_store))) es) ∧
    active (storeValue st') = active (storeValue sample_store) ∧
    error (storeValue st') = error (storeValue sample_store).
Proof.
  intros es. apply (upsertMany_ids 0 sample_world sample_store es None). reflexivity.
Defined.

(** Two input entities for the stored id 1: the title of the first is
    lost. *)
Lemma upsertMany_last_wins_witness :
  let es := [ {[ "id" := VNum 1; "title" := VStr "x" ]};
              {[ "id" := VNum 1; "done" := VBool true ]} ] : list Entity in
  ∃ st', heap (EntityStore.upsertMany 0 es None sample_world) !! 0%nat = Some st' ∧
    entities (storeValue st') !! "1" =
      match last (List.filter
                    (fun e => bool_decide
                                (propKey (getField (idKey (ext sample_store)) e) = "1")) es) with
      | Some e =>
          Some (match entities (storeValue sample_store) !! "1" with
                | Some old => spread old e
                | None => match None ≫= EntityStore.um_baseClass with
                          | Some construct => construct e
                          | None => e
                          end
                end)
      | None => entities (storeValue sample_store) !! "1"
      end.
Proof.
  intros es. apply (upsertMany_last_wins 0 sample_world sample_store es None "1").
  reflexivity.
Defined.

(** No entity at all: a state is emitted all the same. *)
Lemma upsertMany_always_emits_witness :
  let v' := upsertMany_value (ext sample_store) (storeValue sample_store) [] None in
  synced 0 (EntityStore.upsertMany 0 [] None sample_world) v' ([] ++ [v']) ∧
  ([] = [] :> list Entity →
   v' = set_loading
          (VBool (truthy (default VUndefined
                            (EntityStore.um_loading <$> (None : option EntityStore.UpsertManyOptions)))))
          (storeValue sample_store)).
Proof.
  intros v'.
  apply (upsertMany_always_emits 0 sample_world sample_store [] [] None); reflexivity.
Defined.

Lemma addActive_spec_witness :
  let l := Many [VNum 2; VNum 3] in
  ∃ w' st' a',
    EntityStoreActive.addActive 0 l sample_active_world = (Ok tt, w') ∧
    heap w' !! 0%nat = Some st' ∧
    storeValue st' = set_active (ActiveMany a') (storeValue sample_active_store) ∧
    (∀ x, x ∈ a' ↔ x ∈ [VNum 1; VNum 2] ∨ x ∈ coerceArray l) ∧
    (NoDup [VNum 1; VNum 2] → NoDup a' ∧ ∃ added, a' = [VNum 1; VNum 2] ++ added) ∧
    ((∀ x, x ∈ coerceArray l → x ∈ [VNum 1; VNum 2]) → w' = sample_active_world).
Proof.
  intros l.
  apply (addActive_spec 0 sample_active_world sample_active_store [VNum 1; VNum 2] l);
    reflexivity.
Defined.

Lemma removeActive_spec_witness :
  let l := One (VNum 1) in
  ∃ w' st',
    EntityStoreActive.removeActive 0 l sample_active_world = (Ok tt, w') ∧
    heap w' !! 0%nat = Some st' ∧
    storeValue st' =
      set_active
        (ActiveMany (List.filter (fun currentId => negb (includes (coerceArray l) currentId))
                       [VNum 1; VNum 2]))
        (storeValue sample_active_store) ∧
    ((∀ x, x ∈ coerceArray l → x ∉ [VNum 1; VNum 2]) → w' = sample_active_world).
Proof.
  intros l.
  apply (removeActive_spec 0 sample_active_world sample_active_store [VNum 1; VNum 2] l);
    reflexivity.
Defined.

Lemma addActive_removeActive_roundtrip_witness :
  let l := One (VNum 3) in
  ∃ w1 w2 st2,
    EntityStoreActive.addActive 0 l sample_active_world = (Ok tt, w1) ∧
    EntityStoreActive.removeActive 0 l w1 = (Ok tt, w2) ∧
    heap w2 !! 0%nat = Some st2 ∧ storeValue st2 = storeValue sample_active_store.
Proof.
  intros l.
  apply (addActive_removeActive_roundtrip 0 sample_active_world sample_active_store
           [VNum 1; VNum 2] l).
  - reflexivity.
  - reflexivity.
  - compute_done.
  - intros x ->%list_elem_of_singleton. compute_done.
Defined.

(** The active id 2 and the inactive id 3 are toggled. *)
Lemma toggleActive_flips_witness :
  let l := Many [VNum 2; VNum 3] in
  ∃ w' st' a',
    EntityStoreActive.toggleActive 0 l sample_active_world = (Ok tt, w') ∧
    heap w' !! 0%nat = Some st' ∧
    storeValue st' = set_active (ActiveMany a') (storeValue sample_active_store) ∧
    ∀ x, x ∈ a' ↔ (x ∈ [VNum 1; VNum 2] ∧ x ∉ coerceArray l)
                  ∨ (x ∈ coerceArray l ∧ x ∉ [VNum 1; VNum 2]).
Proof.
  intros l.
  apply (toggleActive_flips 0 sample_active_world sample_active_store [] [VNum 1; VNum 2] l);
    reflexivity.
Defined.

Lemma toggleActive_single_notification_witness :
  let l := Many [VNum 2; VNum 3] in
  ∃ w' v', EntityStoreActive.toggleActive 0 l sample_active_world = (Ok tt, w') ∧
           quiescent w' = true ∧
           synced 0 w' v' (if isEmpty (Some (coerceArray l)) then [] else [] ++ [v']).
Proof.
  intros l.
  apply (toggleActive_single_notification 0 sample_active_world sample_active_store []
           [VNum 1; VNum 2] l); reflexivity.
Defined.

Lemma toggleActive_twice_witness :
  let l := Many [VNum 2; VNum 3] in
  ∃ w1 w2 st2 a2,
    EntityStoreActive.toggleActive 0 l sample_active_world = (Ok tt, w1) ∧
    EntityStoreActive.toggleActive 0 l w1 = (Ok tt, w2) ∧
    heap w2 !! 0%nat = Some st2 ∧
    storeValue st2 = set_active (ActiveMany a2) (storeValue sample_active_store) ∧
    ∀ x, x ∈ a2 ↔ x ∈ [VNum 1; VNum 2].
Proof.
  intros l.
  apply (toggleActive_twice 0 sample_active_world sample_active_store [] [VNum 1; VNum 2] l);
    reflexivity.
Defined.

(** The sample collection has the single active id 1, a number. *)
Lemma active_not_array_TypeError_witness :
  let l := One (VNum 2) in
  EntityStoreActive.addActive 0 l sample_world = (Err TypeError, sample_world) ∧
  EntityStoreActive.removeActive 0 l sample_world = (Err TypeError, sample_world) ∧
  ∃ w', EntityStoreActive.toggleActive 0 l sample_world = (Err TypeError, w') ∧
        quiescent w' = true ∧ heap w' !! 0%nat = Some sample_store.
Proof.
  intros l.
  apply (active_not_array_TypeError 0 sample_world sample_store (VNum 1) l).
  - reflexivity.
  - reflexivity.
  - reflexivity.
  - intros s. discriminate.
  - discriminate.
Defined.

(** The ids 5 and 7 are tracked; the collection has 7 alone, then 7 and
    9. *)
Lemma subset_reconciliation_witness :
  let inst := fun _ : ID => tt in
  let v := Many [VNum 5; VNum 7] in
  plugin_hasEntity (VNum 7)
    (foldl (on_ids toBoolean_spec inst)
       (EntityStateHistoryPlugin_new toBoolean_spec inst (Some v) [VNum 7])
       [[VNum 7; VNum 9]]) = true
  ↔ VNum 7 ∈ coerceArray v ∧ match last [[VNum 7; VNum 9]] with
                             | Some l => VNum 7 ∈ l
                             | None => True
                             end.
Proof.
  intros inst v.
  apply (subset_reconciliation toBoolean_spec inst v [VNum 7] [[VNum 7; VNum 9]]).
  - intros [|x l] H; [done|reflexivity].
  - repeat constructor; discriminate.
Defined.

(** The satellites of 1 and 2 exist; the collection becomes [[2]]. *)
Lemma rebase_keeps_satellites_witness :
  let inst := fun id : ID => id in
  let p := EntityStateHistoryPlugin_new toBoolean_spec inst None [VNum 1; VNum 2] in
  let p' := rebase toBoolean_spec inst (Some [VNum 2]) noActions [VNum 2] p in
  (getEntity (VNum 2) p' = Some (VNum 2) ∨ getEntity (VNum 2) p' = None) ∧
  ((toBoolean_spec [VNum 2] = true → VNum 2 ∈ [VNum 2]) →
   getEntity (VNum 2) p' = Some (VNum 2)).
Proof.
  intros inst p p'.
  apply (rebase_keeps_satellites toBoolean_spec inst (Some [VNum 2]) noActions [VNum 2] p
           (VNum 2) (VNum 2)).
  reflexivity.
Defined.

Lemma rebase_idempotent_witness :
  let inst := fun id : ID => id in
  let p := EntityStateHistoryPlugin_new toBoolean_spec inst None [VNum 1; VNum 2] in
  let p' := rebase toBoolean_spec inst (Some [VNum 2]) noActions [VNum 2] p in
  rebase toBoolean_spec inst (Some [VNum 2]) noActions [VNum 2] p' = p'.
Proof.
  intros inst p p'.
  apply (rebase_idempotent toBoolean_spec inst [VNum 2] noActions [VNum 2] p).
  - reflexivity.
  - intros v H. discriminate.
Defined.
